(** * colsim: the colour-vision-deficiency transform engine of [public/js/color-sim.js]

    A shallow embedding of the JavaScript module and the properties of its
    specification.

    Numbers.  A JavaScript number is modelled as NaN, an infinity or an exact
    real number.  Comparisons with NaN are false and arithmetic propagates
    it, and the infinities behave as in IEEE 754; finite values are computed
    exactly.  The rounding and the overflow of binary64 and the sign of zero
    are outside this model.  The per-pixel transform is given a second time,
    in module [Binary64], with the rounding of every operation explicit;
    exact arithmetic is the instance of it that does not round.

    Objects.  A parsed JSON object is an association list in key order;
    [Object.keys] is the list of its keys and [obj[k]] the first binding.
    The table has the schema's shape (mode -> severity key -> 3x3 matrix).
    Properties inherited from [Object.prototype] are not modelled: a mode
    that names one has no enumerable key, and its lookup ends in the same
    null as that of an unknown mode. *)

From Stdlib Require Import Reals Lra Lia ZArith List String Ascii Bool.
From Stdlib Require Import DecimalString Sorted Permutation.
Import ListNotations.

Open Scope R_scope.

(** ** JavaScript numbers *)

Module JsNum.

Inductive num : Type :=
| NaN
| Inf (negative : bool)
| Num (x : R).

(** [Number.isNaN] *)
Definition isNaN (a : num) : bool :=
  match a with NaN => true | _ => false end.

Definition of_Z (z : Z) : num := Num (IZR z).

Definition negative_real (x : R) : bool := if Rlt_dec x 0 then true else false.

Definition add (a b : num) : num :=
  match a, b with
  | Num x, Num y => Num (x + y)
  | Inf s, Inf s' => if Bool.eqb s s' then Inf s else NaN
  | Inf s, Num _ => Inf s
  | Num _, Inf s => Inf s
  | _, _ => NaN
  end.

Definition sub (a b : num) : num :=
  match a, b with
  | Num x, Num y => Num (x - y)
  | Inf s, Inf s' => if Bool.eqb s s' then NaN else Inf s
  | Inf s, Num _ => Inf s
  | Num _, Inf s => Inf (negb s)
  | _, _ => NaN
  end.

Definition mul (a b : num) : num :=
  match a, b with
  | Num x, Num y => Num (x * y)
  | Inf s, Inf s' => Inf (xorb s s')
  | Inf s, Num y => if Req_dec_T y 0 then NaN else Inf (xorb s (negative_real y))
  | Num x, Inf s => if Req_dec_T x 0 then NaN else Inf (xorb (negative_real x) s)
  | _, _ => NaN
  end.

Definition div (a b : num) : num :=
  match a, b with
  | Num x, Num y =>
      if Req_dec_T y 0
      then (if Req_dec_T x 0 then NaN else Inf (negative_real x))
      else Num (x / y)
  | Num _, Inf _ => Num 0
  | Inf s, Num y => Inf (xorb s (negative_real y))
  | _, _ => NaN
  end.

(** [a < b], [a <= b], [a > b], [a >= b]: false as soon as one side is NaN. *)
Definition lt (a b : num) : bool :=
  match a, b with
  | Num x, Num y => if Rlt_dec x y then true else false
  | Inf true, Inf false => true
  | Inf true, Num _ => true
  | Num _, Inf false => true
  | _, _ => false
  end.

Definition le (a b : num) : bool :=
  match a, b with
  | Num x, Num y => if Rle_dec x y then true else false
  | Inf s, Inf s' => implb s' s
  | Inf true, Num _ => true
  | Num _, Inf false => true
  | _, _ => false
  end.

Definition gt (a b : num) : bool := lt b a.
Definition ge (a b : num) : bool := le b a.

(** [y] is an odd integer. *)
Definition odd_integer (y : R) : bool :=
  if Req_dec_T (IZR (Zfloor y)) y then Z.odd (Zfloor y) else false.

(** [Math.pow], by the cases of the language's definition: a NaN exponent
    gives NaN and a zero exponent 1, whatever the base; then a NaN base gives
    NaN; then come the infinite and the zero bases and the infinite
    exponents; a negative base with an exponent that is no integer gives NaN;
    what remains is the real power. *)
Definition Math_pow (a b : num) : num :=
  match b with
  | NaN => NaN
  | Num y =>
      if Req_dec_T y 0 then Num 1
      else match a with
           | NaN => NaN
           | Inf false => if Rlt_dec 0 y then Inf false else Num 0
           | Inf true =>
               if Rlt_dec 0 y then Inf (odd_integer y) else Num 0
           | Num x =>
               if Rlt_dec 0 x then Num (Rpower x y)
               else if Req_dec_T x 0
                    then (if Rlt_dec 0 y then Num 0 else Inf false)
                    else if Req_dec_T (IZR (Zfloor y)) y
                         then Num (powerRZ x (Zfloor y))
                         else NaN
           end
  | Inf s =>
      match a with
      | NaN => NaN
      | Inf _ => if s then Num 0 else Inf false
      | Num x =>
          if Rlt_dec 1 (Rabs x) then (if s then Num 0 else Inf false)
          else if Req_dec_T (Rabs x) 1 then NaN
               else (if s then Inf false else Num 0)
      end
  end.

(** [Math.round]: the nearest integer, a tie going up. *)
Definition Math_round (a : num) : num :=
  match a with
  | Num x => Num (IZR (Zfloor (x + / 2)))
  | _ => a
  end.

(** Conversion of a number stored into a [Uint8ClampedArray] element:
    NaN becomes 0, the value is clamped to [0, 255] and rounded to the
    nearest integer, a tie going to the even one. *)
Definition ToUint8Clamp (a : num) : Z :=
  match a with
  | NaN => 0%Z
  | Inf true => 0%Z
  | Inf false => 255%Z
  | Num x =>
      if Rle_dec x 0 then 0%Z
      else if Rle_dec 255 x then 255%Z
      else let f := Zfloor x in
           if Rlt_dec (x - IZR f) (/ 2) then f
           else if Rlt_dec (/ 2) (x - IZR f) then (f + 1)%Z
           else if Z.even f then f else (f + 1)%Z
  end.

(** *** Decimal text *)

Definition string_of_Z (z : Z) : string :=
  NilZero.string_of_uint (N.to_uint (Z.to_N z)).

(** [x.toFixed(1)]: with [n] the integer nearest to [10 * |x|] (the larger
    one on a tie), the digits of [n] with a point before the last one, after
    a minus sign when [x < 0].  (JavaScript switches to exponent notation
    from 1e21 on; the model keeps the fixed notation.) *)
Definition toFixed1 (a : num) : string :=
  match a with
  | NaN => "NaN"
  | Inf false => "Infinity"
  | Inf true => "-Infinity"
  | Num x =>
      let neg := negative_real x in
      let n := Zfloor ((if neg then - x else x) * 10 + / 2) in
      ((if neg then "-" else "")
         ++ string_of_Z (n / 10) ++ "." ++ string_of_Z (n mod 10))%string
  end.

(** White space and line terminators, the text being in UTF-8: the ASCII
    ones in one byte, U+00A0 in two, and U+1680, U+2000 to U+200A, U+2028,
    U+2029, U+202F, U+205F, U+3000 and U+FEFF in three. *)
Definition is_space (c : ascii) : bool :=
  match nat_of_ascii c with
  | 9%nat | 10%nat | 11%nat | 12%nat | 13%nat | 32%nat => true
  | _ => false
  end.

Definition is_space2 (c1 c2 : ascii) : bool :=
  ((nat_of_ascii c1 =? 194) && (nat_of_ascii c2 =? 160))%nat%bool.

Definition is_space3 (c1 c2 c3 : ascii) : bool :=
  let b1 := nat_of_ascii c1 in
  let b2 := nat_of_ascii c2 in
  let b3 := nat_of_ascii c3 in
  (((b1 =? 225) && (b2 =? 154) && (b3 =? 128))
   || ((b1 =? 226) && (b2 =? 128)
       && (((128 <=? b3) && (b3 <=? 138))
           || (b3 =? 168) || (b3 =? 169) || (b3 =? 175)))
   || ((b1 =? 226) && (b2 =? 129) && (b3 =? 159))
   || ((b1 =? 227) && (b2 =? 128) && (b3 =? 128))
   || ((b1 =? 239) && (b2 =? 187) && (b3 =? 191)))%nat%bool.

Definition digit_of (c : ascii) : option Z :=
  let n := Z.of_nat (nat_of_ascii c) in
  if ((48 <=? n) && (n <=? 57))%Z then Some (n - 48)%Z else None.

Fixpoint skip_space (s : string) : string :=
  match s with
  | String c1 r1 =>
      if is_space c1 then skip_space r1
      else match r1 with
           | String c2 r2 =>
               if is_space2 c1 c2 then skip_space r2
               else match r2 with
                    | String c3 r3 =>
                        if is_space3 c1 c2 c3 then skip_space r3 else s
                    | EmptyString => s
                    end
           | EmptyString => s
           end
  | EmptyString => s
  end.

(** Reads a maximal run of decimal digits: the value accumulated onto [acc],
    the number of digits read and the rest of the text. *)
Fixpoint read_digits (s : string) (acc : Z) (cnt : Z) : Z * Z * string :=
  match s with
  | String c r =>
      match digit_of c with
      | Some d => read_digits r (10 * acc + d)%Z (cnt + 1)%Z
      | None => (acc, cnt, s)
      end
  | EmptyString => (acc, cnt, s)
  end.

Definition read_sign (s : string) : bool * string :=
  match s with
  | String "-" r => (true, r)
  | String "+" r => (false, r)
  | _ => (false, s)
  end.

(** A decimal numeral: sign, digits and power of ten. *)
Record decimal : Type := Decimal { d_neg : bool; d_digits : Z; d_exp : Z }.

(** The longest prefix of the text, after leading white space, that is a
    decimal literal ([digits], [digits.], [digits.digits], [.digits], each
    with an optional exponent), if there is one. *)
Definition parse_decimal (s : string) : option decimal :=
  let (neg, s0) := read_sign (skip_space s) in
  let '(ip, ni, s1) := read_digits s0 0%Z 0%Z in
  let '(m, nd, s2) :=
    match s1 with
    | String "." r =>
        let '(m, nf, r') := read_digits r ip 0%Z in (m, (ni + nf)%Z, (nf, r'))
    | _ => (ip, ni, (0%Z, s1))
    end in
  let (nf, s3) := s2 in
  if (nd =? 0)%Z then None
  else
    let e :=
      match s3 with
      | String c r =>
          if (Ascii.eqb c "e" || Ascii.eqb c "E")%bool
          then let (eneg, r') := read_sign r in
               let '(ev, ne, _) := read_digits r' 0%Z 0%Z in
               if (ne =? 0)%Z then 0%Z else if eneg then (- ev)%Z else ev
          else 0%Z
      | EmptyString => 0%Z
      end in
    Some (Decimal neg m (e - nf)).

Definition decimal_value (d : decimal) : R :=
  let m := if d_neg d then (- d_digits d)%Z else d_digits d in
  if (0 <=? d_exp d)%Z
  then IZR (m * 10 ^ d_exp d)
  else IZR m / IZR (10 ^ (- d_exp d)).

(** [parseFloat]: after leading white space and an optional sign, the
    infinity if the text goes on with [Infinity], else the value of the
    longest decimal literal it starts with, and NaN when there is none. *)
Definition parseFloat (s : string) : num :=
  let (neg, s0) := read_sign (skip_space s) in
  if String.prefix "Infinity" s0 then Inf neg
  else match parse_decimal s with
       | Some d => Num (decimal_value d)
       | None => NaN
       end.

End JsNum.

Import JsNum.

Declare Scope js_scope.
Delimit Scope js_scope with js.
Bind Scope js_scope with num.
Infix "+" := add : js_scope.
Infix "-" := sub : js_scope.
Infix "*" := mul : js_scope.
Infix "/" := div : js_scope.
Infix "<?" := lt (at level 70) : js_scope.
Infix "<=?" := le (at level 70) : js_scope.
Infix ">?" := gt (at level 70) : js_scope.
Infix ">=?" := ge (at level 70) : js_scope.

(** ** Values of the program *)

(** A 3x3 matrix, row by row; the program's matrices hold numbers. *)
Definition vec3 (A : Type) : Type := (A * A * A)%type.
Definition mat3 (A : Type) : Type := vec3 (vec3 A).
Definition matrix : Type := mat3 num.

Definition nth3 {A : Type} (t : vec3 A) (i : nat) : A :=
  let '(x, y, z) := t in
  match i with O => x | S O => y | _ => z end.

(** [m[r][c]] *)
Definition ix {A : Type} (m : mat3 A) (r c : nat) : A := nth3 (nth3 m r) c.

Definition build3 {A : Type} (f : nat -> A) : vec3 A :=
  (f 0%nat, f 1%nat, f 2%nat).

Definition map3 {A B : Type} (f : A -> B) (t : vec3 A) : vec3 B :=
  let '(x, y, z) := t in (f x, f y, f z).

(** The matrix of numbers that holds the given reals. *)
Definition of_reals (M : mat3 R) : matrix := map3 (map3 Num) M.

(** A parsed JSON object. *)
Definition object (V : Type) : Type := list (string * V).

Fixpoint get {V : Type} (o : object V) (k : string) : option V :=
  match o with
  | [] => None
  | (k', v) :: o' => if String.eqb k' k then Some v else get o' k
  end.

Definition keys {V : Type} (o : object V) : list string := map fst o.

(** Severity key -> matrix, and mode -> samples. *)
Definition samples : Type := object matrix.
Definition tables : Type := object samples.

Inductive error : Type :=
| Error (message : string)
| TypeError
| SyntaxError.

Inductive outcome (A : Type) : Type :=
| Return (v : A)
| Throw (e : error).
Arguments Return {A} v.
Arguments Throw {A} e.

(** ** The module [color-sim.js] *)

Module ColorSim.

(** What the module asks of the network: a [fetch] of a URL, and the reading
    of a response's body as JSON. *)
Inductive event : Type :=
| Fetch (url : string)
| Json (url : string).

(** The module's state: the cached table, and (for the properties that
    speak of re-fetching and re-parsing) the events so far, latest first. *)
Record state : Type := State {
  MACHADO_TABLE : option tables;
  trace : list event
}.

Definition initial : state := State None [].

(** What [fetch] delivers: the response's [ok], [status] and [statusText],
    and what [res.json()] resolves to (or the error it rejects with). *)
Record response : Type := Response {
  ok : bool;
  status : Z;
  statusText : string;
  json : outcome tables
}.

Definition default_url : string := "data/machado_matrices.json".

Definition loadMachadoMatrices (fetch : string -> outcome response)
    (url : option string) (st : state) : outcome tables * state :=
  match MACHADO_TABLE st with
  | Some T => (Return T, st)
  | None =>
      let url := match url with Some u => u | None => default_url end in
      let fetched := Fetch url :: trace st in
      match fetch url with
      | Throw e => (Throw e, State None fetched)
      | Return res =>
          if negb (ok res)
          then (Throw (Error ("Failed to load " ++ url ++ ": "
                                ++ string_of_Z (status res) ++ " "
                                ++ statusText res)%string),
                State None fetched)
          else match json res with
               | Throw e => (Throw e, State None (Json url :: fetched))
               | Return T => (Return T, State (Some T) (Json url :: fetched))
               end
      end
  end.

Definition clamp01 (v : num) : num :=
  if (v <? Num 0)%js then Num 0 else if (v >? Num 1)%js then Num 1 else v.

Definition srgbToLinear (c : num) : num :=
  if (c <=? Num 0.04045)%js
  then (c / Num 12.92)%js
  else Math_pow ((c + Num 0.055) / Num 1.055)%js (Num 2.4).

Definition linearToSrgb (c : num) : num :=
  if (c <=? Num 0.0031308)%js
  then (Num 12.92 * c)%js
  else (Num 1.055 * Math_pow c (Num 1.0 / Num 2.4) - Num 0.055)%js.

Definition lerpMatrix (a b : matrix) (t : num) : matrix :=
  build3 (fun r => build3 (fun c =>
    (ix a r c * (Num 1 - t) + ix b r c * t)%js)).

(** [Array.prototype.sort] with a comparator: a stable insertion sort that
    moves [x] past [y] when [cmp x y > 0]. *)
Fixpoint insert_by (cmp : num -> num -> num) (x : num) (l : list num) : list num :=
  match l with
  | [] => [x]
  | y :: l' => if (cmp x y >? Num 0)%js then y :: insert_by cmp x l' else x :: l
  end.

Fixpoint sort_by (cmp : num -> num -> num) (l : list num) : list num :=
  match l with
  | [] => []
  | x :: l' => insert_by cmp x (sort_by cmp l')
  end.

Definition sampleKeys_of (table : samples) : list num :=
  sort_by (fun a b => (a - b)%js)
    (filter (fun v => negb (isNaN v)) (map parseFloat (keys table))).

Definition keyFromNum (x : num) : string := toFixed1 x.

(** The search loop of [getMachadoMatrixSync]: [(k0, k1)] starts as [cur] and
    becomes the first adjacent pair [(a, b)] with [s >= a && s <= b]. *)
Fixpoint find_interval (s : num) (l : list num) (cur : num * option num)
  : num * option num :=
  match l with
  | a :: ((b :: _) as l') =>
      if ((s >=? a) && (s <=? b))%js%bool then (a, Some b)
      else find_interval s l' cur
  | _ => cur
  end.

(** The result is [None] for JavaScript's [null] and [undefined]; [k1] is
    [None] when [sampleKeys[1]] is undefined, and [keyFromNum] of it throws. *)
Definition getMachadoMatrixSync (st : state) (mode : string) (severity : num)
  : outcome (option matrix) :=
  match MACHADO_TABLE st with
  | None => Return None
  | Some T =>
      match get T mode with
      | None => Return None
      | Some table =>
          let s := clamp01 severity in
          let sampleKeys := sampleKeys_of table in
          match sampleKeys with
          | [] => Return None
          | first :: _ =>
              let final := last sampleKeys first in
              if (s <=? first)%js then Return (get table (keyFromNum first))
              else if (s >=? final)%js then Return (get table (keyFromNum final))
              else
                let '(k0, k1) :=
                  find_interval s sampleKeys (first, nth_error sampleKeys 1) in
                let m0 := get table (keyFromNum k0) in
                match k1 with
                | None => Throw TypeError
                | Some k1 =>
                    match m0, get table (keyFromNum k1) with
                    | Some m0, Some m1 =>
                        let t := ((s - k0) / (k1 - k0))%js in
                        Return (Some (lerpMatrix m0 m1 t))
                    | _, _ => Return None
                    end
                end
          end
      end
  end.

Definition transformRgbWithMatrix_srgbLinear (r g b : num) (mat : matrix)
  : num * num * num :=
  let R := (r / Num 255)%js in
  let G := (g / Num 255)%js in
  let B := (b / Num 255)%js in
  let R := srgbToLinear R in
  let G := srgbToLinear G in
  let B := srgbToLinear B in
  let R2 := (ix mat 0 0 * R + ix mat 0 1 * G + ix mat 0 2 * B)%js in
  let G2 := (ix mat 1 0 * R + ix mat 1 1 * G + ix mat 1 2 * B)%js in
  let B2 := (ix mat 2 0 * R + ix mat 2 1 * G + ix mat 2 2 * B)%js in
  let R3 := linearToSrgb R2 in
  let G3 := linearToSrgb G2 in
  let B3 := linearToSrgb B2 in
  let outR := (clamp01 R3 * Num 255)%js in
  let outG := (clamp01 G3 * Num 255)%js in
  let outB := (clamp01 B3 * Num 255)%js in
  (Math_round outR, Math_round outG, Math_round outB).

(** A canvas: its size and its RGBA bytes, row-major, four per pixel. *)
Record canvas : Type := Canvas { width : Z; height : Z; data : list Z }.

(** The pixel loop of [applyCvdSimulation], from [srcData] to the contents of
    [dstData] (a [Uint8ClampedArray], whose stores convert).  The length of
    an image's data is a multiple of four, so the loop reads whole pixels. *)
Fixpoint pixel_loop (mat : matrix) (srcData : list Z) : list Z :=
  match srcData with
  | r :: g :: b :: a :: rest =>
      let '(nr, ng, nb) :=
        transformRgbWithMatrix_srgbLinear (of_Z r) (of_Z g) (of_Z b) mat in
      ToUint8Clamp nr :: ToUint8Clamp ng :: ToUint8Clamp nb
        :: ToUint8Clamp (of_Z a) :: pixel_loop mat rest
  | _ => []
  end.

(** [applyCvdSimulation]: the image data put on the destination canvas, or
    [None] when the function returns without drawing. *)
Definition applyCvdSimulation (st : state) (srcCanvas : canvas) (mode : string)
    (severity : option num) : outcome (option (list Z)) :=
  let severity := match severity with Some s => s | None => Num 1.0 end in
  match getMachadoMatrixSync st mode severity with
  | Throw e => Throw e
  | Return None => Return None
  | Return (Some mat) =>
      if ((width srcCanvas =? 0) || (height srcCanvas =? 0))%Z%bool
      then Return None
      else Return (Some (pixel_loop mat (data srcCanvas)))
  end.

End ColorSim.

Import ColorSim.

(** ** The specification's notions *)

Module Spec.

(** An 8-bit channel value. *)
Definition byte (z : Z) : Prop := (0 <= z <= 255)%Z.

(** sRGB inverse transfer function (encoded to linear light). *)
Definition srgb_inverse (c : R) : R :=
  if Rle_dec c 0.04045 then c / 12.92 else Rpower ((c + 0.055) / 1.055) 2.4.

(** sRGB forward transfer function (linear light to encoded). *)
Definition srgb_forward (c : R) : R :=
  if Rle_dec c 0.0031308 then 12.92 * c else 1.055 * Rpower c (1 / 2.4) - 0.055.

(** Matrix-vector product, row [i]. *)
Definition row_dot (M : mat3 R) (i : nat) (v : vec3 R) : R :=
  ix M i 0 * nth3 v 0 + ix M i 1 * nth3 v 1 + ix M i 2 * nth3 v 2.

(** Clamping to the closed unit interval. *)
Definition clamp_unit (c : R) : R := Rmax 0 (Rmin c 1).

(** [n] is an integer nearest to [x]. *)
Definition nearest_integer (x : R) (n : Z) : Prop := Rabs (IZR n - x) <= / 2.

(** Steps 1 and 2 on a pixel's colour channels. *)
Definition linear_of (r g b : Z) : vec3 R :=
  (srgb_inverse (IZR r / 255), srgb_inverse (IZR g / 255),
   srgb_inverse (IZR b / 255)).

(** Steps 3 and 4 and the clamp and scale of step 5, for output channel [i]. *)
Definition scaled_channel (M : mat3 R) (i : nat) (r g b : Z) : R :=
  clamp_unit (srgb_forward (row_dot M i (linear_of r g b))) * 255.

Definition identity : mat3 R := ((1, 0, 0), (0, 1, 0), (0, 0, 1)).

(** A matrix all of whose entries are finite reals. *)
Definition finite_matrix (m : matrix) : Prop := exists M, m = of_reals M.

(** [table] stores matrix [m] under [key], and [key] reads as severity [k]. *)
Definition sample (table : samples) (key : string) (k : R) (m : matrix) : Prop :=
  get table key = Some m /\ parseFloat key = Num k.

(** The data model's invariants on one mode's samples: matrices of finite
    reals, and every key that reads as a number a severity in [0, 1] written
    with one fractional digit, that is, as [toFixed(1)] writes its value. *)
Definition well_formed (table : samples) : Prop :=
  forall key m, get table key = Some m ->
    finite_matrix m /\
    match parseFloat key with
    | NaN => True
    | Inf _ => False
    | Num k => 0 <= k <= 1 /\ toFixed1 (Num k) = key
    end.

(** No key of the samples reads as an infinity. *)
Definition finite_keys (table : samples) : Prop :=
  forall key, In key (keys table) -> forall s, parseFloat key <> Inf s.

(** [k] is the smallest (largest) sample point of [table]. *)
Definition smallest (table : samples) (k : R) : Prop :=
  forall key' k' m', sample table key' k' m' -> k <= k'.
Definition largest (table : samples) (k : R) : Prop :=
  forall key' k' m', sample table key' k' m' -> k' <= k.

(** [k0] and [k1] are adjacent sample points: no sample lies between them. *)
Definition adjacent (table : samples) (k0 k1 : R) : Prop :=
  k0 < k1 /\ forall key k m, sample table key k m -> ~ (k0 < k < k1).

(** Element-wise linear interpolation: [Mres] is [M0 * (1 - t) + M1 * t]. *)
Definition interpolates (Mres M0 M1 : mat3 R) (t : R) : Prop :=
  forall r c, (r < 3)%nat -> (c < 3)%nat ->
    ix Mres r c = ix M0 r c * (1 - t) + ix M1 r c * t.

(** The mode's sample set is empty: no key reads as a severity. *)
Definition no_samples (table : samples) : Prop :=
  forall key, In key (keys table) -> parseFloat key = NaN.

(** The structural violations of a source: a mode without a severity sample,
    and a severity key that does not read as a number. *)
Definition mode_without_sample (T : tables) : Prop :=
  exists mode, get T mode = Some [].

Definition unreadable_key (T : tables) : Prop :=
  exists mode table key m,
    get T mode = Some table /\ get table key = Some m /\ parseFloat key = NaN.

(** The matrix all of whose entries are NaN. *)
Definition nan_matrix : matrix :=
  ((NaN, NaN, NaN), (NaN, NaN, NaN), (NaN, NaN, NaN)).

(** A sequence of load calls, each with the network it meets. *)
Fixpoint load_sequence
    (calls : list ((string -> outcome response) * option string)) (st : state)
  : list (outcome tables) * state :=
  match calls with
  | [] => ([], st)
  | (fetch, url) :: calls' =>
      let (r, st') := loadMachadoMatrices fetch url st in
      let (rs, st'') := load_sequence calls' st' in
      (r :: rs, st'')
  end.

End Spec.

Import Spec.

(** ** Sample data *)

Module Example.

(** The full-severity protanopia matrix of the specification's scenario. *)
Definition protan_full : mat3 R :=
  ((0.152, 1.053, -0.205), (0.115, 0.786, 0.099), (-0.004, 0.048, 0.956)).

Definition protan_half : mat3 R :=
  ((0.576, 0.5265, -0.1025), (0.0575, 0.893, 0.0495), (-0.002, 0.024, 0.978)).

Definition protan_samples : samples :=
  [("0.0"%string, of_reals identity);
   ("0.5"%string, of_reals protan_half);
   ("1.0"%string, of_reals protan_full)].

Definition source : tables := [("protan"%string, protan_samples)].

Definition loaded : state :=
  State (Some source) [Json default_url; Fetch default_url].

(** A source with a mode without samples and a key that is not a number. *)
Definition bad_source : tables :=
  [("protan"%string, []);
   ("deutan"%string, [("full"%string, of_reals protan_full)])].

Definition serve (T : tables) : string -> outcome response :=
  fun _ => Return (Response true 200 "OK" (Return T)).

Definition not_found : string -> outcome response :=
  fun _ => Return (Response false 404 "Not Found" (Throw SyntaxError)).

End Example.

(** ** Notions for the further properties *)

Module Props.

(** The alpha bytes of image data, pixel by pixel. *)
Fixpoint alphas (d : list Z) : list Z :=
  match d with
  | _ :: _ :: _ :: a :: rest => a :: alphas rest
  | _ => []
  end.

(** Image data with every pixel's colour set to black, alpha kept. *)
Fixpoint blacken (d : list Z) : list Z :=
  match d with
  | _ :: _ :: _ :: a :: rest => 0%Z :: 0%Z :: 0%Z :: a :: blacken rest
  | _ => []
  end.

(** Each row of the matrix sums to 1 up to the sixth decimal. *)
Definition unit_rows (M : mat3 R) : Prop :=
  forall i, (i < 3)%nat ->
    1 - 2e-6 <= ix M i 0 + ix M i 1 + ix M i 2 <= 1 + 2e-6.

(** Every entry of the matrix is between -4 and 4. *)
Definition moderate (M : mat3 R) : Prop :=
  forall i j, (i < 3)%nat -> (j < 3)%nat -> -4 <= ix M i j <= 4.

(** A list of numbers in ascending order. *)
Definition ascending : list num -> Prop :=
  StronglySorted (fun x y => (x <=? y)%js = true).

(** An association list read as an object has each key once. *)
Definition distinct_keys {V : Type} (o : object V) : Prop := NoDup (keys o).

End Props.

Import Props.

(** ** More sample data *)

Module Cases.

(** A mode with a single sample point. *)
Definition single_sample : samples :=
  [("1.0"%string, of_reals Example.protan_full)].

Definition single_source : tables := [("protan"%string, single_sample)].

Definition single_loaded : state := State (Some single_source) [].

(** One opaque white pixel and one half-transparent grey pixel. *)
Definition two_pixels : canvas :=
  Canvas 2 1 [255; 255; 255; 255; 128; 128; 128; 100]%Z.

End Cases.

(** ** The page script [main.js] *)

(** What the script uses of the browser, beside [color-sim.js]. *)
Module Dom.

(** [x.toFixed(f)]: as [toFixed1], with [f] fractional digits. *)
Fixpoint low_digits (f : nat) (n : Z) : string :=
  match f with
  | O => EmptyString
  | S f' => (low_digits f' (n / 10) ++ string_of_Z (n mod 10))%string
  end.

Definition toFixed (f : nat) (a : num) : string :=
  match a with
  | NaN => "NaN"
  | Inf false => "Infinity"
  | Inf true => "-Infinity"
  | Num x =>
      let neg := negative_real x in
      let n := Zfloor ((if neg then - x else x) * IZR (10 ^ Z.of_nat f) + / 2) in
      ((if neg then "-" else "")
         ++ string_of_Z (n / 10 ^ Z.of_nat f)
         ++ (match f with O => "" | _ => "." end)
         ++ low_digits f (n mod 10 ^ Z.of_nat f))%string
  end.

(** Conversion of a number assigned to an [unsigned long] attribute, such
    as a canvas's [width]: NaN and the infinities give 0, other values are
    truncated and reduced modulo 2^32.  (Sizes from 2^31 on, which a canvas
    replaces by its default size, are outside the model.) *)
Definition ToUint32 (a : num) : Z :=
  match a with
  | Num x => ((if Rlt_dec x 0 then - Zfloor (- x) else Zfloor x) mod 2 ^ 32)%Z
  | _ => 0%Z
  end.

(** What the script tells the user and the console. *)
Inductive effect : Type :=
| ConsoleLog (message : string)
| ConsoleError (e : error)
| Alert (message : string)
| Uncaught (e : error).

(** A canvas the simulations are drawn on: its size, and the images put on
    it at (0, 0) since it was last cleared, latest first; an image is given
    as a [canvas], that is, a size and its data. *)
Record target : Type := Target {
  t_width : Z;
  t_height : Z;
  t_puts : list canvas
}.

End Dom.

Import Dom.

Module Main.

(** The script's variables and the page elements it writes: the state of
    [color-sim.js], the four variables of the script, the text of
    [severity-value], the four canvases, the animation frames requested and
    not yet run, and the effects so far, latest first. *)
Record page : Type := Page {
  cvdSim : ColorSim.state;
  currentSeverity : num;
  hasImage : bool;
  machadoReady : bool;
  pendingFrame : option Z;
  severityValue : string;
  canvasOriginal : canvas;
  canvasProtan : target;
  canvasDeutan : target;
  canvasTritan : target;
  frames : list Z;
  effects : list effect
}.

(** The page as the script finds it, the canvases having the sizes the
    document gives them. *)
Definition start (wo ho wp hp wd hd wt ht : Z) (drawn : list Z) : page :=
  Page ColorSim.initial (Num 1.0) false false None EmptyString
    (Canvas wo ho drawn) (Target wp hp []) (Target wd hd []) (Target wt ht [])
    [] [].

Definition set_cvdSim (p : page) (s : ColorSim.state) : page :=
  Page s (currentSeverity p) (hasImage p) (machadoReady p) (pendingFrame p)
    (severityValue p) (canvasOriginal p) (canvasProtan p) (canvasDeutan p)
    (canvasTritan p) (frames p) (effects p).

Definition set_machadoReady (p : page) (b : bool) : page :=
  Page (cvdSim p) (currentSeverity p) (hasImage p) b (pendingFrame p)
    (severityValue p) (canvasOriginal p) (canvasProtan p) (canvasDeutan p)
    (canvasTritan p) (frames p) (effects p).

Definition set_severity (p : page) (s : num) (text : string) : page :=
  Page (cvdSim p) s (hasImage p) (machadoReady p) (pendingFrame p)
    text (canvasOriginal p) (canvasProtan p) (canvasDeutan p)
    (canvasTritan p) (frames p) (effects p).

Definition set_frame (p : page) (pending : option Z) (fs : list Z) : page :=
  Page (cvdSim p) (currentSeverity p) (hasImage p) (machadoReady p) pending
    (severityValue p) (canvasOriginal p) (canvasProtan p) (canvasDeutan p)
    (canvasTritan p) fs (effects p).

Definition set_targets (p : page) (tp td tt : target) : page :=
  Page (cvdSim p) (currentSeverity p) (hasImage p) (machadoReady p)
    (pendingFrame p) (severityValue p) (canvasOriginal p) tp td tt
    (frames p) (effects p).

Definition set_image (p : page) (o : canvas) (tp td tt : target) : page :=
  Page (cvdSim p) (currentSeverity p) true (machadoReady p)
    (pendingFrame p) (severityValue p) o tp td tt (frames p) (effects p).

Definition add_effects (p : page) (es : list effect) : page :=
  Page (cvdSim p) (currentSeverity p) (hasImage p) (machadoReady p)
    (pendingFrame p) (severityValue p) (canvasOriginal p) (canvasProtan p)
    (canvasDeutan p) (canvasTritan p) (frames p) (es ++ effects p).

(** What one call of [applyCvdSimulation] does to its destination canvas. *)
Definition draw (src : canvas) (dst : target) (result : option (list Z))
  : target :=
  match result with
  | Some img =>
      Target (t_width dst) (t_height dst)
        (Canvas (width src) (height src) img :: t_puts dst)
  | None => dst
  end.

(** [reSimulate]: the error it throws, if any, and the page it leaves. *)
Definition reSimulate (p : page) : option error * page :=
  if (negb (hasImage p) || negb (machadoReady p))%bool then (None, p)
  else
    let src := canvasOriginal p in
    let sev := Some (currentSeverity p) in
    match applyCvdSimulation (cvdSim p) src "protan" sev with
    | Throw e => (Some e, p)
    | Return r1 =>
        let p1 := set_targets p (draw src (canvasProtan p) r1)
                    (canvasDeutan p) (canvasTritan p) in
        match applyCvdSimulation (cvdSim p) src "deutan" sev with
        | Throw e => (Some e, p1)
        | Return r2 =>
            let p2 := set_targets p1 (canvasProtan p1)
                        (draw src (canvasDeutan p1) r2) (canvasTritan p1) in
            match applyCvdSimulation (cvdSim p) src "tritan" sev with
            | Throw e => (Some e, p2)
            | Return r3 =>
                (None, set_targets p2 (canvasProtan p2) (canvasDeutan p2)
                         (draw src (canvasTritan p2) r3))
            end
        end
    end.

(** The size [drawAllCanvases] gives the canvases, from the window's inner
    width and the image's size. *)
Definition canvas_size (innerWidth imgWidth imgHeight : Z) : num * num :=
  let isSmallScreen := (of_Z innerWidth <=? Num 600)%js in
  let maxWidth := if isSmallScreen then Num 480 else Num 800 in
  let scale :=
    if (of_Z imgWidth >? maxWidth)%js
    then (maxWidth / of_Z imgWidth)%js else Num 1 in
  let w := Math_round (of_Z imgWidth * scale)%js in
  let h := Math_round (of_Z imgHeight * scale)%js in
  (w, h).

(** [drawAllCanvases(img)]: [drawn w h] is the data of the original canvas
    once the browser has drawn the image on it at that size. *)
Definition drawAllCanvases (innerWidth imgWidth imgHeight : Z)
    (drawn : Z -> Z -> list Z) (p : page) : option error * page :=
  let (w, h) := canvas_size innerWidth imgWidth imgHeight in
  let w := ToUint32 w in
  let h := ToUint32 h in
  let p1 := set_image p (Canvas w h (drawn w h))
              (Target w h []) (Target w h []) (Target w h []) in
  if machadoReady p1 then reSimulate p1 else (None, p1).

(** The start-up block: the load has settled, against the network [fetch]. *)
Definition startup (fetch : string -> outcome response) (p : page) : page :=
  let (r, s) := loadMachadoMatrices fetch None (cvdSim p) in
  let failed e q :=
    add_effects q
      [Alert "色覚シミュレーション用行列の読み込みに失敗しました。";
       ConsoleError e] in
  match r with
  | Throw e => failed e (set_cvdSim p s)
  | Return _ =>
      let p1 := add_effects (set_machadoReady (set_cvdSim p s) true)
                  [ConsoleLog "Machado matrices loaded."] in
      if hasImage p1
      then match reSimulate p1 with
           | (Some e, p2) => failed e p2
           | (None, p2) => p2
           end
      else p1
  end.

(** The slider's [input] listener: [value] is the slider's value and [id]
    the request id [requestAnimationFrame] returns if it is called. *)
Definition severityInput (value : string) (id : Z) (p : page) : page :=
  let s := parseFloat value in
  let p1 := set_severity p s (toFixed 2 s) in
  if (negb (hasImage p1) || negb (machadoReady p1))%bool then p1
  else match pendingFrame p1 with
       | Some _ => p1
       | None => set_frame p1 (Some id) (id :: frames p1)
       end.

(** The browser runs the animation frame callback requested under [id]. *)
Definition animationFrame (id : Z) (p : page) : option error * page :=
  if existsb (Z.eqb id) (frames p)
  then reSimulate
         (set_frame p None (filter (fun i => negb (Z.eqb id i)) (frames p)))
  else (None, p).

(** What happens to the page: the start-up block settles; an image chosen
    with the file input has loaded; the paste handler has its image; the
    slider moves; the browser runs an animation frame. *)
Inductive page_event : Type :=
| Startup (fetch : string -> outcome response)
| ImageLoaded (innerWidth imgWidth imgHeight : Z) (drawn : Z -> Z -> list Z)
| ImagePasted (innerWidth imgWidth imgHeight : Z) (drawn : Z -> Z -> list Z)
| SeverityInput (value : string) (id : Z)
| AnimationFrame (id : Z).

(** An error no handler catches is reported by the browser. *)
Definition uncaught (r : option error * page) : page :=
  match r with
  | (Some e, p) => add_effects p [Uncaught e]
  | (None, p) => p
  end.

(** The paste handler catches what [drawAllCanvases] throws. *)
Definition caught (r : option error * page) : page :=
  match r with
  | (Some e, p) =>
      add_effects p
        [Alert "画像の処理中にエラーが発生しました。コンソールログを確認してください。";
         ConsoleError e]
  | (None, p) => p
  end.

Definition step (p : page) (ev : page_event) : page :=
  match ev with
  | Startup fetch => startup fetch p
  | ImageLoaded iw w h drawn => uncaught (drawAllCanvases iw w h drawn p)
  | ImagePasted iw w h drawn => caught (drawAllCanvases iw w h drawn p)
  | SeverityInput value id => severityInput value id p
  | AnimationFrame id => uncaught (animationFrame id p)
  end.

Definition run (p : page) (evs : list page_event) : page :=
  fold_left step evs p.

End Main.

Import Main.

(** ** Notions for the page *)

Module PageProps.

(** Every image put on the canvas has the canvas's size. *)
Definition covered (t : target) : Prop :=
  Forall (fun img => width img = t_width t /\ height img = t_height t)
    (t_puts t).

Definition same_size (o : canvas) (t : target) : Prop :=
  t_width t = width o /\ t_height t = height o.

(** The three simulated canvases have the size of the original one once an
    image is there, and every image put on them has their size. *)
Definition sized (p : page) : Prop :=
  (hasImage p = true ->
   same_size (canvasOriginal p) (canvasProtan p) /\
   same_size (canvasOriginal p) (canvasDeutan p) /\
   same_size (canvasOriginal p) (canvasTritan p)) /\
  covered (canvasProtan p) /\ covered (canvasDeutan p) /\
  covered (canvasTritan p).

(** The page with other effects. *)
Definition with_effects (p : page) (es : list effect) : page :=
  Page (cvdSim p) (currentSeverity p) (hasImage p) (machadoReady p)
    (pendingFrame p) (severityValue p) (canvasOriginal p) (canvasProtan p)
    (canvasDeutan p) (canvasTritan p) (frames p) es.

(** Nothing has been put on the simulated canvases. *)
Definition blank (p : page) : Prop :=
  t_puts (canvasProtan p) = [] /\ t_puts (canvasDeutan p) = [] /\
  t_puts (canvasTritan p) = [].

(** At most one animation frame is requested, the one [pendingFrame] names. *)
Definition one_frame (p : page) : Prop :=
  match pendingFrame p with
  | None => frames p = []
  | Some id => frames p = [id] /\ hasImage p = true /\ machadoReady p = true
  end.

(** The slider events of the list carry values that read as numbers. *)
Definition numeric_inputs (evs : list page_event) : Prop :=
  Forall (fun ev => match ev with
                    | SeverityInput value _ => isNaN (parseFloat value) = false
                    | _ => True
                    end) evs.

(** Slider inputs as events, each with the id a frame request would get. *)
Definition inputs (l : list (string * Z)) : list page_event :=
  map (fun vi => SeverityInput (fst vi) (snd vi)) l.

(** The canvas [t] shows what [applyCvdSimulation] draws for [mode] from the
    page's original canvas at the page's severity, if it draws. *)
Definition shows (p : page) (mode : string) (t : target) : Prop :=
  forall img,
    applyCvdSimulation (cvdSim p) (canvasOriginal p) mode
      (Some (currentSeverity p)) = Return (Some img) ->
    hd_error (t_puts t) =
    Some (Canvas (width (canvasOriginal p)) (height (canvasOriginal p)) img).

(** With an image, the table and no frame pending, the three simulated
    canvases show the simulation at the current severity. *)
Definition up_to_date (p : page) : Prop :=
  hasImage p = true -> machadoReady p = true -> pendingFrame p = None ->
  shows p "protan" (canvasProtan p) /\ shows p "deutan" (canvasDeutan p) /\
  shows p "tritan" (canvasTritan p).

End PageProps.

Import PageProps.

(** ** Sample pages *)

Module PageCases.

(** A page with the sample table, a two-pixel image and frame 7 pending. *)
Definition pending : page :=
  set_frame
    (set_image
       (set_machadoReady
          (set_cvdSim (start 2 1 2 1 2 1 2 1 []) Example.loaded) true)
       Cases.two_pixels (Target 2 1 []) (Target 2 1 []) (Target 2 1 []))
    (Some 7%Z) [7%Z].

(** A session: the table loads, an image arrives, the slider moves twice
    and the frame runs. *)
Definition session : list page_event :=
  [Startup (Example.serve Example.source);
   ImageLoaded 1024 2 1 (fun _ _ => [255; 255; 255; 255; 128; 128; 128; 100]%Z);
   SeverityInput "0.5" 1; SeverityInput "1.0" 2; AnimationFrame 1;
   ImagePasted 400 1 1 (fun _ _ => [0; 0; 0; 255]%Z)].

End PageCases.

(** ** The per-pixel transform in binary64 arithmetic

    The per-pixel transform once more, with the rounding of binary64 made
    explicit.  [rnd x] is the number the machine has for the real [x]: the
    nearest binary64 value, or an infinity when [x] is out of range.  Each
    arithmetic operation returns [rnd] of its exact result and a decimal
    literal stands for [rnd] of its decimal; the integers 0, 1 and 255 are
    binary64 values themselves.  Comparisons, [Math.round] and the stores
    into a [Uint8ClampedArray] are exact.  [Math.pow], which the language
    leaves to the implementation, is the parameter [pow].  With [rnd := Num]
    and [pow := Math_pow] these definitions are those of [ColorSim]. *)

Module Binary64.

Section Arithmetic.

Variable rnd : R -> num.
Variable pow : num -> num -> num.

(** The machine's value for an exact result. *)
Definition fl (a : num) : num :=
  match a with
  | Num x => rnd x
  | _ => a
  end.

(** A decimal literal of the source. *)
Definition lit (x : R) : num := rnd x.

Definition add (a b : num) : num := fl (JsNum.add a b).
Definition sub (a b : num) : num := fl (JsNum.sub a b).
Definition mul (a b : num) : num := fl (JsNum.mul a b).
Definition div (a b : num) : num := fl (JsNum.div a b).

(** *** The code *)

Definition srgbToLinear (c : num) : num :=
  if (c <=? lit 0.04045)%js
  then div c (lit 12.92)
  else pow (div (add c (lit 0.055)) (lit 1.055)) (lit 2.4).

Definition linearToSrgb (c : num) : num :=
  if (c <=? lit 0.0031308)%js
  then mul (lit 12.92) c
  else sub (mul (lit 1.055) (pow c (div (Num 1.0) (lit 2.4)))) (lit 0.055).

Definition transformRgbWithMatrix_srgbLinear (r g b : num) (mat : matrix)
  : num * num * num :=
  let R := div r (Num 255) in
  let G := div g (Num 255) in
  let B := div b (Num 255) in
  let R := srgbToLinear R in
  let G := srgbToLinear G in
  let B := srgbToLinear B in
  let R2 := add (add (mul (ix mat 0 0) R) (mul (ix mat 0 1) G))
              (mul (ix mat 0 2) B) in
  let G2 := add (add (mul (ix mat 1 0) R) (mul (ix mat 1 1) G))
              (mul (ix mat 1 2) B) in
  let B2 := add (add (mul (ix mat 2 0) R) (mul (ix mat 2 1) G))
              (mul (ix mat 2 2) B) in
  let R3 := linearToSrgb R2 in
  let G3 := linearToSrgb G2 in
  let B3 := linearToSrgb B2 in
  let outR := mul (clamp01 R3) (Num 255) in
  let outG := mul (clamp01 G3) (Num 255) in
  let outB := mul (clamp01 B3) (Num 255) in
  (Math_round outR, Math_round outG, Math_round outB).

Fixpoint pixel_loop (mat : matrix) (srcData : list Z) : list Z :=
  match srcData with
  | r :: g :: b :: a :: rest =>
      let '(nr, ng, nb) :=
        transformRgbWithMatrix_srgbLinear (of_Z r) (of_Z g) (of_Z b) mat in
      ToUint8Clamp nr :: ToUint8Clamp ng :: ToUint8Clamp nb
        :: ToUint8Clamp (of_Z a) :: pixel_loop mat rest
  | _ => []
  end.

(** *** The steps of the specification, in the same arithmetic *)

(** Step 1: a channel divided by 255. *)
Definition normalised (c : Z) : num := div (of_Z c) (Num 255).

(** Step 2: the sRGB inverse transfer function. *)
Definition inverse_transfer (c : num) : num :=
  if (c <=? lit 0.04045)%js
  then div c (lit 12.92)
  else pow (div (add c (lit 0.055)) (lit 1.055)) (lit 2.4).

(** Step 3: row [i] of the matrix times the linear triple. *)
Definition row_times (M : mat3 R) (i : nat) (v : vec3 num) : num :=
  add (add (mul (Num (ix M i 0)) (nth3 v 0)) (mul (Num (ix M i 1)) (nth3 v 1)))
    (mul (Num (ix M i 2)) (nth3 v 2)).

(** Step 4: the sRGB forward transfer function. *)
Definition forward_transfer (c : num) : num :=
  if (c <=? lit 0.0031308)%js
  then mul (lit 12.92) c
  else sub (mul (lit 1.055) (pow c (div (Num 1) (lit 2.4)))) (lit 0.055).

(** Steps 1 to 4 for output channel [i] of the pixel [(r, g, b)]. *)
Definition encoded_channel (M : mat3 R) (i : nat) (r g b : Z) : num :=
  forward_transfer
    (row_times M i
       (inverse_transfer (normalised r), inverse_transfer (normalised g),
        inverse_transfer (normalised b))).

(** Clamping to [0, 1]: the infinities are clamped as well. *)
Definition clamped (v : num) : num :=
  match v with
  | NaN => NaN
  | Inf neg => Num (if neg then 0 else 1)
  | Num x => Num (clamp_unit x)
  end.

(** Step 5: [v] clamped to [0, 1], scaled by 255 and rounded to a nearest
    integer gives the integer [n], returned as the number [q] and stored as
    the byte [n]; a channel that is NaN stays NaN and is stored as 0. *)
Definition quantized (v q : num) (n : Z) : Prop :=
  match clamped v with
  | Num c =>
      exists s, mul (Num c) (Num 255) = Num s /\ 0 <= s <= 255 /\
                nearest_integer s n /\ q = of_Z n
  | _ => q = NaN /\ n = 0%Z
  end.

End Arithmetic.

(** What the theorems ask of the rounding: it keeps the order of the reals
    and leaves the integers from 0 to 255 as they are. *)
Definition monotone (rnd : R -> num) : Prop :=
  forall x y, x <= y -> (rnd x <=? rnd y)%js = true.

Definition keeps_bytes (rnd : R -> num) : Prop :=
  forall n, byte n -> rnd (IZR n) = Num (IZR n).

(** The accuracy the error bounds ask for.  [a] is a real number within [d]
    of [x]. *)
Definition near (d : R) (a : num) (x : R) : Prop :=
  exists y, a = Num y /\ x - d <= y <= x + d.

Definition eps : R := 1e-12.

(** Up to 1024 in absolute value, rounding moves a real by at most [eps]
    (in binary64 by at most 2^-44) and does not overflow. *)
Definition accurate (rnd : R -> num) : Prop :=
  forall x, -1024 <= x <= 1024 -> near eps (rnd x) x.

(** At the two exponents of the program, as the machine has them,
    [Math.pow] is within [eps] of the real power, for bases up to 2 and up
    to 64. *)
Definition accurate_pow (rnd : R -> num) (pow : num -> num -> num) : Prop :=
  (forall x, 0 < x <= 2 ->
     near eps (pow (Num x) (lit rnd 2.4)) (Rpower x 2.4)) /\
  (forall x, 0 < x <= 64 ->
     near eps (pow (Num x) (div rnd (Num 1) (lit rnd 2.4)))
       (Rpower x (1 / 2.4))).

End Binary64.

(** ** Numbers: evaluation lemmas *)

Lemma lt_Num (x y : R) : (Num x <? Num y)%js = true <-> x < y.
Proof. unfold lt; destruct (Rlt_dec x y); split; intros; try easy; lra. Qed.

Lemma le_NaN_r (a : num) : (a <=? NaN)%js = false.
Proof. now destruct a as [| [] |]. Qed.

Lemma div_Num (x y : R) : y <> 0 -> (Num x / Num y)%js = Num (x / y).
Proof. intros H; unfold div; destruct (Req_dec_T y 0); [contradiction | reflexivity]. Qed.

Lemma Math_pow_pos (x y : R) :
  0 < x -> y <> 0 -> Math_pow (Num x) (Num y) = Num (Rpower x y).
Proof.
  intros Hx Hy; unfold Math_pow.
  destruct (Req_dec_T y 0); [contradiction |].
  destruct (Rlt_dec 0 x); [reflexivity | contradiction].
Qed.

Lemma Zfloor_half_nearest (x : R) : nearest_integer x (Zfloor (x + / 2)).
Proof.
  unfold nearest_integer.
  pose proof (Zfloor_bound (x + / 2)) as [H1 H2].
  apply Rabs_le; lra.
Qed.

Lemma Zfloor_half_range (x : R) (lo hi : Z) :
  IZR lo <= x <= IZR hi -> (lo <= Zfloor (x + / 2) <= hi)%Z.
Proof.
  intros [H1 H2]; split.
  - apply Zfloor_lub; lra.
  - pose proof (Zfloor_bound (x + / 2)) as [H3 _].
    assert (IZR (Zfloor (x + / 2)) < IZR (hi + 1)) by (rewrite plus_IZR; lra).
    apply lt_IZR in H; lia.
Qed.

Lemma Zfloor_IZR_half (n : Z) : Zfloor (IZR n + / 2) = n.
Proof. apply Zfloor_eq; lra. Qed.

Lemma ToUint8Clamp_byte (n : Z) : byte n -> ToUint8Clamp (Num (IZR n)) = n.
Proof.
  intros [H0 H255]; unfold ToUint8Clamp.
  destruct (Rle_dec (IZR n) 0) as [Hle | Hgt].
  - apply le_IZR in Hle; lia.
  - destruct (Rle_dec 255 (IZR n)) as [Hge | Hlt].
    + apply le_IZR in Hge; lia.
    + assert (Hf : Zfloor (IZR n) = n) by (apply Zfloor_eq; lra).
      rewrite Hf. destruct (Rlt_dec (IZR n - IZR n) (/ 2)); [reflexivity | lra].
Qed.

(** ** The colour transform on finite values *)

Lemma clamp_unit_range (x : R) : 0 <= clamp_unit x <= 1.
Proof.
  unfold clamp_unit, Rmax, Rmin.
  destruct (Rle_dec x 1); destruct (Rle_dec 0 _); lra.
Qed.

Lemma clamp01_real (x : R) : clamp01 (Num x) = Num (clamp_unit x).
Proof.
  unfold clamp01, gt, lt, clamp_unit, Rmax, Rmin.
  destruct (Rlt_dec x 0); destruct (Rle_dec x 1);
    try destruct (Rlt_dec 1 x); try destruct (Rle_dec 0 _);
    f_equal; lra.
Qed.

Lemma srgbToLinear_real (c : R) : srgbToLinear (Num c) = Num (srgb_inverse c).
Proof.
  unfold srgbToLinear, srgb_inverse, le.
  destruct (Rle_dec c 0.04045) as [Hle | Hgt].
  - apply div_Num; lra.
  - cbn [add]. rewrite div_Num by lra.
    apply Math_pow_pos; [| lra].
    apply Rdiv_lt_0_compat; lra.
Qed.

Lemma linearToSrgb_real (c : R) : linearToSrgb (Num c) = Num (srgb_forward c).
Proof.
  unfold linearToSrgb, srgb_forward, le.
  destruct (Rle_dec c 0.0031308) as [Hle | Hgt].
  - reflexivity.
  - rewrite div_Num by lra.
    rewrite Math_pow_pos by lra.
    cbn [sub mul]. do 4 f_equal. lra.
Qed.

(** The output channels of the transform, for a matrix of reals. *)
Lemma transform_real (M : mat3 R) (r g b : Z) :
  transformRgbWithMatrix_srgbLinear (of_Z r) (of_Z g) (of_Z b) (of_reals M)
  = (Num (IZR (Zfloor (scaled_channel M 0 r g b + / 2))),
     Num (IZR (Zfloor (scaled_channel M 1 r g b + / 2))),
     Num (IZR (Zfloor (scaled_channel M 2 r g b + / 2)))).
Proof.
  destruct M as [[[[a00 a01] a02] [[a10 a11] a12]] [[a20 a21] a22]].
  unfold transformRgbWithMatrix_srgbLinear, of_Z.
  rewrite !div_Num by lra.
  rewrite !srgbToLinear_real.
  cbn [of_reals map3 ix nth3 mul add].
  rewrite !linearToSrgb_real, !clamp01_real.
  reflexivity.
Qed.

Lemma scaled_channel_range (M : mat3 R) (i : nat) (r g b : Z) :
  IZR 0 <= scaled_channel M i r g b <= IZR 255.
Proof.
  unfold scaled_channel.
  pose proof (clamp_unit_range
    (srgb_forward (row_dot M i (linear_of r g b)))). lra.
Qed.

(** A linear value that has overflowed to an infinity is clamped as well. *)
Lemma channel_of_infinity (neg : bool) :
  Math_round (clamp01 (linearToSrgb (Inf neg)) * Num 255)%js
  = Num (if neg then 0 else 255).
Proof.
  destruct neg.
  - unfold linearToSrgb. cbn [le mul].
    destruct (Req_dec_T 12.92 0) as [H | _]; [lra |].
    unfold negative_real. destruct (Rlt_dec 12.92 0) as [H | _]; [lra |].
    cbn [xorb clamp01 lt mul Math_round].
    replace (Zfloor (0 * 255 + / 2)) with 0%Z; [reflexivity |].
    symmetry; apply Zfloor_eq; lra.
  - unfold linearToSrgb. cbn [le]. rewrite div_Num by lra.
    unfold Math_pow.
    destruct (Req_dec_T (1.0 / 2.4) 0) as [H | _]; [lra |].
    destruct (Rlt_dec 0 (1.0 / 2.4)) as [_ | H]; [| lra].
    cbn [mul]. destruct (Req_dec_T 1.055 0) as [H | _]; [lra |].
    unfold negative_real. destruct (Rlt_dec 1.055 0) as [H | _]; [lra |].
    cbn [xorb sub clamp01 lt gt mul Math_round].
    replace (Zfloor (1 * 255 + / 2)) with 255%Z; [reflexivity |].
    symmetry; apply Zfloor_eq; lra.
Qed.

(** Rounding tolerance: a value within 1 of an integer rounds to within 1
    of it, and a value within less than a half to the integer itself. *)
Lemma round_tolerance (x : R) (n : Z) :
  (Rabs (x - IZR n) <= 1 -> (Z.abs (Zfloor (x + / 2) - n) <= 1)%Z) /\
  (Rabs (x - IZR n) < / 2 -> Zfloor (x + / 2) = n).
Proof.
  split; intros H.
  - assert (Hx : -1 <= x - IZR n <= 1)
      by (unfold Rabs in H; destruct (Rcase_abs (x - IZR n)); lra).
    assert (H1 : (n - 1 <= Zfloor (x + / 2))%Z)
      by (apply Zfloor_lub; rewrite minus_IZR; lra).
    pose proof (Zfloor_bound (x + / 2)) as [H2 _].
    assert (H3 : IZR (Zfloor (x + / 2)) < IZR (n + 2))
      by (rewrite plus_IZR; lra).
    apply lt_IZR in H3. lia.
  - apply Rabs_def2 in H. apply Zfloor_eq; lra.
Qed.

(** *** The transfer functions are inverse on 8-bit values *)

Lemma Rpower_24_above (x : R) : 0.093 <= x -> 0.0031308 < Rpower x 2.4.
Proof.
  intros Hx.
  destruct (Rlt_le_dec 0.0031308 (Rpower x 2.4)) as [Hlt | Hle]; [exact Hlt |].
  exfalso.
  assert (Hpos : 0 < Rpower x 2.4) by (unfold Rpower; apply exp_pos).
  assert (H5 : Rpower (Rpower x 2.4) (INR 5) <= Rpower 0.0031308 (INR 5)).
  { apply Rle_Rpower_l; [apply pos_INR | lra]. }
  rewrite Rpower_mult in H5.
  replace (2.4 * INR 5) with (INR 12) in H5 by (simpl; lra).
  rewrite !Rpower_pow in H5 by lra.
  assert (H12 : 0.093 ^ 12 <= x ^ 12) by (apply pow_incr; lra).
  assert (Hnum : 0.0031308 ^ 5 < 0.093 ^ 12) by lra.
  lra.
Qed.

Lemma srgb_round_trip (n : Z) :
  byte n -> srgb_forward (srgb_inverse (IZR n / 255)) = IZR n / 255.
Proof.
  intros [H0 H255].
  apply IZR_le in H0, H255.
  unfold srgb_inverse.
  destruct (Rle_dec (IZR n / 255) 0.04045) as [Hlo | Hhi].
  - assert (Hn : IZR n < IZR 11) by lra.
    apply lt_IZR in Hn.
    assert (Hn' : IZR n <= IZR 10) by (apply IZR_le; lia).
    unfold srgb_forward.
    destruct (Rle_dec (IZR n / 255 / 12.92) 0.0031308); [lra | lra].
  - assert (Hn : IZR 10 < IZR n) by lra.
    apply lt_IZR in Hn.
    assert (Hn' : IZR 11 <= IZR n) by (apply IZR_le; lia).
    set (x := (IZR n / 255 + 0.055) / 1.055).
    assert (Hx : 0.093 <= x) by (unfold x; lra).
    pose proof (Rpower_24_above x Hx) as Hp.
    unfold srgb_forward.
    destruct (Rle_dec (Rpower x 2.4) 0.0031308); [lra |].
    rewrite Rpower_mult.
    replace (2.4 * (1 / 2.4)) with 1 by lra.
    rewrite Rpower_1 by lra.
    unfold x; lra.
Qed.

Lemma clamp_unit_id (x : R) : 0 <= x <= 1 -> clamp_unit x = x.
Proof.
  intros [H0 H1]; unfold clamp_unit, Rmax, Rmin.
  destruct (Rle_dec x 1); [| lra]. destruct (Rle_dec 0 x); lra.
Qed.

Lemma scaled_channel_identity (r g b : Z) :
  byte r -> byte g -> byte b ->
  scaled_channel identity 0 r g b = IZR r /\
  scaled_channel identity 1 r g b = IZR g /\
  scaled_channel identity 2 r g b = IZR b.
Proof.
  intros Hr Hg Hb.
  unfold scaled_channel, row_dot, linear_of, identity; cbn [ix nth3].
  repeat split.
  - replace (1 * _ + 0 * _ + 0 * _) with (srgb_inverse (IZR r / 255)) by ring.
    rewrite srgb_round_trip by assumption.
    destruct Hr as [H0 H255]; apply IZR_le in H0, H255.
    rewrite clamp_unit_id by lra. lra.
  - replace (0 * _ + 1 * _ + 0 * _) with (srgb_inverse (IZR g / 255)) by ring.
    rewrite srgb_round_trip by assumption.
    destruct Hg as [H0 H255]; apply IZR_le in H0, H255.
    rewrite clamp_unit_id by lra. lra.
  - replace (0 * _ + 0 * _ + 1 * _) with (srgb_inverse (IZR b / 255)) by ring.
    rewrite srgb_round_trip by assumption.
    destruct Hb as [H0 H255]; apply IZR_le in H0, H255.
    rewrite clamp_unit_id by lra. lra.
Qed.

(** One iteration of the pixel loop, for a matrix of reals. *)
Lemma pixel_loop_step (M : mat3 R) (r g b a : Z) (rest : list Z) :
  byte a ->
  pixel_loop (of_reals M) (r :: g :: b :: a :: rest)
  = Zfloor (scaled_channel M 0 r g b + / 2)
    :: Zfloor (scaled_channel M 1 r g b + / 2)
    :: Zfloor (scaled_channel M 2 r g b + / 2)
    :: a :: pixel_loop (of_reals M) rest.
Proof.
  intros Ha.
  cbn [pixel_loop]. rewrite transform_real.
  unfold of_Z at 1.
  rewrite !ToUint8Clamp_byte;
    try assumption; try reflexivity;
    unfold byte; apply Zfloor_half_range, scaled_channel_range.
Qed.

(** ** Interpolation of matrices of reals *)

Lemma lerpMatrix_real (M0 M1 : mat3 R) (t : R) :
  lerpMatrix (of_reals M0) (of_reals M1) (Num t)
  = of_reals (build3 (fun r => build3 (fun c =>
      ix M0 r c * (1 - t) + ix M1 r c * t))).
Proof.
  destruct M0 as [[[[a00 a01] a02] [[a10 a11] a12]] [[a20 a21] a22]].
  destruct M1 as [[[[b00 b01] b02] [[b10 b11] b12]] [[b20 b21] b22]].
  reflexivity.
Qed.

Lemma build3_interpolates (M0 M1 : mat3 R) (t : R) :
  interpolates
    (build3 (fun r => build3 (fun c => ix M0 r c * (1 - t) + ix M1 r c * t)))
    M0 M1 t.
Proof.
  intros r c Hr Hc.
  destruct r as [| [| [| r]]]; try lia;
    destruct c as [| [| [| c]]]; try lia; reflexivity.
Qed.

Lemma lerpMatrix_one (M0 M1 : mat3 R) :
  lerpMatrix (of_reals M0) (of_reals M1) (Num 1) = of_reals M1.
Proof.
  rewrite lerpMatrix_real.
  destruct M0 as [[[[a00 a01] a02] [[a10 a11] a12]] [[a20 a21] a22]].
  destruct M1 as [[[[b00 b01] b02] [[b10 b11] b12]] [[b20 b21] b22]].
  cbn [build3 ix nth3 of_reals map3].
  repeat (f_equal; try lra).
Qed.

Lemma mul_NaN_r (a : num) : (a * NaN)%js = NaN.
Proof. now destruct a. Qed.

Lemma add_NaN_r (a : num) : (a + NaN)%js = NaN.
Proof. now destruct a. Qed.

Lemma lerpMatrix_NaN (m0 m1 : matrix) : lerpMatrix m0 m1 NaN = nan_matrix.
Proof.
  unfold lerpMatrix, nan_matrix, build3.
  now rewrite !mul_NaN_r, !add_NaN_r.
Qed.

(** ** Objects and sample keys *)

Lemma get_In_keys {V : Type} (o : object V) (k : string) :
  In k (keys o) <-> exists v, get o k = Some v.
Proof.
  induction o as [| [k' v] o IH]; simpl.
  - split; [tauto | intros [v H]; discriminate].
  - destruct (String.eqb_spec k' k) as [-> | Hne].
    + split; [intros _; eauto | intros _; now left].
    + rewrite <- IH. split; [intros [H | H]; [contradiction | exact H] | tauto].
Qed.

Lemma filter_parse (ks : list string) :
  (forall key, In key ks -> forall s, parseFloat key <> Inf s) ->
  exists lr,
    filter (fun v => negb (isNaN v)) (map parseFloat ks) = map Num lr /\
    forall x, In x lr <-> exists key, In key ks /\ parseFloat key = Num x.
Proof.
  induction ks as [| k ks IH]; intros Hfin; simpl.
  - exists []. split; [reflexivity |].
    intros x; split; [contradiction | intros [key [[] _]]].
  - destruct IH as [lr [Heq Hin]]; [intros key Hk; apply Hfin; now right |].
    destruct (parseFloat k) as [| s | y] eqn:Hk; simpl.
    + exists lr. split; [exact Heq |].
      intros x; rewrite Hin. split.
      * intros [key [H1 H2]]. exists key; tauto.
      * intros [key [[-> | H1] H2]]; [congruence | eauto].
    + exfalso. exact (Hfin k (or_introl eq_refl) s Hk).
    + exists (y :: lr). split; [now rewrite Heq |].
      intros x; simpl; rewrite Hin. split.
      * intros [-> | [key [H1 H2]]]; [exists k; tauto | exists key; tauto].
      * intros [key [[-> | H1] H2]]; [left; congruence | right; eauto].
Qed.

Lemma insert_by_sub (x : R) (lr : list R) :
  StronglySorted Rle lr ->
  exists lr',
    insert_by (fun a b => (a - b)%js) (Num x) (map Num lr) = map Num lr' /\
    StronglySorted Rle lr' /\
    forall z, In z lr' <-> In z (x :: lr).
Proof.
  induction 1 as [| y lr Hs IH Hall]; simpl.
  - exists [x]. repeat split; auto using StronglySorted, Forall.
  - unfold gt, lt; destruct (Rlt_dec 0 (x - y)) as [Hgt | Hle].
    + destruct IH as [lr' [Heq [Hs' Hin]]].
      exists (y :: lr'). split; [simpl; now rewrite Heq |]. split.
      * constructor; [exact Hs' |].
        apply Forall_forall. intros z Hz. apply Hin in Hz as [<- | Hz]; [lra |].
        rewrite Forall_forall in Hall; auto.
      * intros z; simpl; rewrite Hin; simpl; tauto.
    + exists (x :: y :: lr). split; [reflexivity |]. split.
      * constructor; [constructor; assumption |].
        constructor; [lra |].
        rewrite Forall_forall in Hall |- *. intros z Hz.
        specialize (Hall z Hz); lra.
      * intros z; simpl; tauto.
Qed.

Lemma sort_by_sub (lr : list R) :
  exists lr',
    sort_by (fun a b => (a - b)%js) (map Num lr) = map Num lr' /\
    StronglySorted Rle lr' /\
    forall z, In z lr' <-> In z lr.
Proof.
  induction lr as [| x lr [lr1 [Heq [Hs Hin]]]]; simpl.
  - exists []. repeat split; auto using StronglySorted.
  - rewrite Heq.
    destruct (insert_by_sub x lr1 Hs) as [lr' [Heq' [Hs' Hin']]].
    exists lr'. split; [exact Heq' |]. split; [exact Hs' |].
    intros z; rewrite Hin'; simpl; rewrite Hin; tauto.
Qed.

Lemma well_formed_finite_keys (table : samples) :
  well_formed table -> finite_keys table.
Proof.
  intros Hwf key Hk s Hs.
  apply get_In_keys in Hk as [m Hm].
  destruct (Hwf key m Hm) as [_ H]. now rewrite Hs in H.
Qed.

Lemma no_samples_finite_keys (table : samples) :
  no_samples table -> finite_keys table.
Proof. intros Hno key Hk s Hs. rewrite (Hno key Hk) in Hs. discriminate. Qed.

(** The sample keys are the severities of the stored samples, in ascending
    order. *)
Lemma sampleKeys_spec (table : samples) :
  finite_keys table ->
  exists lr,
    sampleKeys_of table = map Num lr /\
    StronglySorted Rle lr /\
    forall x, In x lr <-> exists key m, sample table key x m.
Proof.
  intros Hfin. unfold sampleKeys_of.
  destruct (filter_parse (keys table) Hfin) as [lr0 [Heq0 Hin0]].
  rewrite Heq0.
  destruct (sort_by_sub lr0) as [lr [Heq [Hs Hin]]].
  exists lr. split; [exact Heq |]. split; [exact Hs |].
  intros x; rewrite Hin, Hin0. unfold sample. split.
  - intros [key [Hk Hp]]. apply get_In_keys in Hk as [m Hm]. eauto.
  - intros [key [m [Hm Hp]]]. exists key; split; [| exact Hp].
    apply get_In_keys; eauto.
Qed.

Lemma last_map_Num (lr : list R) (d : R) :
  last (map Num lr) (Num d) = Num (last lr d).
Proof.
  induction lr as [| x [| y lr] IH]; try reflexivity.
  exact IH.
Qed.

Lemma sorted_head_le (a : R) (l : list R) :
  StronglySorted Rle (a :: l) -> forall z, In z (a :: l) -> a <= z.
Proof.
  intros H z [-> | Hz]; [lra |].
  apply StronglySorted_inv in H as [_ Hall].
  rewrite Forall_forall in Hall; auto.
Qed.

Lemma sorted_le_last (l : list R) (d : R) :
  StronglySorted Rle l -> forall z, In z l -> z <= last l d.
Proof.
  induction 1 as [| a l Hs IH Hall]; [contradiction |].
  intros z Hz. destruct l as [| b l].
  - destruct Hz as [-> | []]. simpl; lra.
  - change (last (a :: b :: l) d) with (last (b :: l) d).
    destruct Hz as [-> | Hz]; [| auto].
    rewrite Forall_forall in Hall.
    apply Rle_trans with b; [apply Hall; now left | apply IH; now left].
Qed.

Lemma last_In (l : list R) (d : R) : l <> [] -> In (last l d) l.
Proof.
  induction l as [| a l IH]; intros Hne; [contradiction |].
  destruct l as [| b l]; [now left |].
  right. apply IH. discriminate.
Qed.

(** ** The interval search *)

Lemma find_interval_spec (l : list R) :
  forall (a x d : R) (cur : num * option num),
    StronglySorted Rle (a :: l) ->
    a < x -> x <= last (a :: l) d ->
    exists a' b',
      find_interval (Num x) (map Num (a :: l)) cur = (Num a', Some (Num b')) /\
      In a' (a :: l) /\ In b' (a :: l) /\ a' < x <= b' /\
      forall z, In z (a :: l) -> z <= a' \/ b' <= z.
Proof.
  induction l as [| b l IH]; intros a x d cur Hs Hax Hlast.
  - simpl in Hlast; lra.
  - change (last (a :: b :: l) d) with (last (b :: l) d) in Hlast.
    cbn [map find_interval].
    unfold ge, le at 1 2.
    destruct (Rle_dec a x) as [_ | Hn]; [| lra].
    destruct (Rle_dec x b) as [Hxb | Hbx]; cbn [andb].
    + exists a, b. split; [reflexivity |].
      split; [now left |]. split; [right; now left |]. split; [lra |].
      intros z [-> | Hz]; [left; lra |].
      right. apply StronglySorted_inv in Hs as [Hs _].
      exact (sorted_head_le b l Hs z Hz).
    + pose proof Hs as Hs0.
      apply StronglySorted_inv in Hs as [Hs Hall].
      destruct (IH b x d cur Hs ltac:(lra) Hlast)
        as [a' [b' [Heq [Ha' [Hb' [Hlt Hadj]]]]]].
      exists a', b'. split; [exact Heq |].
      split; [now right |]. split; [now right |]. split; [exact Hlt |].
      intros z [-> | Hz]; [| auto].
      left. rewrite Forall_forall in Hall. auto.
Qed.

(** ** Resolving a matrix at a non-NaN severity *)

Lemma well_formed_sample (table : samples) (key : string) (k : R) (m : matrix) :
  well_formed table -> sample table key k m ->
  finite_matrix m /\ 0 <= k <= 1 /\ toFixed1 (Num k) = key.
Proof.
  intros Hwf [Hget Hparse].
  destruct (Hwf key m Hget) as [Hfin H]. rewrite Hparse in H. tauto.
Qed.

Lemma lookup_sample (table : samples) (key : string) (k : R) (m : matrix) :
  well_formed table -> sample table key k m ->
  get table (keyFromNum (Num k)) = Some m.
Proof.
  intros Hwf Hs. destruct (well_formed_sample _ _ _ _ Hwf Hs) as [_ [_ Hkey]].
  unfold keyFromNum; rewrite Hkey. exact (proj1 Hs).
Qed.

Lemma sample_unique (table : samples) (key key' : string) (k : R) (m m' : matrix) :
  well_formed table -> sample table key k m -> sample table key' k m' -> m = m'.
Proof.
  intros Hwf H1 H2.
  pose proof (lookup_sample _ _ _ _ Hwf H1) as E1.
  pose proof (lookup_sample _ _ _ _ Hwf H2) as E2.
  congruence.
Qed.

Lemma resolve_unfold (st : state) (T : tables) (mode : string)
    (table : samples) (y : R) (lr : list R) :
  MACHADO_TABLE st = Some T -> get T mode = Some table ->
  sampleKeys_of table = map Num lr ->
  getMachadoMatrixSync st mode (Num y) =
  match lr with
  | [] => Return None
  | first :: _ =>
      let s := clamp_unit y in
      let final := last lr first in
      if Rle_dec s first then Return (get table (keyFromNum (Num first)))
      else if Rle_dec final s then Return (get table (keyFromNum (Num final)))
      else
        let '(k0, k1) :=
          find_interval (Num s) (map Num lr)
            (Num first, nth_error (map Num lr) 1) in
        match k1 with
        | None => Throw TypeError
        | Some k1 =>
            match get table (keyFromNum k0), get table (keyFromNum k1) with
            | Some m0, Some m1 =>
                Return (Some (lerpMatrix m0 m1 ((Num s - k0) / (k1 - k0))%js))
            | _, _ => Return None
            end
        end
  end.
Proof.
  intros HT Hmode Hkeys.
  unfold getMachadoMatrixSync. rewrite HT, Hmode, Hkeys, clamp01_real.
  destruct lr as [| first lr']; [reflexivity |].
  cbn [map]. change (Num first :: map Num lr') with (map Num (first :: lr')).
  rewrite last_map_Num. unfold ge, le.
  destruct (Rle_dec (clamp_unit y) first); [reflexivity |].
  destruct (Rle_dec (last (first :: lr') first) (clamp_unit y)); reflexivity.
Qed.

(** At or below the smallest sample: that sample's matrix. *)
Lemma resolve_low (st : state) (T : tables) (mode : string) (table : samples)
    (y : R) (key : string) (k : R) (m : matrix) :
  MACHADO_TABLE st = Some T -> get T mode = Some table ->
  well_formed table ->
  sample table key k m -> smallest table k -> clamp_unit y <= k ->
  getMachadoMatrixSync st mode (Num y) = Return (Some m).
Proof.
  intros HT Hmode Hwf Hs Hmin Hle.
  pose proof (well_formed_finite_keys table Hwf) as Hfk.
  destruct (sampleKeys_spec table Hfk) as [lr [Hkeys [Hsorted Hin]]].
  rewrite (resolve_unfold st T mode table y lr HT Hmode Hkeys).
  assert (Hk : In k lr) by (apply Hin; eauto).
  destruct lr as [| first lr']; [contradiction |].
  assert (Hfirst : first = k).
  { apply Rle_antisym; [exact (sorted_head_le _ _ Hsorted k Hk) |].
    destruct (proj1 (Hin first) (or_introl eq_refl)) as [key' [m' Hs']].
    exact (Hmin _ _ _ Hs'). }
  subst first. cbv zeta.
  destruct (Rle_dec (clamp_unit y) k); [| contradiction].
  now rewrite (lookup_sample _ _ _ _ Hwf Hs).
Qed.

(** At or above the largest sample: that sample's matrix. *)
Lemma resolve_high (st : state) (T : tables) (mode : string) (table : samples)
    (y : R) (key : string) (k : R) (m : matrix) :
  MACHADO_TABLE st = Some T -> get T mode = Some table ->
  well_formed table ->
  sample table key k m -> largest table k -> k <= clamp_unit y ->
  getMachadoMatrixSync st mode (Num y) = Return (Some m).
Proof.
  intros HT Hmode Hwf Hs Hmax Hle.
  pose proof (well_formed_finite_keys table Hwf) as Hfk.
  destruct (sampleKeys_spec table Hfk) as [lr [Hkeys [Hsorted Hin]]].
  rewrite (resolve_unfold st T mode table y lr HT Hmode Hkeys).
  assert (Hk : In k lr) by (apply Hin; eauto).
  destruct lr as [| first lr']; [contradiction |].
  assert (Hlast : last (first :: lr') first = k).
  { apply Rle_antisym; [| exact (sorted_le_last _ first Hsorted k Hk)].
    assert (Hl : In (last (first :: lr') first) (first :: lr'))
      by (apply last_In; discriminate).
    destruct (proj1 (Hin _) Hl) as [key' [m' Hs']].
    exact (Hmax _ _ _ Hs'). }
  cbv zeta. rewrite Hlast.
  destruct (Rle_dec (clamp_unit y) first) as [Hlow | Hnlow].
  - assert (Hle' : first <= k)
      by exact (sorted_head_le _ _ Hsorted k Hk).
    assert (first = k) by lra. subst first.
    now rewrite (lookup_sample _ _ _ _ Hwf Hs).
  - destruct (Rle_dec k (clamp_unit y)); [| contradiction].
    now rewrite (lookup_sample _ _ _ _ Hwf Hs).
Qed.

(** Strictly between two samples: the interpolation of the first adjacent
    pair of samples that encloses the severity. *)
Lemma resolve_between (st : state) (T : tables) (mode : string)
    (table : samples) (y : R) :
  MACHADO_TABLE st = Some T -> get T mode = Some table ->
  well_formed table ->
  (exists key k m, sample table key k m /\ k < clamp_unit y) ->
  (exists key k m, sample table key k m /\ clamp_unit y < k) ->
  exists keya a ma keyb b mb,
    sample table keya a ma /\ sample table keyb b mb /\
    a < clamp_unit y <= b /\
    (forall key k m, sample table key k m -> k <= a \/ b <= k) /\
    getMachadoMatrixSync st mode (Num y)
    = Return (Some (lerpMatrix ma mb (Num ((clamp_unit y - a) / (b - a))))).
Proof.
  intros HT Hmode Hwf [keylo [klo [mlo [Hslo Hlo]]]] [keyhi [khi [mhi [Hshi Hhi]]]].
  pose proof (well_formed_finite_keys table Hwf) as Hfk.
  destruct (sampleKeys_spec table Hfk) as [lr [Hkeys [Hsorted Hin]]].
  rewrite (resolve_unfold st T mode table y lr HT Hmode Hkeys).
  assert (Hklo : In klo lr) by (apply Hin; eauto).
  assert (Hkhi : In khi lr) by (apply Hin; eauto).
  destruct lr as [| first lr']; [contradiction |].
  assert (Hfirst : first <= klo)
    by exact (sorted_head_le _ _ Hsorted klo Hklo).
  assert (Hlast : khi <= last (first :: lr') first)
    by exact (sorted_le_last _ first Hsorted khi Hkhi).
  cbv zeta.
  destruct (Rle_dec (clamp_unit y) first); [lra |].
  destruct (Rle_dec (last (first :: lr') first) (clamp_unit y)); [lra |].
  destruct (find_interval_spec lr' first (clamp_unit y) first
              (Num first, nth_error (map Num (first :: lr')) 1)
              Hsorted ltac:(lra) ltac:(lra))
    as [a [b [Heq [Ha [Hb [Hab Hadj]]]]]].
  rewrite Heq.
  destruct (proj1 (Hin a) Ha) as [keya [ma Hsa]].
  destruct (proj1 (Hin b) Hb) as [keyb [mb Hsb]].
  rewrite (lookup_sample _ _ _ _ Hwf Hsa), (lookup_sample _ _ _ _ Hwf Hsb).
  exists keya, a, ma, keyb, b, mb.
  split; [exact Hsa |]. split; [exact Hsb |]. split; [exact Hab |]. split.
  - intros key k m Hs. apply Hadj, Hin; eauto.
  - cbn [sub]. rewrite div_Num by lra. reflexivity.
Qed.

(** The lookup depends on the severity through its clamped value only. *)
Lemma resolve_same_clamp (st : state) (mode : string) (v w : num) :
  clamp01 v = clamp01 w ->
  getMachadoMatrixSync st mode v = getMachadoMatrixSync st mode w.
Proof. intros H. unfold getMachadoMatrixSync. now rewrite H. Qed.

(** Every severity but NaN is clamped to a real of [0, 1], which clamping
    leaves as it is. *)
Lemma clamp01_not_NaN (v : num) :
  isNaN v = false ->
  exists s, clamp01 v = Num s /\ 0 <= s <= 1 /\ clamp_unit s = s.
Proof.
  destruct v as [| [] | y]; [discriminate | | |]; intros _.
  - exists 0. split; [reflexivity |]. split; [lra | apply clamp_unit_id; lra].
  - exists 1. split; [| split; [lra | apply clamp_unit_id; lra]].
    unfold clamp01, gt, lt. destruct (Rlt_dec 1 0); [lra | reflexivity].
  - exists (clamp_unit y). split; [apply clamp01_real |].
    split; [apply clamp_unit_range | apply clamp_unit_id, clamp_unit_range].
Qed.

Lemma clamp01_Num_inv (v : num) (s : R) :
  clamp01 v = Num s -> 0 <= s <= 1 /\ clamp_unit s = s.
Proof.
  intros H. destruct v as [| neg | y]; [discriminate | |].
  - destruct (clamp01_not_NaN (Inf neg) eq_refl) as [s' [Hs' Hr]].
    rewrite Hs' in H. injection H as <-. exact Hr.
  - destruct (clamp01_not_NaN (Num y) eq_refl) as [s' [Hs' Hr]].
    rewrite Hs' in H. injection H as <-. exact Hr.
Qed.

Lemma resolve_clamped (st : state) (mode : string) (v : num) (s : R) :
  clamp01 v = Num s ->
  getMachadoMatrixSync st mode v = getMachadoMatrixSync st mode (Num s).
Proof.
  intros H. apply resolve_same_clamp. rewrite H, clamp01_real.
  now rewrite (proj2 (clamp01_Num_inv v s H)).
Qed.

(** ** Resolving a matrix at NaN *)

Lemma find_interval_NaN (l : list num) (cur : num * option num) :
  find_interval NaN l cur = cur.
Proof.
  induction l as [| a l IH]; [reflexivity |].
  destruct l as [| b l]; [reflexivity |].
  cbn [find_interval]. unfold ge. rewrite le_NaN_r. exact IH.
Qed.

Lemma resolve_NaN (st : state) (T : tables) (mode : string) (table : samples)
    (key key' : string) (k k' : R) (m m' : matrix) :
  MACHADO_TABLE st = Some T -> get T mode = Some table ->
  well_formed table ->
  sample table key k m -> sample table key' k' m' -> k <> k' ->
  getMachadoMatrixSync st mode NaN = Return (Some nan_matrix).
Proof.
  intros HT Hmode Hwf Hs Hs' Hne.
  pose proof (well_formed_finite_keys table Hwf) as Hfk.
  destruct (sampleKeys_spec table Hfk) as [lr [Hkeys [Hsorted Hin]]].
  assert (Hk : In k lr) by (apply Hin; eauto).
  assert (Hk' : In k' lr) by (apply Hin; eauto).
  unfold getMachadoMatrixSync. rewrite HT, Hmode, Hkeys.
  destruct lr as [| a [| b lr']].
  - contradiction.
  - destruct Hk as [<- | []]. destruct Hk' as [<- | []]. contradiction.
  - cbn [map clamp01 lt gt]. cbn [le ge].
    rewrite find_interval_NaN. cbn [nth_error].
    destruct (proj1 (Hin a) (or_introl eq_refl)) as [keya [ma Hsa]].
    destruct (proj1 (Hin b) (or_intror (or_introl eq_refl))) as [keyb [mb Hsb]].
    rewrite (lookup_sample _ _ _ _ Hwf Hsa), (lookup_sample _ _ _ _ Hwf Hsb).
    unfold ge. rewrite le_NaN_r. cbn [sub div]. now rewrite lerpMatrix_NaN.
Qed.

(** ** An empty sample set *)

Lemma no_samples_keys (table : samples) :
  no_samples table -> sampleKeys_of table = [].
Proof.
  intros Hno.
  pose proof (no_samples_finite_keys table Hno) as Hfk.
  destruct (sampleKeys_spec table Hfk) as [lr [Hkeys [_ Hin]]].
  rewrite Hkeys. destruct lr as [| x lr]; [reflexivity |].
  destruct (proj1 (Hin x) (or_introl eq_refl)) as [key [m [Hget Hp]]].
  assert (Hk : In key (keys table)) by (apply get_In_keys; eauto).
  rewrite (Hno key Hk) in Hp. discriminate.
Qed.

(** ** The smallest and the largest sample *)

Lemma extremes (table : samples) (key : string) (k : R) (m : matrix) :
  well_formed table ->
  sample table key k m ->
  (exists keylo klo mlo, sample table keylo klo mlo /\ smallest table klo) /\
  (exists keyhi khi mhi, sample table keyhi khi mhi /\ largest table khi).
Proof.
  intros Hwf Hs.
  pose proof (well_formed_finite_keys table Hwf) as Hfk.
  destruct (sampleKeys_spec table Hfk) as [lr [_ [Hsorted Hin]]].
  assert (Hk : In k lr) by (apply Hin; eauto).
  destruct lr as [| first lr']; [contradiction |].
  split.
  - destruct (proj1 (Hin first) (or_introl eq_refl)) as [key0 [m0 Hs0]].
    exists key0, first, m0. split; [exact Hs0 |].
    intros key' k' m' Hs'. apply (sorted_head_le _ _ Hsorted), Hin; eauto.
  - assert (Hl : In (last (first :: lr') first) (first :: lr'))
      by (apply last_In; discriminate).
    destruct (proj1 (Hin _) Hl) as [key1 [m1 Hs1]].
    exists key1, (last (first :: lr') first), m1. split; [exact Hs1 |].
    intros key' k' m' Hs'. apply (sorted_le_last _ first Hsorted), Hin; eauto.
Qed.

(** ** Keys with one fractional digit *)

Lemma toFixed1_tenths (n : Z) :
  (0 <= n)%Z ->
  toFixed1 (Num (IZR n / 10))
  = (string_of_Z (n / 10) ++ "." ++ string_of_Z (n mod 10))%string.
Proof.
  intros Hn. apply IZR_le in Hn. unfold toFixed1, negative_real.
  destruct (Rlt_dec (IZR n / 10) 0) as [Hneg | _]; [lra |].
  replace (Zfloor (IZR n / 10 * 10 + / 2)) with n; [reflexivity |].
  symmetry; apply Zfloor_eq; lra.
Qed.

Lemma parseFloat_tenths (s : string) (n : Z) :
  (let (_, s0) := read_sign (skip_space s) in String.prefix "Infinity" s0)
  = false ->
  parse_decimal s = Some (Decimal false n (-1)) ->
  parseFloat s = Num (IZR n / 10).
Proof.
  unfold parseFloat. destruct (read_sign (skip_space s)) as [neg s0].
  now intros -> ->.
Qed.

Lemma parseFloat_0_0 : parseFloat "0.0" = Num 0.
Proof. rewrite (parseFloat_tenths "0.0" 0) by reflexivity. f_equal; lra. Qed.

Lemma parseFloat_0_5 : parseFloat "0.5" = Num 0.5.
Proof. rewrite (parseFloat_tenths "0.5" 5) by reflexivity. f_equal; lra. Qed.

Lemma parseFloat_1_0 : parseFloat "1.0" = Num 1.
Proof. rewrite (parseFloat_tenths "1.0" 10) by reflexivity. f_equal; lra. Qed.

Lemma toFixed1_0 : toFixed1 (Num 0) = "0.0"%string.
Proof. replace 0 with (IZR 0 / 10) by lra. now rewrite toFixed1_tenths. Qed.

Lemma toFixed1_half : toFixed1 (Num 0.5) = "0.5"%string.
Proof. replace 0.5 with (IZR 5 / 10) by lra. now rewrite toFixed1_tenths. Qed.

Lemma toFixed1_1 : toFixed1 (Num 1) = "1.0"%string.
Proof. replace 1 with (IZR 10 / 10) by lra. now rewrite toFixed1_tenths. Qed.

(** ** The sample data *)

Lemma sample_0_0 :
  sample Example.protan_samples "0.0" 0 (of_reals identity).
Proof. split; [reflexivity | exact parseFloat_0_0]. Qed.

Lemma sample_0_5 :
  sample Example.protan_samples "0.5" 0.5 (of_reals Example.protan_half).
Proof. split; [reflexivity | exact parseFloat_0_5]. Qed.

Lemma sample_1_0 :
  sample Example.protan_samples "1.0" 1 (of_reals Example.protan_full).
Proof. split; [reflexivity | exact parseFloat_1_0]. Qed.

Lemma protan_get_cases (key : string) (m : matrix) :
  get Example.protan_samples key = Some m ->
  (key = "0.0"%string /\ m = of_reals identity) \/
  (key = "0.5"%string /\ m = of_reals Example.protan_half) \/
  (key = "1.0"%string /\ m = of_reals Example.protan_full).
Proof.
  unfold Example.protan_samples. cbn [get].
  destruct (String.eqb_spec "0.0" key) as [<- | _]; [intros [= <-]; tauto |].
  destruct (String.eqb_spec "0.5" key) as [<- | _]; [intros [= <-]; tauto |].
  destruct (String.eqb_spec "1.0" key) as [<- | _]; [intros [= <-]; tauto |].
  discriminate.
Qed.

Lemma protan_samples_cases (key : string) (k : R) (m : matrix) :
  sample Example.protan_samples key k m ->
  (key = "0.0"%string /\ k = 0 /\ m = of_reals identity) \/
  (key = "0.5"%string /\ k = 0.5 /\ m = of_reals Example.protan_half) \/
  (key = "1.0"%string /\ k = 1 /\ m = of_reals Example.protan_full).
Proof.
  intros [Hget Hparse].
  destruct (protan_get_cases key m Hget) as [[-> ->] | [[-> ->] | [-> ->]]].
  - rewrite parseFloat_0_0 in Hparse. left. repeat split; congruence.
  - rewrite parseFloat_0_5 in Hparse. right; left. repeat split; congruence.
  - rewrite parseFloat_1_0 in Hparse. right; right. repeat split; congruence.
Qed.

Lemma protan_samples_well_formed : well_formed Example.protan_samples.
Proof.
  intros key m Hget.
  destruct (protan_get_cases key m Hget) as [[-> ->] | [[-> ->] | [-> ->]]].
  - split; [now exists identity |].
    rewrite parseFloat_0_0. split; [lra | exact toFixed1_0].
  - split; [now exists Example.protan_half |].
    rewrite parseFloat_0_5. split; [lra | exact toFixed1_half].
  - split; [now exists Example.protan_full |].
    rewrite parseFloat_1_0. split; [lra | exact toFixed1_1].
Qed.

Lemma protan_smallest : smallest Example.protan_samples 0.
Proof.
  intros key k m Hs.
  destruct (protan_samples_cases key k m Hs)
    as [[_ [-> _]] | [[_ [-> _]] | [_ [-> _]]]]; lra.
Qed.

Lemma protan_largest : largest Example.protan_samples 1.
Proof.
  intros key k m Hs.
  destruct (protan_samples_cases key k m Hs)
    as [[_ [-> _]] | [[_ [-> _]] | [_ [-> _]]]]; lra.
Qed.

Lemma protan_adjacent_low : adjacent Example.protan_samples 0 0.5.
Proof.
  split; [lra |]. intros key k m Hs.
  destruct (protan_samples_cases key k m Hs)
    as [[_ [-> _]] | [[_ [-> _]] | [_ [-> _]]]]; lra.
Qed.

(** ** The per-pixel transform *)

Lemma list_ind4 {A : Type} (P : list A -> Prop) :
  P [] -> (forall a, P [a]) -> (forall a b, P [a; b]) ->
  (forall a b c, P [a; b; c]) ->
  (forall r g b a rest, P rest -> P (r :: g :: b :: a :: rest)) ->
  forall l, P l.
Proof.
  intros H0 H1 H2 H3 H4.
  fix IH 1. intros [| r [| g [| b [| a rest]]]];
    [exact H0 | apply H1 | apply H2 | apply H3 | apply H4; apply IH].
Qed.

Lemma fl_exact (a : num) : Binary64.fl Num a = a.
Proof. now destruct a. Qed.

(** With exact arithmetic the binary64 definitions are those of [ColorSim]. *)
Lemma exact_srgbToLinear (c : num) :
  Binary64.srgbToLinear Num Math_pow c = srgbToLinear c.
Proof.
  unfold Binary64.srgbToLinear, srgbToLinear, Binary64.div, Binary64.add,
    Binary64.lit.
  now rewrite !fl_exact.
Qed.

Lemma exact_linearToSrgb (c : num) :
  Binary64.linearToSrgb Num Math_pow c = linearToSrgb c.
Proof.
  unfold Binary64.linearToSrgb, linearToSrgb, Binary64.div, Binary64.sub,
    Binary64.mul, Binary64.lit.
  now rewrite !fl_exact.
Qed.

Lemma exact_transform (r g b : num) (mat : matrix) :
  Binary64.transformRgbWithMatrix_srgbLinear Num Math_pow r g b mat
  = transformRgbWithMatrix_srgbLinear r g b mat.
Proof.
  unfold Binary64.transformRgbWithMatrix_srgbLinear,
    transformRgbWithMatrix_srgbLinear, Binary64.div, Binary64.add,
    Binary64.mul.
  now rewrite !fl_exact, !exact_srgbToLinear, !exact_linearToSrgb.
Qed.

Lemma exact_pixel_loop (mat : matrix) (srcData : list Z) :
  Binary64.pixel_loop Num Math_pow mat srcData = pixel_loop mat srcData.
Proof.
  induction srcData as [| | | | r g b a rest IH] using list_ind4;
    try reflexivity.
  cbn [Binary64.pixel_loop pixel_loop]. now rewrite exact_transform, IH.
Qed.

Lemma exact_monotone : Binary64.monotone Num.
Proof.
  intros x y Hxy. unfold le. now destruct (Rle_dec x y).
Qed.

Lemma exact_keeps_bytes : Binary64.keeps_bytes Num.
Proof. now intros n _. Qed.

(** A value of [0, 1] scaled by 255 stays in [0, 255] when it is rounded. *)
Lemma scaled_in_range (rnd : R -> num) (c : R) :
  Binary64.monotone rnd -> Binary64.keeps_bytes rnd ->
  0 <= c <= 1 ->
  exists s, Binary64.mul rnd (Num c) (Num 255) = Num s /\ 0 <= s <= 255.
Proof.
  intros Hmono Hbytes Hc.
  unfold Binary64.mul. cbn [mul Binary64.fl].
  assert (H0 : le (rnd 0) (rnd (c * 255)) = true) by (apply Hmono; lra).
  assert (H255 : le (rnd (c * 255)) (rnd 255) = true) by (apply Hmono; lra).
  rewrite (Hbytes 0%Z) in H0 by (unfold byte; lia).
  rewrite (Hbytes 255%Z) in H255 by (unfold byte; lia).
  destruct (rnd (c * 255)) as [| [] | s]; try discriminate.
  exists s. split; [reflexivity |].
  unfold le in H0, H255.
  destruct (Rle_dec 0 s); [| discriminate].
  destruct (Rle_dec s 255); [| discriminate].
  lra.
Qed.

(** Step 5 as the code does it: [Math.round], then the store into the
    [Uint8ClampedArray]. *)
Lemma quantized_store (rnd : R -> num) (v : num) :
  Binary64.monotone rnd -> Binary64.keeps_bytes rnd ->
  Binary64.quantized rnd v
    (Math_round (Binary64.mul rnd (clamp01 v) (Num 255)))
    (ToUint8Clamp (Math_round (Binary64.mul rnd (clamp01 v) (Num 255)))).
Proof.
  intros Hmono Hbytes. unfold Binary64.quantized.
  assert (Hnum : forall c, 0 <= c <= 1 ->
            exists s,
              Binary64.mul rnd (Num c) (Num 255) = Num s /\ 0 <= s <= 255 /\
              nearest_integer s
                (ToUint8Clamp
                   (Math_round (Binary64.mul rnd (Num c) (Num 255)))) /\
              Math_round (Binary64.mul rnd (Num c) (Num 255))
              = of_Z (ToUint8Clamp
                        (Math_round (Binary64.mul rnd (Num c) (Num 255))))).
  { intros c Hc.
    destruct (scaled_in_range rnd c Hmono Hbytes Hc) as [s [Hs Hrange]].
    exists s. split; [exact Hs |]. split; [exact Hrange |].
    rewrite Hs. cbn [Math_round].
    rewrite ToUint8Clamp_byte
      by (unfold byte; apply Zfloor_half_range; cbn [IZR]; lra).
    split; [apply Zfloor_half_nearest | reflexivity]. }
  destruct v as [| neg | x]; cbn [Binary64.clamped].
  - split; reflexivity.
  - destruct neg.
    + change (clamp01 (Inf true)) with (Num 0). apply Hnum. lra.
    + assert (H1 : clamp01 (Inf false) = Num 1).
      { unfold clamp01, gt, lt. destruct (Rlt_dec 1 0); [lra | reflexivity]. }
      rewrite H1. apply Hnum. lra.
  - rewrite clamp01_real. apply Hnum. apply clamp_unit_range.
Qed.

(** The transform's results are the encoded channels, clamped, scaled and
    rounded. *)
Lemma transform_channels (rnd : R -> num) (pow : num -> num -> num)
    (M : mat3 R) (r g b : Z) :
  Binary64.transformRgbWithMatrix_srgbLinear rnd pow (of_Z r) (of_Z g)
    (of_Z b) (of_reals M)
  = (Math_round
       (Binary64.mul rnd
          (clamp01 (Binary64.encoded_channel rnd pow M 0 r g b)) (Num 255)),
     Math_round
       (Binary64.mul rnd
          (clamp01 (Binary64.encoded_channel rnd pow M 1 r g b)) (Num 255)),
     Math_round
       (Binary64.mul rnd
          (clamp01 (Binary64.encoded_channel rnd pow M 2 r g b)) (Num 255))).
Proof.
  destruct M as [[[[a00 a01] a02] [[a10 a11] a12]] [[a20 a21] a22]].
  assert (H1 : Num 1.0 = Num 1) by (f_equal; lra).
  unfold Binary64.transformRgbWithMatrix_srgbLinear,
    Binary64.encoded_channel, Binary64.row_times, Binary64.forward_transfer,
    Binary64.linearToSrgb, Binary64.inverse_transfer, Binary64.srgbToLinear,
    Binary64.normalised.
  cbn [of_reals map3 ix nth3]. rewrite H1. reflexivity.
Qed.

(** Computed exactly, the steps are the real functions of the
    specification. *)
Lemma exact_encoded_channel (M : mat3 R) (i : nat) (r g b : Z) :
  Binary64.encoded_channel Num Math_pow M i r g b
  = Num (srgb_forward (row_dot M i (linear_of r g b))).
Proof.
  assert (Hinv : forall c,
            Binary64.inverse_transfer Num Math_pow
              (Binary64.normalised Num c)
            = Num (srgb_inverse (IZR c / 255))).
  { intros c.
    change (Binary64.inverse_transfer Num Math_pow)
      with (Binary64.srgbToLinear Num Math_pow).
    rewrite exact_srgbToLinear.
    unfold Binary64.normalised, Binary64.div, of_Z.
    rewrite fl_exact, div_Num by lra. apply srgbToLinear_real. }
  unfold Binary64.encoded_channel. rewrite !Hinv.
  unfold Binary64.row_times, Binary64.add, Binary64.mul.
  cbn [nth3]. rewrite !fl_exact. cbn [mul add].
  assert (Hfwd : forall c,
            Binary64.forward_transfer Num Math_pow c = linearToSrgb c).
  { intros c. rewrite <- exact_linearToSrgb.
    unfold Binary64.forward_transfer, Binary64.linearToSrgb.
    replace (Num 1.0) with (Num 1) by (f_equal; lra). reflexivity. }
  rewrite Hfwd. apply linearToSrgb_real.
Qed.

(** C1.  In binary64 arithmetic, whatever the rounding [rnd] (monotone, and
    leaving the integers 0 to 255 alone) and whatever [Math.pow] computes:
    for every 8-bit RGBA pixel and every 3x3 matrix of reals, each colour
    channel is computed by these steps in this order, each with the
    machine's operations: the channels divided by 255; the sRGB inverse
    transfer function; the product with the matrix row; the sRGB forward
    transfer function; then the clamp to [0, 1], the scaling by 255 and the
    rounding to a nearest integer.  That integer is what
    [transformRgbWithMatrix_srgbLinear] returns and what one iteration of
    the pixel loop writes; the alpha byte is copied unchanged. *)
Theorem pixel_transform_steps (rnd : R -> num) (pow : num -> num -> num)
    (M : mat3 R) (r g b a : Z) (rest : list Z) :
  Binary64.monotone rnd -> Binary64.keeps_bytes rnd ->
  byte r -> byte g -> byte b -> byte a ->
  exists (qr qg qb : num) (nr ng nb : Z),
    Binary64.transformRgbWithMatrix_srgbLinear rnd pow (of_Z r) (of_Z g)
      (of_Z b) (of_reals M)
    = (qr, qg, qb) /\
    Binary64.pixel_loop rnd pow (of_reals M) (r :: g :: b :: a :: rest)
    = nr :: ng :: nb :: a :: Binary64.pixel_loop rnd pow (of_reals M) rest /\
    Binary64.quantized rnd (Binary64.encoded_channel rnd pow M 0 r g b) qr nr /\
    Binary64.quantized rnd (Binary64.encoded_channel rnd pow M 1 r g b) qg ng /\
    Binary64.quantized rnd (Binary64.encoded_channel rnd pow M 2 r g b) qb nb.
Proof.
  intros Hmono Hbytes _ _ _ Ha.
  cbn [Binary64.pixel_loop]. rewrite transform_channels.
  change (ToUint8Clamp (of_Z a)) with (ToUint8Clamp (Num (IZR a))).
  rewrite (ToUint8Clamp_byte a Ha).
  eexists _, _, _, _, _, _. split; [reflexivity |].
  split; [reflexivity |].
  repeat split; apply quantized_store; assumption.
Qed.

Lemma pixel_transform_steps_witness :
  exists (qr qg qb : num) (nr ng nb : Z),
    Binary64.transformRgbWithMatrix_srgbLinear Num Math_pow (of_Z 255)
      (of_Z 128) (of_Z 0) (of_reals Example.protan_full)
    = (qr, qg, qb) /\
    Binary64.pixel_loop Num Math_pow (of_reals Example.protan_full)
      [255; 128; 0; 255]%Z
    = nr :: ng :: nb :: 255%Z
      :: Binary64.pixel_loop Num Math_pow (of_reals Example.protan_full) [] /\
    Binary64.quantized Num
      (Binary64.encoded_channel Num Math_pow Example.protan_full 0 255 128 0)
      qr nr /\
    Binary64.quantized Num
      (Binary64.encoded_channel Num Math_pow Example.protan_full 1 255 128 0)
      qg ng /\
    Binary64.quantized Num
      (Binary64.encoded_channel Num Math_pow Example.protan_full 2 255 128 0)
      qb nb.
Proof.
  apply (pixel_transform_steps Num Math_pow Example.protan_full
           255 128 0 255 []);
    [exact exact_monotone | exact exact_keeps_bytes | ..];
    unfold byte; lia.
Defined.

(** C10.  For every 3x3 matrix of reals and every RGB input (8-bit or not),
    each channel returned by the per-pixel transform is an integer between 0
    and 255. *)
Theorem transform_output_in_byte_range (M : mat3 R) (r g b : Z) :
  exists nr ng nb : Z,
    transformRgbWithMatrix_srgbLinear (of_Z r) (of_Z g) (of_Z b) (of_reals M)
    = (of_Z nr, of_Z ng, of_Z nb) /\
    byte nr /\ byte ng /\ byte nb.
Proof.
  exists (Zfloor (scaled_channel M 0 r g b + / 2)),
         (Zfloor (scaled_channel M 1 r g b + / 2)),
         (Zfloor (scaled_channel M 2 r g b + / 2)).
  split; [apply transform_real |].
  split; [| split]; apply Zfloor_half_range, scaled_channel_range.
Qed.

Lemma identity_exact (r g b a : Z) :
  byte r -> byte g -> byte b -> byte a ->
  pixel_loop (of_reals identity) [r; g; b; a] = [r; g; b; a].
Proof.
  intros Hr Hg Hb Ha.
  rewrite pixel_loop_step by exact Ha.
  destruct (scaled_channel_identity r g b Hr Hg Hb) as [-> [-> ->]].
  now rewrite !Zfloor_IZR_half.
Qed.

(** C5.  Transforming an 8-bit RGBA pixel with the identity matrix gives
    back its RGB channels within 1 of the original and its alpha exactly. *)
Theorem identity_round_trip (r g b a : Z) :
  byte r -> byte g -> byte b -> byte a ->
  exists r' g' b' a' : Z,
    pixel_loop (of_reals identity) [r; g; b; a] = [r'; g'; b'; a'] /\
    (Z.abs (r' - r) <= 1)%Z /\ (Z.abs (g' - g) <= 1)%Z /\
    (Z.abs (b' - b) <= 1)%Z /\ a' = a.
Proof.
  intros Hr Hg Hb Ha. exists r, g, b, a.
  split; [now apply identity_exact |].
  repeat split; lia.
Qed.

Lemma identity_round_trip_witness :
  exists r' g' b' a' : Z,
    pixel_loop (of_reals identity) [200; 10; 11; 77]%Z = [r'; g'; b'; a'] /\
    (Z.abs (r' - 200) <= 1)%Z /\ (Z.abs (g' - 10) <= 1)%Z /\
    (Z.abs (b' - 11) <= 1)%Z /\ a' = 77%Z.
Proof.
  apply (identity_round_trip 200 10 11 77); unfold byte; lia.
Defined.

(** ** Resolving a matrix *)

(** On well-formed samples a non-NaN severity never makes the lookup throw. *)
Lemma resolve_returns (st : state) (T : tables) (mode : string)
    (table : samples) (y : R) :
  MACHADO_TABLE st = Some T -> get T mode = Some table ->
  well_formed table ->
  exists res, getMachadoMatrixSync st mode (Num y) = Return res.
Proof.
  intros HT Hmode Hwf.
  pose proof (well_formed_finite_keys table Hwf) as Hfk.
  destruct (sampleKeys_spec table Hfk) as [lr [Hkeys [Hsorted Hin]]].
  rewrite (resolve_unfold st T mode table y lr HT Hmode Hkeys).
  destruct lr as [| first lr']; [now exists None |].
  cbv zeta.
  destruct (Rle_dec (clamp_unit y) first); [eexists; reflexivity |].
  destruct (Rle_dec (last (first :: lr') first) (clamp_unit y));
    [eexists; reflexivity |].
  destruct (find_interval_spec lr' first (clamp_unit y) first
              (Num first, nth_error (map Num (first :: lr')) 1)
              Hsorted ltac:(lra) ltac:(lra))
    as [a [b [Heq _]]].
  rewrite Heq.
  destruct (get table (keyFromNum (Num a)));
    destruct (get table (keyFromNum (Num b))); eexists; reflexivity.
Qed.

(** On well-formed samples a non-NaN severity resolves to a matrix of reals. *)
Lemma resolve_finite (st : state) (T : tables) (mode : string)
    (table : samples) (y : R) (m : matrix) :
  MACHADO_TABLE st = Some T -> get T mode = Some table ->
  well_formed table ->
  getMachadoMatrixSync st mode (Num y) = Return (Some m) ->
  finite_matrix m.
Proof.
  intros HT Hmode Hwf.
  pose proof (well_formed_finite_keys table Hwf) as Hfk.
  destruct (sampleKeys_spec table Hfk) as [lr [Hkeys [Hsorted Hin]]].
  rewrite (resolve_unfold st T mode table y lr HT Hmode Hkeys).
  destruct lr as [| first lr']; [discriminate |].
  cbv zeta.
  assert (Hfin : forall x m', In x (first :: lr') ->
            get table (keyFromNum (Num x)) = Some m' -> finite_matrix m').
  { intros x m' Hx Hm.
    destruct (proj1 (Hin x) Hx) as [keyx [mx Hsx]].
    rewrite (lookup_sample _ _ _ _ Hwf Hsx) in Hm. injection Hm as <-.
    exact (proj1 (well_formed_sample _ _ _ _ Hwf Hsx)). }
  destruct (Rle_dec (clamp_unit y) first).
  { intros [= Hm]. exact (Hfin first m (or_introl eq_refl) Hm). }
  destruct (Rle_dec (last (first :: lr') first) (clamp_unit y)).
  { intros [= Hm].
    exact (Hfin _ m (last_In (first :: lr') first ltac:(discriminate)) Hm). }
  destruct (find_interval_spec lr' first (clamp_unit y) first
              (Num first, nth_error (map Num (first :: lr')) 1)
              Hsorted ltac:(lra) ltac:(lra))
    as [a [b [Heq [Ha [Hb [Hab _]]]]]].
  rewrite Heq.
  destruct (get table (keyFromNum (Num a))) as [ma |] eqn:Hma; [| discriminate].
  destruct (get table (keyFromNum (Num b))) as [mb |] eqn:Hmb; [| discriminate].
  intros [= <-].
  destruct (Hfin a ma Ha Hma) as [Ma ->].
  destruct (Hfin b mb Hb Hmb) as [Mb ->].
  destruct (Req_dec_T (b - a) 0); [lra |]. rewrite lerpMatrix_real.
  eexists; reflexivity.
Qed.

(** The interpolation claim, for a severity that is already clamped. *)
Lemma interpolation_of_clamped (st : state) (T : tables) (mode : string)
    (table : samples) (s : R)
    (key0 : string) (k0 : R) (M0 : mat3 R)
    (key1 : string) (k1 : R) (M1 : mat3 R) :
  MACHADO_TABLE st = Some T -> get T mode = Some table ->
  well_formed table ->
  clamp_unit s = s ->
  (exists key k m, sample table key k m /\ k < s) ->
  (exists key k m, sample table key k m /\ s < k) ->
  sample table key0 k0 (of_reals M0) ->
  sample table key1 k1 (of_reals M1) ->
  adjacent table k0 k1 ->
  k0 <= s <= k1 ->
  exists Mres,
    getMachadoMatrixSync st mode (Num s) = Return (Some (of_reals Mres)) /\
    interpolates Mres M0 M1 ((s - k0) / (k1 - k0)).
Proof.
  intros HT Hmode Hwf Hc Hbelow Habove Hs0 Hs1 [Hlt Hnone] [Hk0 Hk1].
  destruct (resolve_between st T mode table s HT Hmode Hwf)
    as [keya [a [ma [keyb [b [mb [Hsa [Hsb [[Has Hsb'] [Hadj Hres]]]]]]]]]];
    try (rewrite Hc; assumption).
  rewrite Hres, Hc in *. clear Hres.
  pose proof (Hnone _ _ _ Hsa) as Hna.
  pose proof (Hnone _ _ _ Hsb) as Hnb.
  destruct (Hadj _ _ _ Hs1) as [H1a | H1b]; [lra |].
  destruct (Hadj _ _ _ Hs0) as [H0a | H0b].
  - (* the program's pair is the pair (k0, k1) *)
    assert (a = k0) by lra. assert (b = k1) by lra. subst a b.
    rewrite (sample_unique _ _ _ _ _ _ Hwf Hsa Hs0).
    rewrite (sample_unique _ _ _ _ _ _ Hwf Hsb Hs1).
    rewrite lerpMatrix_real.
    eexists; split; [reflexivity | apply build3_interpolates].
  - (* [s] is the sample [k0], reached as the upper end of the pair before *)
    assert (b = k0) by lra. assert (s = k0) by lra. subst b.
    rewrite (sample_unique _ _ _ _ _ _ Hwf Hsb Hs0).
    destruct (proj1 (well_formed_sample _ _ _ _ Hwf Hsa)) as [Ma ->].
    replace ((s - a) / (k0 - a)) with 1 by (rewrite H0; field; lra).
    rewrite lerpMatrix_one.
    exists M0; split; [reflexivity |].
    intros r c _ _.
    replace ((s - k0) / (k1 - k0)) with 0 by (rewrite H0; field; lra).
    ring.
Qed.

(** C2.  For a mode of a loaded, well-formed table and a severity whose
    clamped value [s] lies strictly between two of the mode's sample points,
    resolving the matrix returns the element-wise linear interpolation of
    the matrices [M0] at [k0] and [M1] at [k1] of the adjacent samples that
    enclose [s], with fraction [(s - k0) / (k1 - k0)]. *)
Theorem resolve_interpolates (st : state) (T : tables) (mode : string)
    (table : samples) (severity : num) (s : R)
    (key0 : string) (k0 : R) (M0 : mat3 R)
    (key1 : string) (k1 : R) (M1 : mat3 R) :
  MACHADO_TABLE st = Some T -> get T mode = Some table ->
  well_formed table ->
  clamp01 severity = Num s ->
  (exists key k m, sample table key k m /\ k < s) ->
  (exists key k m, sample table key k m /\ s < k) ->
  sample table key0 k0 (of_reals M0) ->
  sample table key1 k1 (of_reals M1) ->
  adjacent table k0 k1 ->
  k0 <= s <= k1 ->
  exists Mres,
    getMachadoMatrixSync st mode severity = Return (Some (of_reals Mres)) /\
    interpolates Mres M0 M1 ((s - k0) / (k1 - k0)).
Proof.
  intros HT Hmode Hwf Hclamp Hbelow Habove Hs0 Hs1 Hadj Hk.
  rewrite (resolve_clamped st mode severity s Hclamp).
  apply (interpolation_of_clamped st T mode table s key0 k0 M0 key1 k1 M1);
    try assumption.
  exact (proj2 (clamp01_Num_inv severity s Hclamp)).
Qed.

Lemma resolve_interpolates_witness :
  exists Mres,
    getMachadoMatrixSync Example.loaded "protan" (Num 0.25)
    = Return (Some (of_reals Mres)) /\
    interpolates Mres identity Example.protan_half ((0.25 - 0) / (0.5 - 0)).
Proof.
  apply (resolve_interpolates Example.loaded Example.source "protan"
           Example.protan_samples (Num 0.25) 0.25 "0.0" 0 identity
           "0.5" 0.5 Example.protan_half eq_refl eq_refl
           protan_samples_well_formed).
  - rewrite clamp01_real. f_equal. apply clamp_unit_id; lra.
  - exists "0.0"%string, 0, (of_reals identity).
    split; [exact sample_0_0 | lra].
  - exists "1.0"%string, 1, (of_reals Example.protan_full).
    split; [exact sample_1_0 | lra].
  - exact sample_0_0.
  - exact sample_0_5.
  - exact protan_adjacent_low.
  - lra.
Defined.

(** C6.  For a mode of a loaded, well-formed table and a severity equal to
    one of the mode's sample points, boundary or interior, resolving the
    matrix returns the matrix stored for that sample. *)
Theorem resolve_exact_sample (st : state) (T : tables) (mode : string)
    (table : samples) (key : string) (k : R) (m : matrix) :
  MACHADO_TABLE st = Some T -> get T mode = Some table ->
  well_formed table ->
  sample table key k m ->
  getMachadoMatrixSync st mode (Num k) = Return (Some m).
Proof.
  intros HT Hmode Hwf Hs.
  destruct (well_formed_sample _ _ _ _ Hwf Hs) as [[Mm HMm] [Hrange _]].
  assert (Hc : clamp_unit k = k) by (apply clamp_unit_id; exact Hrange).
  destruct (extremes table key k m Hwf Hs)
    as [[keylo [klo [mlo [Hslo Hmin]]]] [keyhi [khi [mhi [Hshi Hmax]]]]].
  destruct (Rle_dec k klo) as [Hle | Hgt].
  { apply (resolve_low st T mode table k key k m HT Hmode Hwf Hs);
      [| rewrite Hc; lra].
    intros key' k' m' Hs'. pose proof (Hmin _ _ _ Hs'). lra. }
  destruct (Rle_dec khi k) as [Hge | Hlt].
  { apply (resolve_high st T mode table k key k m HT Hmode Hwf Hs);
      [| rewrite Hc; lra].
    intros key' k' m' Hs'. pose proof (Hmax _ _ _ Hs'). lra. }
  destruct (resolve_between st T mode table k HT Hmode Hwf)
    as [keya [a [ma [keyb [b [mb [Hsa [Hsb [[Has Hsb'] [Hadj Hres]]]]]]]]]].
  { exists keylo, klo, mlo. split; [exact Hslo | rewrite Hc; lra]. }
  { exists keyhi, khi, mhi. split; [exact Hshi | rewrite Hc; lra]. }
  rewrite Hres, Hc in *. clear Hres.
  destruct (Hadj _ _ _ Hs) as [Hka | Hbk]; [lra |].
  assert (b = k) by lra. subst b.
  rewrite (sample_unique _ _ _ _ _ _ Hwf Hsb Hs).
  destruct (proj1 (well_formed_sample _ _ _ _ Hwf Hsa)) as [Ma ->].
  replace ((k - a) / (k - a)) with 1 by (field; lra).
  subst m. now rewrite lerpMatrix_one.
Qed.

Lemma resolve_exact_sample_witness :
  getMachadoMatrixSync Example.loaded "protan" (Num 0.5)
  = Return (Some (of_reals Example.protan_half)).
Proof.
  exact (resolve_exact_sample Example.loaded Example.source "protan"
           Example.protan_samples "0.5" 0.5 (of_reals Example.protan_half)
           eq_refl eq_refl protan_samples_well_formed sample_0_5).
Defined.

(** C7.  The severity is clamped into [0, 1] before the lookup: in every
    state and for every mode, resolving at a real severity is resolving at
    that severity clamped, so that 2.0 resolves as 1.0 does.  And for a mode
    of a loaded, well-formed table, resolving at a severity below the
    smallest sample returns the smallest sample's matrix and at a severity
    above the largest sample the largest sample's matrix. *)
Theorem resolve_out_of_range :
  (forall st mode y,
     getMachadoMatrixSync st mode (Num y)
     = getMachadoMatrixSync st mode (Num (clamp_unit y))) /\
  (forall st mode,
     getMachadoMatrixSync st mode (Num 2.0)
     = getMachadoMatrixSync st mode (Num 1.0)) /\
  (forall st T mode table,
     MACHADO_TABLE st = Some T -> get T mode = Some table ->
     well_formed table ->
     (forall key k m severity,
        sample table key k m -> smallest table k ->
        (severity <? Num k)%js = true ->
        getMachadoMatrixSync st mode severity = Return (Some m)) /\
     (forall key k m severity,
        sample table key k m -> largest table k ->
        (severity >? Num k)%js = true ->
        getMachadoMatrixSync st mode severity = Return (Some m))).
Proof.
  split; [| split].
  - intros st mode y. apply resolve_clamped, clamp01_real.
  - intros st mode. apply resolve_same_clamp. rewrite !clamp01_real. f_equal.
    unfold clamp_unit, Rmax, Rmin.
    destruct (Rle_dec 2.0 1); [lra |].
    destruct (Rle_dec 1.0 1); [| lra].
    destruct (Rle_dec 0 1); destruct (Rle_dec 0 1.0); lra.
  - intros st T mode table HT Hmode Hwf. split.
    + intros key k m v Hs Hmin Hv.
      destruct (well_formed_sample _ _ _ _ Hwf Hs) as [_ [[H0 H1] _]].
      assert (Hnan : isNaN v = false) by (now destruct v).
      destruct (clamp01_not_NaN v Hnan) as [s [Hclamp [Hrange Hid]]].
      rewrite (resolve_clamped st mode v s Hclamp).
      apply (resolve_low st T mode table s key k m HT Hmode Hwf Hs Hmin).
      rewrite Hid. destruct v as [| [] | y]; try discriminate.
      * injection Hclamp as <-. exact H0.
      * apply lt_Num in Hv. rewrite clamp01_real in Hclamp.
        injection Hclamp as <-.
        unfold clamp_unit, Rmax, Rmin.
        destruct (Rle_dec y 1); destruct (Rle_dec 0 _); lra.
    + intros key k m v Hs Hmax Hv.
      destruct (well_formed_sample _ _ _ _ Hwf Hs) as [_ [[H0 H1] _]].
      assert (Hnan : isNaN v = false) by (now destruct v as [| [] |]).
      destruct (clamp01_not_NaN v Hnan) as [s [Hclamp [Hrange Hid]]].
      rewrite (resolve_clamped st mode v s Hclamp).
      apply (resolve_high st T mode table s key k m HT Hmode Hwf Hs Hmax).
      rewrite Hid. destruct v as [| [] | y]; try discriminate.
      * unfold clamp01, gt, lt in Hclamp.
        destruct (Rlt_dec 1 0); [lra |]. injection Hclamp as <-. exact H1.
      * apply lt_Num in Hv. rewrite clamp01_real in Hclamp.
        injection Hclamp as <-.
        unfold clamp_unit, Rmax, Rmin.
        destruct (Rle_dec y 1); destruct (Rle_dec 0 _); lra.
Qed.

Lemma resolve_out_of_range_witness :
  getMachadoMatrixSync Example.loaded "protan" (Num (-1))
  = Return (Some (of_reals identity)) /\
  getMachadoMatrixSync Example.loaded "protan" (Inf false)
  = Return (Some (of_reals Example.protan_full)) /\
  getMachadoMatrixSync Cases.single_loaded "protan" (Num 2.0)
  = getMachadoMatrixSync Cases.single_loaded "protan" (Num 1.0).
Proof.
  destruct resolve_out_of_range as [_ [Htwo Hends]].
  destruct (Hends Example.loaded Example.source "protan"%string
              Example.protan_samples eq_refl eq_refl
              protan_samples_well_formed) as [Hlow Hhigh].
  split; [| split].
  - apply (Hlow "0.0"%string 0 _ (Num (-1)) sample_0_0 protan_smallest).
    apply lt_Num. lra.
  - exact (Hhigh "1.0"%string 1 _ (Inf false) sample_1_0 protan_largest
             eq_refl).
  - apply Htwo.
Defined.

(** ** NaN severity *)

(** With a single sample point a NaN severity makes the lookup throw: the
    search leaves [k1] undefined and [keyFromNum] is called on it. *)
Lemma resolve_NaN_single_sample (st : state) (T : tables) (mode : string)
    (table : samples) (k : R) :
  MACHADO_TABLE st = Some T -> get T mode = Some table ->
  sampleKeys_of table = [Num k] ->
  getMachadoMatrixSync st mode NaN = Throw TypeError.
Proof.
  intros HT Hmode Hkeys.
  unfold getMachadoMatrixSync. now rewrite HT, Hmode, Hkeys.
Qed.

(** C4, as stated, fails: on the sample table, resolving at NaN does not
    give what resolving at 0 gives. *)
Lemma resolve_NaN_is_not_resolve_0 :
  getMachadoMatrixSync Example.loaded "protan" NaN
  <> getMachadoMatrixSync Example.loaded "protan" (Num 0).
Proof.
  rewrite (resolve_NaN Example.loaded Example.source "protan"
             Example.protan_samples "0.0" "1.0" 0 1 _ _
             eq_refl eq_refl protan_samples_well_formed
             sample_0_0 sample_1_0 ltac:(lra)).
  rewrite (resolve_low Example.loaded Example.source "protan"
             Example.protan_samples 0 "0.0" 0 _
             eq_refl eq_refl protan_samples_well_formed
             sample_0_0 protan_smallest
             ltac:(rewrite clamp_unit_id; lra)).
  discriminate.
Qed.

(** C4, amended.  For a mode of a loaded, well-formed table, every severity
    that is not NaN (out of range or infinite as it may be) is clamped to a
    real [s] of [0, 1] before the lookup: it resolves as [s] does, without an
    exception, and to a matrix of reals if to any.  NaN is not clamped:
    [clamp01] returns it, and when the mode has two distinct sample points
    the lookup returns the matrix whose entries are all NaN. *)
Theorem resolve_clamps_numbers_not_NaN (st : state) (T : tables)
    (mode : string) (table : samples) :
  MACHADO_TABLE st = Some T -> get T mode = Some table ->
  well_formed table ->
  (forall severity, isNaN severity = false ->
     exists s, clamp01 severity = Num s /\ 0 <= s <= 1 /\
       getMachadoMatrixSync st mode severity
       = getMachadoMatrixSync st mode (Num s) /\
       exists res, getMachadoMatrixSync st mode severity = Return res /\
                   forall m, res = Some m -> finite_matrix m) /\
  clamp01 NaN = NaN /\
  (forall key k m key' k' m',
     sample table key k m -> sample table key' k' m' -> k <> k' ->
     getMachadoMatrixSync st mode NaN = Return (Some nan_matrix)).
Proof.
  intros HT Hmode Hwf. split; [| split].
  - intros v Hv.
    destruct (clamp01_not_NaN v Hv) as [s [Hclamp [Hrange _]]].
    exists s. split; [exact Hclamp |]. split; [exact Hrange |].
    rewrite (resolve_clamped st mode v s Hclamp). split; [reflexivity |].
    destruct (resolve_returns st T mode table s HT Hmode Hwf) as [res Hres].
    exists res. split; [exact Hres |].
    intros m ->. exact (resolve_finite st T mode table s m HT Hmode Hwf Hres).
  - reflexivity.
  - intros key k m key' k' m' Hs Hs' Hne.
    exact (resolve_NaN st T mode table key key' k k' m m' HT Hmode Hwf Hs Hs' Hne).
Qed.

Lemma resolve_clamps_numbers_not_NaN_witness :
  (forall severity, isNaN severity = false ->
     exists s, clamp01 severity = Num s /\ 0 <= s <= 1 /\
       getMachadoMatrixSync Example.loaded "protan" severity
       = getMachadoMatrixSync Example.loaded "protan" (Num s) /\
       exists res,
         getMachadoMatrixSync Example.loaded "protan" severity = Return res /\
         forall m, res = Some m -> finite_matrix m) /\
  clamp01 NaN = NaN /\
  getMachadoMatrixSync Example.loaded "protan" NaN = Return (Some nan_matrix).
Proof.
  destruct (resolve_clamps_numbers_not_NaN Example.loaded Example.source
              "protan" Example.protan_samples eq_refl eq_refl
              protan_samples_well_formed) as [Hnum [Hclamp Hnan]].
  split; [exact Hnum |]. split; [exact Hclamp |].
  apply (Hnan "0.0"%string 0 _ "1.0"%string 1 _ sample_0_0 sample_1_0). lra.
Defined.

(** ** Unavailable *)

(** C8.  When the table is not loaded, when the mode is not a key of the
    table, or when the mode's sample set is empty, resolving a matrix, at any
    severity, returns null rather than throwing, and the caller
    [applyCvdSimulation] returns without drawing and without throwing. *)
Theorem resolve_unavailable (st : state) (mode : string) :
  MACHADO_TABLE st = None \/
  (exists T, MACHADO_TABLE st = Some T /\ get T mode = None) \/
  (exists T table,
     MACHADO_TABLE st = Some T /\ get T mode = Some table /\ no_samples table) ->
  (forall severity, getMachadoMatrixSync st mode severity = Return None) /\
  (forall srcCanvas severity,
     applyCvdSimulation st srcCanvas mode severity = Return None).
Proof.
  intros H.
  assert (Hres : forall severity,
            getMachadoMatrixSync st mode severity = Return None).
  { intros severity. unfold getMachadoMatrixSync.
    destruct H as [HT | [[T [HT Hmode]] | [T [table [HT [Hmode Hno]]]]]].
    - now rewrite HT.
    - now rewrite HT, Hmode.
    - now rewrite HT, Hmode, (no_samples_keys table Hno). }
  split; [exact Hres |].
  intros srcCanvas severity. unfold applyCvdSimulation. now rewrite Hres.
Qed.

Lemma resolve_unavailable_witness :
  (forall severity,
     getMachadoMatrixSync initial "protan" severity = Return None) /\
  (forall severity,
     getMachadoMatrixSync Example.loaded "tritan" severity = Return None) /\
  (forall srcCanvas severity,
     applyCvdSimulation (State (Some Example.bad_source) []) srcCanvas
       "deutan" severity = Return None).
Proof.
  split; [| split].
  - apply (resolve_unavailable initial "protan"). left. reflexivity.
  - apply (resolve_unavailable Example.loaded "tritan"). right; left.
    exists Example.source. split; reflexivity.
  - apply (resolve_unavailable (State (Some Example.bad_source) []) "deutan").
    right; right.
    exists Example.bad_source, [("full"%string, of_reals Example.protan_full)].
    split; [reflexivity |]. split; [reflexivity |].
    intros key [<- | []]. reflexivity.
Defined.

(** ** Loading the table *)

(** C3, as stated, fails: a source with a mode without samples and with a
    key that is not a number is loaded and cached as it is. *)
Lemma load_accepts_invalid_source :
  mode_without_sample Example.bad_source /\
  unreadable_key Example.bad_source /\
  loadMachadoMatrices (Example.serve Example.bad_source) None initial
  = (Return Example.bad_source,
     State (Some Example.bad_source) [Json default_url; Fetch default_url]).
Proof.
  split; [| split; [| reflexivity]].
  - now exists "protan"%string.
  - exists "deutan"%string, [("full"%string, of_reals Example.protan_full)],
      "full"%string, (of_reals Example.protan_full).
    repeat split; reflexivity.
Qed.

(** C3, amended.  Loading does not validate the parsed source.  From the
    unloaded state, whatever table the response's body parses to, with or
    without structural violations, is returned and cached whole; loading
    fails only when the fetch rejects, the response is not ok or the body
    does not parse, and then no table is stored. *)
Theorem load_does_not_validate (fetch : string -> outcome response)
    (url : option string) (st : state) :
  MACHADO_TABLE st = None ->
  let u := match url with Some u => u | None => default_url end in
  (forall res T,
     fetch u = Return res -> ok res = true -> json res = Return T ->
     loadMachadoMatrices fetch url st
     = (Return T, State (Some T) (Json u :: Fetch u :: trace st))) /\
  (forall e,
     fst (loadMachadoMatrices fetch url st) = Throw e ->
     MACHADO_TABLE (snd (loadMachadoMatrices fetch url st)) = None /\
     (fetch u = Throw e \/
      exists res, fetch u = Return res /\
        ((ok res = false /\ exists message, e = Error message) \/
         (ok res = true /\ json res = Throw e)))).
Proof.
  intros HT u. unfold loadMachadoMatrices. rewrite HT. fold u. split.
  - intros res T Hf Hok Hj. now rewrite Hf, Hok, Hj.
  - intros e. destruct (fetch u) as [res | e'] eqn:Hf.
    + destruct (ok res) eqn:Hok; cbn [negb].
      * destruct (json res) as [T | e'] eqn:Hj; cbn [fst snd MACHADO_TABLE].
        -- discriminate.
        -- intros [= ->]. split; [reflexivity |]. right. exists res. tauto.
      * cbn [fst snd MACHADO_TABLE]. intros [= <-].
        split; [reflexivity |]. right. exists res.
        split; [first [assumption | reflexivity] |].
        left. split; [first [assumption | reflexivity] |].
        eexists; reflexivity.
    + cbn [fst snd MACHADO_TABLE]. intros [= ->]. split; [reflexivity | now left].
Qed.

Lemma load_does_not_validate_witness :
  loadMachadoMatrices (Example.serve Example.bad_source) None initial
  = (Return Example.bad_source,
     State (Some Example.bad_source)
       (Json default_url :: Fetch default_url :: trace initial)).
Proof.
  exact (proj1 (load_does_not_validate (Example.serve Example.bad_source) None
                  initial eq_refl)
           _ Example.bad_source eq_refl eq_refl eq_refl).
Defined.

Lemma load_sequence_cached (T : tables) (log : list event)
    (calls : list ((string -> outcome response) * option string)) :
  load_sequence calls (State (Some T) log)
  = (map (fun _ => Return T) calls, State (Some T) log).
Proof.
  induction calls as [| [fetch url] calls IH]; [reflexivity |].
  cbn [load_sequence loadMachadoMatrices MACHADO_TABLE map].
  now rewrite IH.
Qed.

(** C9.  After a load that succeeds, every later load call returns the
    cached table and leaves the state, the list of requests included, as it
    is; a load that fails leaves the table unloaded, and a later load that
    meets an ok response with a parsable body then loads it. *)
Theorem load_cache_lifecycle (fetch : string -> outcome response)
    (url : option string) (st : state) :
  (forall T,
     fst (loadMachadoMatrices fetch url st) = Return T ->
     forall calls,
       load_sequence calls (snd (loadMachadoMatrices fetch url st))
       = (map (fun _ => Return T) calls,
          snd (loadMachadoMatrices fetch url st))) /\
  (forall e,
     fst (loadMachadoMatrices fetch url st) = Throw e ->
     MACHADO_TABLE (snd (loadMachadoMatrices fetch url st)) = None /\
     forall fetch' url' res T',
       fetch' (match url' with Some u => u | None => default_url end)
       = Return res ->
       ok res = true -> json res = Return T' ->
       fst (loadMachadoMatrices fetch' url'
              (snd (loadMachadoMatrices fetch url st))) = Return T' /\
       MACHADO_TABLE
         (snd (loadMachadoMatrices fetch' url'
                 (snd (loadMachadoMatrices fetch url st)))) = Some T').
Proof.
  assert (Hok : forall r st', loadMachadoMatrices fetch url st = (r, st') ->
            (forall T, r = Return T -> MACHADO_TABLE st' = Some T) /\
            (forall e, r = Throw e -> MACHADO_TABLE st' = None)).
  { intros r st'. unfold loadMachadoMatrices.
    destruct (MACHADO_TABLE st) as [T0 |] eqn:HT.
    - intros [= <- <-]. split; [intros T [= <-]; exact HT | discriminate].
    - destruct (fetch _) as [res | e0]; [| intros [= <- <-]; split;
                                            [discriminate | reflexivity]].
      destruct (ok res); cbn [negb];
        [| intros [= <- <-]; split; [discriminate | reflexivity]].
      destruct (json res) as [T1 | e1]; intros [= <- <-];
        split; try discriminate; try reflexivity.
      intros T [= <-]. reflexivity. }
  destruct (loadMachadoMatrices fetch url st) as [r st'] eqn:Hload.
  destruct (Hok r st' eq_refl) as [Hret Hthrow]. cbn [fst snd]. split.
  - intros T Hr calls. specialize (Hret T Hr).
    destruct st' as [tbl log]. cbn [MACHADO_TABLE] in Hret. subst tbl.
    apply load_sequence_cached.
  - intros e Hr. specialize (Hthrow e Hr). split; [exact Hthrow |].
    intros fetch' url' res T' Hf Hk Hj.
    unfold loadMachadoMatrices. rewrite Hthrow, Hf, Hk, Hj. now split.
Qed.

Lemma load_cache_lifecycle_witness :
  load_sequence
    [(Example.not_found, None); (Example.serve Example.bad_source, None)]
    (snd (loadMachadoMatrices (Example.serve Example.source) None initial))
  = ([Return Example.source; Return Example.source],
     snd (loadMachadoMatrices (Example.serve Example.source) None initial)) /\
  MACHADO_TABLE (snd (loadMachadoMatrices Example.not_found None initial))
  = None /\
  fst (loadMachadoMatrices (Example.serve Example.source) None
         (snd (loadMachadoMatrices Example.not_found None initial)))
  = Return Example.source.
Proof.
  split; [| split].
  - exact (proj1 (load_cache_lifecycle (Example.serve Example.source) None
                    initial) Example.source eq_refl
             [(Example.not_found, None);
              (Example.serve Example.bad_source, None)]).
  - exact (proj1 (proj2 (load_cache_lifecycle Example.not_found None initial)
                    _ eq_refl)).
  - exact (proj1 (proj2 (proj2 (load_cache_lifecycle Example.not_found None
                                  initial) _ eq_refl)
                    (Example.serve Example.source) None _ Example.source
                    eq_refl eq_refl eq_refl)).
Defined.

(** * Further properties of [color-sim.js] *)

(** ** The pixel loop over a whole buffer *)

Lemma ToUint8Clamp_range (v : num) : byte (ToUint8Clamp v).
Proof.
  unfold byte. destruct v as [| [] | x]; cbn [ToUint8Clamp]; try lia.
  destruct (Rle_dec x 0) as [_ | Hpos]; [lia |].
  destruct (Rle_dec 255 x) as [_ | Hlt]; [lia |].
  assert (H0 : (0 <= Zfloor x)%Z) by (apply Zfloor_lub; lra).
  assert (H1 : (Zfloor x < 255)%Z).
  { pose proof (Zfloor_bound x) as [Hb _]. apply lt_IZR. lra. }
  cbv zeta.
  destruct (Rlt_dec _ _); [lia |].
  destruct (Rlt_dec _ _); [lia |].
  destruct (Z.even _); lia.
Qed.

(** X1.  The pixel loop writes one output pixel per input pixel: the output
    has four bytes for every whole group of four input bytes, so for image
    data, whose length is a multiple of four, as many bytes as the input;
    and every byte written is between 0 and 255, whatever the matrix holds. *)
Theorem pixel_loop_shape (mat : matrix) (srcData : list Z) :
  List.length (pixel_loop mat srcData) = (4 * (List.length srcData / 4))%nat /\
  ((List.length srcData mod 4 = 0)%nat ->
   List.length (pixel_loop mat srcData) = List.length srcData) /\
  Forall byte (pixel_loop mat srcData).
Proof.
  assert (Hlen : List.length (pixel_loop mat srcData)
                 = (4 * (List.length srcData / 4))%nat).
  { induction srcData as [| a | a b | a b c | r g b a rest IH] using list_ind4;
      try reflexivity.
    cbn [pixel_loop].
    destruct (transformRgbWithMatrix_srgbLinear _ _ _ _) as [[nr ng] nb].
    cbn [List.length]. rewrite IH.
    change (S (S (S (S (List.length rest))))) with (1 * 4 + List.length rest)%nat.
    rewrite Nat.div_add_l by lia. lia. }
  split; [exact Hlen |]. split.
  - intros Hmod. rewrite Hlen.
    pose proof (Nat.div_mod_eq (List.length srcData) 4). lia.
  - clear Hlen.
    induction srcData as [| a | a b | a b c | r g b a rest IH] using list_ind4;
      [constructor | constructor | constructor | constructor |].
    cbn [pixel_loop].
    destruct (transformRgbWithMatrix_srgbLinear (of_Z r) (of_Z g) (of_Z b) mat)
      as [[nr ng] nb].
    repeat (apply Forall_cons; [apply ToUint8Clamp_range |]). exact IH.
Qed.

Lemma pixel_loop_shape_witness :
  List.length (pixel_loop (of_reals Example.protan_full)
            [255; 128; 0; 255; 1; 2; 3; 4]%Z) = 8%nat.
Proof.
  exact (proj1 (proj2 (pixel_loop_shape (of_reals Example.protan_full)
                         [255; 128; 0; 255; 1; 2; 3; 4]%Z)) eq_refl).
Defined.

(** X2.  No pixel depends on another: the pixel loop over two image buffers
    laid end to end is the pixel loop over each, laid end to end. *)
Theorem pixel_loop_app (mat : matrix) (d1 d2 : list Z) :
  (List.length d1 mod 4 = 0)%nat ->
  pixel_loop mat (d1 ++ d2) = pixel_loop mat d1 ++ pixel_loop mat d2.
Proof.
  induction d1 as [| a | a b | a b c | r g b a rest IH] using list_ind4;
    try discriminate.
  - reflexivity.
  - intros Hmod.
    assert (Hrest : (List.length rest mod 4 = 0)%nat).
    { cbn [List.length] in Hmod.
      change (S (S (S (S (List.length rest)))))
        with (1 * 4 + List.length rest)%nat in Hmod.
      rewrite Nat.add_comm, Nat.Div0.mod_add in Hmod. exact Hmod. }
    cbn [app pixel_loop].
    destruct (transformRgbWithMatrix_srgbLinear _ _ _ _) as [[nr ng] nb].
    cbn [app]. now rewrite (IH Hrest).
Qed.

Lemma pixel_loop_app_witness :
  pixel_loop nan_matrix ([1; 2; 3; 4] ++ [5; 6; 7; 8])%Z
  = pixel_loop nan_matrix [1; 2; 3; 4]%Z ++ pixel_loop nan_matrix [5; 6; 7; 8]%Z.
Proof.
  exact (pixel_loop_app nan_matrix [1; 2; 3; 4]%Z [5; 6; 7; 8]%Z eq_refl).
Defined.

(** X3.  Alpha is never touched: for image data made of bytes, the alpha of
    every output pixel is the alpha of the input pixel, whatever the matrix
    holds (NaN and infinities included). *)
Theorem pixel_loop_alphas (mat : matrix) (srcData : list Z) :
  Forall byte srcData ->
  alphas (pixel_loop mat srcData) = alphas srcData.
Proof.
  induction srcData as [| a | a b | a b c | r g b a rest IH] using list_ind4;
    try reflexivity.
  intros Hbytes.
  assert (Ha : byte a).
  { rewrite Forall_forall in Hbytes. apply Hbytes. simpl; tauto. }
  assert (Hrest : Forall byte rest).
  { rewrite Forall_forall in Hbytes |- *. intros x Hx.
    apply Hbytes. simpl; tauto. }
  cbn [pixel_loop].
  destruct (transformRgbWithMatrix_srgbLinear _ _ _ _) as [[nr ng] nb].
  cbn [alphas]. unfold of_Z. rewrite (ToUint8Clamp_byte a Ha).
  now rewrite (IH Hrest).
Qed.

Lemma pixel_loop_alphas_witness :
  alphas (pixel_loop nan_matrix [10; 20; 30; 40; 50; 60; 70; 80]%Z)
  = alphas [10; 20; 30; 40; 50; 60; 70; 80]%Z.
Proof.
  apply (pixel_loop_alphas nan_matrix [10; 20; 30; 40; 50; 60; 70; 80]%Z).
  repeat constructor; unfold byte; lia.
Defined.

(** ** NaN in the matrix *)

Lemma linearToSrgb_NaN : linearToSrgb NaN = NaN.
Proof.
  unfold linearToSrgb. cbn [le]. rewrite div_Num by lra.
  unfold Math_pow. destruct (Req_dec_T (1.0 / 2.4) 0) as [H | _]; [lra |].
  reflexivity.
Qed.

Lemma transform_nan_matrix (r g b : num) :
  transformRgbWithMatrix_srgbLinear r g b nan_matrix = (NaN, NaN, NaN).
Proof.
  unfold transformRgbWithMatrix_srgbLinear, nan_matrix.
  cbn [ix nth3 mul add]. now rewrite linearToSrgb_NaN.
Qed.

Lemma pixel_loop_nan_matrix (srcData : list Z) :
  Forall byte srcData -> pixel_loop nan_matrix srcData = blacken srcData.
Proof.
  induction srcData as [| a | a b | a b c | r g b a rest IH] using list_ind4;
    try reflexivity.
  intros Hbytes.
  assert (Ha : byte a).
  { rewrite Forall_forall in Hbytes. apply Hbytes. simpl; tauto. }
  assert (Hrest : Forall byte rest).
  { rewrite Forall_forall in Hbytes |- *. intros x Hx.
    apply Hbytes. simpl; tauto. }
  cbn [pixel_loop blacken]. rewrite transform_nan_matrix.
  cbn [ToUint8Clamp]. unfold of_Z. rewrite (ToUint8Clamp_byte a Ha).
  now rewrite (IH Hrest).
Qed.

(** X4.  A NaN severity blackens the image: for a mode of a loaded,
    well-formed table with two distinct sample points and a canvas that is
    not empty, [applyCvdSimulation] at NaN puts an image whose every pixel
    is black, with the source's alpha. *)
Theorem simulate_NaN_paints_black (st : state) (T : tables) (mode : string)
    (table : samples) (key key' : string) (k k' : R) (m m' : matrix)
    (srcCanvas : canvas) :
  MACHADO_TABLE st = Some T -> get T mode = Some table ->
  well_formed table ->
  sample table key k m -> sample table key' k' m' -> k <> k' ->
  width srcCanvas <> 0%Z -> height srcCanvas <> 0%Z ->
  Forall byte (data srcCanvas) ->
  applyCvdSimulation st srcCanvas mode (Some NaN)
  = Return (Some (blacken (data srcCanvas))).
Proof.
  intros HT Hmode Hwf Hs Hs' Hne Hw Hh Hbytes.
  unfold applyCvdSimulation.
  rewrite (resolve_NaN st T mode table key key' k k' m m' HT Hmode Hwf Hs Hs' Hne).
  apply Z.eqb_neq in Hw, Hh. rewrite Hw, Hh. cbn [orb].
  now rewrite pixel_loop_nan_matrix.
Qed.

Lemma simulate_NaN_paints_black_witness :
  applyCvdSimulation Example.loaded Cases.two_pixels "protan" (Some NaN)
  = Return (Some [0; 0; 0; 255; 0; 0; 0; 100]%Z).
Proof.
  apply (simulate_NaN_paints_black Example.loaded Example.source "protan"
           Example.protan_samples "0.0" "1.0" 0 1 _ _ Cases.two_pixels
           eq_refl eq_refl protan_samples_well_formed sample_0_0 sample_1_0).
  - lra.
  - discriminate.
  - discriminate.
  - repeat constructor; unfold byte; lia.
Defined.

(** ** The guards of [applyCvdSimulation] *)

(** X5.  On a canvas of width 0 or height 0 [applyCvdSimulation] never
    draws, whatever the state, the mode and the severity. *)
Theorem simulate_empty_canvas (st : state) (srcCanvas : canvas)
    (mode : string) (severity : option num) (img : list Z) :
  width srcCanvas = 0%Z \/ height srcCanvas = 0%Z ->
  applyCvdSimulation st srcCanvas mode severity <> Return (Some img).
Proof.
  intros Hzero. unfold applyCvdSimulation.
  destruct (getMachadoMatrixSync st mode _) as [[mat |] | e]; try discriminate.
  destruct Hzero as [-> | ->]; cbn [Z.eqb orb]; [discriminate |].
  rewrite orb_true_r. discriminate.
Qed.

Lemma simulate_empty_canvas_witness :
  applyCvdSimulation Example.loaded (Canvas 800 0 []) "protan" None
  <> Return (Some []).
Proof.
  apply (simulate_empty_canvas Example.loaded (Canvas 800 0 []) "protan" None []).
  right. reflexivity.
Defined.

(** X6.  The default severity is full severity: for a mode of a loaded,
    well-formed table and a canvas that is not empty, [applyCvdSimulation]
    without a severity transforms the pixels with the matrix of the mode's
    largest sample. *)
Theorem simulate_default_severity (st : state) (T : tables) (mode : string)
    (table : samples) (key : string) (k : R) (m : matrix)
    (srcCanvas : canvas) :
  MACHADO_TABLE st = Some T -> get T mode = Some table ->
  well_formed table ->
  sample table key k m -> largest table k ->
  width srcCanvas <> 0%Z -> height srcCanvas <> 0%Z ->
  applyCvdSimulation st srcCanvas mode None
  = Return (Some (pixel_loop m (data srcCanvas))).
Proof.
  intros HT Hmode Hwf Hs Hmax Hw Hh.
  unfold applyCvdSimulation.
  rewrite (resolve_high st T mode table 1.0 key k m HT Hmode Hwf Hs Hmax).
  - apply Z.eqb_neq in Hw, Hh. now rewrite Hw, Hh.
  - destruct (well_formed_sample _ _ _ _ Hwf Hs) as [_ [[H0 H1] _]].
    rewrite clamp_unit_id by lra. lra.
Qed.

Lemma simulate_default_severity_witness :
  applyCvdSimulation Example.loaded Cases.two_pixels "protan" None
  = Return (Some (pixel_loop (of_reals Example.protan_full)
                    (data Cases.two_pixels))).
Proof.
  apply (simulate_default_severity Example.loaded Example.source "protan"
           Example.protan_samples "1.0" 1 _ Cases.two_pixels
           eq_refl eq_refl protan_samples_well_formed sample_1_0
           protan_largest); discriminate.
Defined.

(** ** When the lookup throws *)

Lemma insert_by_In (cmp : num -> num -> num) (x z : num) (l : list num) :
  In z (insert_by cmp x l) <-> z = x \/ In z l.
Proof.
  induction l as [| y l IH]; cbn [insert_by].
  - simpl. intuition.
  - destruct (cmp x y >? Num 0)%js; simpl; [rewrite IH |]; intuition.
Qed.

Lemma sort_by_In (cmp : num -> num -> num) (z : num) (l : list num) :
  In z (sort_by cmp l) <-> In z l.
Proof.
  induction l as [| x l IH]; cbn [sort_by]; [tauto |].
  rewrite insert_by_In, IH. simpl. intuition.
Qed.

Lemma sampleKeys_not_NaN (table : samples) (x : num) :
  In x (sampleKeys_of table) -> isNaN x = false.
Proof.
  unfold sampleKeys_of. rewrite sort_by_In, filter_In.
  intros [_ H]. now apply negb_true_iff in H.
Qed.

Lemma compare_total (y : R) (x : num) :
  isNaN x = false -> (Num y <=? x)%js = true \/ (Num y >=? x)%js = true.
Proof.
  destruct x as [| [] | x]; [discriminate | | |]; intros _; cbn; try tauto.
  unfold ge, le. destruct (Rle_dec y x); [now left |].
  destruct (Rle_dec x y); [now right | lra].
Qed.

Lemma find_interval_defined (s : num) (l : list num) (c d : num) :
  exists a b, find_interval s l (c, Some d) = (a, Some b).
Proof.
  induction l as [| x l IH]; [now exists c, d |].
  destruct l as [| y l]; [now exists c, d |].
  cbn [find_interval]. destruct ((s >=? x) && (s <=? y))%js%bool; [eauto | exact IH].
Qed.

(** X7.  On a table of the schema's shape (an object of modes, each an
    object of severity keys, each holding a 3x3 array of numbers) and a
    severity that is a number value, the lookup throws in one situation
    only: the table is loaded, the mode is present, the severity is NaN and
    exactly one key of the mode reads as a number; the error is then a
    TypeError.  In every other situation it returns. *)
Theorem resolve_throws_iff (st : state) (mode : string) (severity : num)
    (e : error) :
  getMachadoMatrixSync st mode severity = Throw e <->
  e = TypeError /\ isNaN severity = true /\
  exists T table,
    MACHADO_TABLE st = Some T /\ get T mode = Some table /\
    List.length (sampleKeys_of table) = 1%nat.
Proof.
  split.
  - unfold getMachadoMatrixSync.
    destruct (MACHADO_TABLE st) as [T |] eqn:HT; [| discriminate].
    destruct (get T mode) as [table |] eqn:Hmode; [| discriminate].
    pose proof (sampleKeys_not_NaN table) as Hnn.
    destruct (sampleKeys_of table) as [| first rest] eqn:Hkeys; [discriminate |].
    destruct (isNaN severity) eqn:Hnan.
    + destruct severity; try discriminate.
      cbn [clamp01 lt gt le]. unfold ge. rewrite le_NaN_r.
      rewrite find_interval_NaN.
      destruct rest as [| b rest]; cbn [nth_error].
      * intros [= <-]. split; [reflexivity |]. split; [reflexivity |].
        exists T, table. rewrite Hkeys. now repeat split.
      * destruct (get table (keyFromNum first));
          destruct (get table (keyFromNum b)); discriminate.
    + destruct (clamp01_not_NaN severity Hnan) as [y [-> _]].
      destruct (Num y <=? first)%js eqn:Hle; [discriminate |].
      destruct (Num y >=? last (first :: rest) first)%js eqn:Hge;
        [discriminate |].
      destruct rest as [| b rest].
      * cbn [last] in Hge.
        destruct (compare_total y first (Hnn first (or_introl eq_refl)));
          congruence.
      * cbn [nth_error].
        destruct (find_interval_defined (Num y) (first :: b :: rest) first b)
          as [k0 [k1 ->]].
        destruct (get table (keyFromNum k0));
          destruct (get table (keyFromNum k1)); discriminate.
  - intros [-> [Hnan [T [table [HT [Hmode Hlen]]]]]].
    destruct severity; try discriminate.
    unfold getMachadoMatrixSync. rewrite HT, Hmode.
    destruct (sampleKeys_of table) as [| k [| b rest]]; try discriminate.
    cbn [clamp01 lt gt le last]. unfold ge. now rewrite le_NaN_r.
Qed.

Lemma single_sample_keys : sampleKeys_of Cases.single_sample = [Num 1].
Proof.
  unfold sampleKeys_of, Cases.single_sample. cbn [keys map fst].
  rewrite parseFloat_1_0. reflexivity.
Qed.

Lemma resolve_throws_iff_witness :
  getMachadoMatrixSync Cases.single_loaded "protan" NaN = Throw TypeError.
Proof.
  apply (resolve_throws_iff Cases.single_loaded "protan" NaN TypeError).
  split; [reflexivity |]. split; [reflexivity |].
  exists Cases.single_source, Cases.single_sample.
  split; [reflexivity |]. split; [reflexivity |].
  now rewrite single_sample_keys.
Defined.

(** ** Colours that the transform keeps *)

Lemma scaled_channel_black (M : mat3 R) (i : nat) :
  scaled_channel M i 0 0 0 = 0.
Proof.
  unfold scaled_channel, row_dot, linear_of. cbn [nth3].
  assert (H0 : srgb_inverse (IZR 0 / 255) = 0).
  { unfold srgb_inverse. destruct (Rle_dec (IZR 0 / 255) 0.04045); lra. }
  rewrite H0.
  replace (ix M i 0 * 0 + ix M i 1 * 0 + ix M i 2 * 0) with 0 by ring.
  assert (H1 : srgb_forward 0 = 0).
  { unfold srgb_forward. destruct (Rle_dec 0 0.0031308); lra. }
  rewrite H1, clamp_unit_id by lra. ring.
Qed.

(** X8.  Black stays black: for every matrix of reals, a black pixel of any
    alpha is transformed to itself. *)
Theorem black_is_fixed (M : mat3 R) (a : Z) (rest : list Z) :
  byte a ->
  pixel_loop (of_reals M) (0 :: 0 :: 0 :: a :: rest)%Z
  = (0 :: 0 :: 0 :: a :: pixel_loop (of_reals M) rest)%Z.
Proof.
  intros Ha. rewrite pixel_loop_step by exact Ha.
  rewrite !scaled_channel_black.
  replace (Zfloor (0 + / 2)) with 0%Z; [reflexivity |].
  symmetry; apply Zfloor_eq; lra.
Qed.

Lemma black_is_fixed_witness :
  pixel_loop (of_reals Example.protan_full) [0; 0; 0; 200]%Z
  = [0; 0; 0; 200]%Z.
Proof.
  apply (black_is_fixed Example.protan_full 200 []). unfold byte; lia.
Defined.

(** ** The transfer functions *)

(** The power 1/2.4 through integer powers. *)
Lemma Rpower_inv24_pow (c : R) : 0 < c -> Rpower c (1 / 2.4) ^ 12 = c ^ 5.
Proof.
  intros Hc.
  assert (Hp : 0 < Rpower c (1 / 2.4)) by (unfold Rpower; apply exp_pos).
  rewrite <- (Rpower_pow 12 _ Hp), Rpower_mult.
  replace (1 / 2.4 * INR 12) with (INR 5) by (simpl; lra).
  now rewrite Rpower_pow.
Qed.

(** Comparing positive reals through a power. *)
Lemma pow_lt_inv (a b : R) (n : nat) : 0 <= a -> 0 <= b -> a ^ n < b ^ n -> a < b.
Proof.
  intros Ha Hb Hlt. destruct (Rlt_le_dec a b) as [H | H]; [exact H |].
  pose proof (pow_incr b a n (conj Hb H)). lra.
Qed.

Lemma Rpower_pos (x y : R) : 0 < Rpower x y.
Proof. unfold Rpower; apply exp_pos. Qed.

Lemma Rpower_base_1 (y : R) : Rpower 1 y = 1.
Proof. unfold Rpower. now rewrite ln_1, Rmult_0_r, exp_0. Qed.

(** Powers of fractions are compared on the integers. *)
Lemma frac_lt (A B C D : Z) :
  (0 < B)%Z -> (0 < D)%Z -> (A * D < C * B)%Z -> IZR A / IZR B < IZR C / IZR D.
Proof.
  intros HB HD H. apply IZR_lt in HB, HD, H. rewrite !mult_IZR in H.
  generalize dependent (IZR A). generalize dependent (IZR B).
  generalize dependent (IZR C). generalize dependent (IZR D).
  intros d Hd c b Hb a H.
  replace (a / b) with (a * d * / (b * d)) by (field; lra).
  replace (c / d) with (c * b * / (b * d)) by (field; lra).
  apply Rmult_lt_compat_r; [apply Rinv_0_lt_compat; nra | exact H].
Qed.

Lemma pow_frac_lt (x y : R) (a b c d : Z) (m n : nat) :
  x = IZR a / IZR b -> y = IZR c / IZR d ->
  (0 < b)%Z -> (0 < d)%Z ->
  (a ^ Z.of_nat m * d ^ Z.of_nat n < c ^ Z.of_nat n * b ^ Z.of_nat m)%Z ->
  x ^ m < y ^ n.
Proof.
  intros -> -> Hb Hd H.
  unfold Rdiv. rewrite !Rpow_mult_distr, !pow_inv, !pow_IZR.
  apply frac_lt; [apply Z.pow_pos_nonneg; lia | apply Z.pow_pos_nonneg; lia | exact H].
Qed.

(** X12.  Both transfer functions keep the unit interval: a value of
    [0, 1] is decoded to a value of [0, 1] and encoded to a value of
    [0, 1]. *)
Theorem transfer_keeps_unit_interval (c : R) :
  0 <= c <= 1 ->
  (exists l, srgbToLinear (Num c) = Num l /\ 0 <= l <= 1) /\
  (exists e, linearToSrgb (Num c) = Num e /\ 0 <= e <= 1).
Proof.
  intros [H0 H1]. split.
  - rewrite srgbToLinear_real. eexists; split; [reflexivity |].
    unfold srgb_inverse. destruct (Rle_dec c 0.04045); [lra |].
    split; [left; apply Rpower_pos |].
    apply Rle_trans with (Rpower 1 2.4);
      [apply Rle_Rpower_l; lra | rewrite Rpower_base_1; lra].
  - rewrite linearToSrgb_real. eexists; split; [reflexivity |].
    unfold srgb_forward. destruct (Rle_dec c 0.0031308) as [| Hc]; [lra |].
    assert (Hhi : Rpower c (1 / 2.4) <= 1).
    { apply Rle_trans with (Rpower 1 (1 / 2.4));
        [apply Rle_Rpower_l; lra | rewrite Rpower_base_1; lra]. }
    assert (Hlo : 0.06 < Rpower c (1 / 2.4)).
    { apply (pow_lt_inv _ _ 12); [lra | left; apply Rpower_pos |].
      rewrite Rpower_inv24_pow by lra.
      apply Rlt_le_trans with (0.0031308 ^ 5); [| apply pow_incr; lra].
      apply (pow_frac_lt _ _ 6 100 31308 10000000);
        [lra | lra | reflexivity | reflexivity | reflexivity]. }
    lra.
Qed.

Lemma transfer_keeps_unit_interval_witness :
  (exists l, srgbToLinear (Num 1) = Num l /\ 0 <= l <= 1) /\
  (exists e, linearToSrgb (Num 1) = Num e /\ 0 <= e <= 1).
Proof. apply (transfer_keeps_unit_interval 1). lra. Defined.

(** ** The accuracy of the transform in binary64 *)

Local Abbreviation eps := Binary64.eps.
Local Abbreviation near := Binary64.near.

Lemma eps_bounds : 0 < eps <= 1e-12.
Proof. unfold Binary64.eps. lra. Qed.

(** Lipschitz bound for a power, by the mean value theorem. *)
Lemma Rpower_lipschitz (p L lo hi x y : R) :
  0 < lo -> lo <= x <= hi -> lo <= y <= hi ->
  (forall c, lo <= c <= hi -> - L <= p * Rpower c (p - 1) <= L) ->
  - (L * Rabs (x - y)) <= Rpower x p - Rpower y p <= L * Rabs (x - y).
Proof.
  intros Hlo Hx Hy HL.
  assert (Hmvt : forall a b, lo <= a <= hi -> lo <= b <= hi -> a < b ->
            - (L * (b - a)) <= Rpower b p - Rpower a p <= L * (b - a)).
  { intros a b Ha Hb Hab.
    destruct (MVT_cor2 (fun z => Rpower z p) (fun c => p * Rpower c (p - 1))
                a b Hab) as [c [Heq Hc]].
    { intros c Hc. apply derivable_pt_lim_power. lra. }
    cbv beta in Heq. rewrite Heq.
    specialize (HL c ltac:(lra)). nra. }
  destruct (Rtotal_order x y) as [Hlt | [-> | Hgt]].
  - rewrite Rabs_left by lra. specialize (Hmvt x y Hx Hy Hlt). lra.
  - rewrite Rminus_diag, Rabs_R0. lra.
  - rewrite Rabs_right by lra. specialize (Hmvt y x Hy Hx Hgt). lra.
Qed.

Lemma Rpower_nonneg (x y : R) : 0 <= Rpower x y.
Proof. left. unfold Rpower. apply exp_pos. Qed.

(** The slope of [x ^ 2.4] up to 1.1. *)
Lemma slope_24 (c : R) : 0.09 <= c <= 1.1 -> - 3 <= 2.4 * Rpower c (2.4 - 1) <= 3.
Proof.
  intros Hc. replace (2.4 - 1) with 1.4 by lra.
  pose proof (Rpower_nonneg c 1.4) as H0.
  assert (H1 : Rpower c 1.4 <= Rpower 1.1 1.4) by (apply Rle_Rpower_l; lra).
  assert (H2 : Rpower 1.1 1.4 <= Rpower 1.1 (INR 2)).
  { apply Rle_Rpower; [lra | simpl; lra]. }
  rewrite Rpower_pow in H2 by lra. lra.
Qed.

(** The slope of [x ^ (1/2.4)] from 0.003 on. *)
Lemma slope_inv24 (c : R) :
  0.003 <= c <= 64 -> - 140 <= 1 / 2.4 * Rpower c (1 / 2.4 - 1) <= 140.
Proof.
  intros Hc. replace (1 / 2.4 - 1) with (- (7 / 12)) by lra.
  rewrite Rpower_Ropp.
  assert (H1 : Rpower 0.003 (7 / 12) <= Rpower c (7 / 12))
    by (apply Rle_Rpower_l; lra).
  assert (H2 : 0.003 <= Rpower 0.003 (7 / 12)).
  { rewrite <- (Rpower_1 0.003) at 1 by lra.
    unfold Rpower. 
    assert (Hln : ln 0.003 < 0).
    { rewrite <- ln_1. apply ln_increasing; lra. }
    destruct (Rle_lt_or_eq_dec (1 * ln 0.003) (7 / 12 * ln 0.003)) as [Hlt | Heq];
      [nra | left; now apply exp_increasing | rewrite Heq; lra]. }
  assert (H3 : 0 < Rpower c (7 / 12)) by lra.
  assert (H4 : / Rpower c (7 / 12) <= / 0.003).
  { apply Rinv_le_contravar; lra. }
  assert (H5 : 0 < / Rpower c (7 / 12)) by (apply Rinv_0_lt_compat; lra).
  lra.
Qed.

(** A quotient whose two sides are known up to an error. *)
Lemma quotient_near (s k S K d e B : R) :
  1 <= k -> 0 < K ->
  S - d <= s <= S + d -> K - e <= k <= K + e ->
  - B <= S / K <= B ->
  S / K - (d + B * e) <= s / k <= S / K + (d + B * e).
Proof.
  intros Hk HK Hs Hke HB.
  set (q := s / k). set (b := S / K) in *.
  assert (Hq : q * k = s) by (unfold q; field; lra).
  assert (Hb : b * K = S) by (unfold b; field; lra).
  assert (Hdelta : (q - b) * k = (s - S) + b * (K - k)) by nra.
  assert (Hprod : - (B * e) <= b * (K - k) <= B * e) by nra.
  assert (Hm : - (d + B * e) <= (q - b) * k <= d + B * e) by lra.
  destruct (Rle_dec 0 (q - b)); nra.
Qed.

(** *** Error bounds, for an accurate rounding and an accurate power *)

Section Accuracy.

Variable rnd : R -> num.
Variable pow : num -> num -> num.
Hypothesis Hrnd : Binary64.accurate rnd.
Hypothesis Hpow : Binary64.accurate_pow rnd pow.

Lemma rnd_near (d x y : R) :
  x - d <= y <= x + d -> -1024 <= y <= 1024 -> near (d + eps) (rnd y) x.
Proof.
  intros Hy Hrange. destruct (Hrnd y Hrange) as [z [Hz Hzy]].
  exists z. split; [exact Hz | lra].
Qed.

Lemma lit_near (K : R) : -1024 <= K <= 1024 -> near eps (Binary64.lit rnd K) K.
Proof. intros HK. apply Hrnd, HK. Qed.

(** Step 1 and step 2 on a byte. *)
Lemma inverse_byte (c : Z) :
  byte c ->
  near (20 * eps)
    (Binary64.inverse_transfer rnd pow (Binary64.normalised rnd c))
    (srgb_inverse (IZR c / 255)) /\
  0 <= srgb_inverse (IZR c / 255) <= 1.
Proof.
  intros [Hc0 Hc255].
  pose proof eps_bounds as He.
  pose proof (IZR_le _ _ Hc0) as Hc0'. pose proof (IZR_le _ _ Hc255) as Hc255'.
  set (x := IZR c / 255).
  assert (Hx : 0 <= x <= 1) by (unfold x; lra).
  unfold Binary64.normalised, Binary64.div, of_Z.
  rewrite div_Num by lra. cbn [Binary64.fl]. fold x.
  destruct (Hrnd x ltac:(lra)) as [x' [-> Hx']].
  unfold Binary64.inverse_transfer.
  destruct (lit_near 0.04045 ltac:(lra)) as [t [-> Ht]].
  unfold le, srgb_inverse.
  destruct (Z_le_gt_dec c 10) as [Hsmall | Hbig].
  - assert (Hx10 : x <= 10 / 255).
    { apply IZR_le in Hsmall. unfold x. lra. }
    destruct (Rle_dec x' t); [| lra].
    destruct (Rle_dec x 0.04045); [| lra].
    split; [| lra].
    destruct (lit_near 12.92 ltac:(lra)) as [d [-> Hd]].
    unfold Binary64.div. rewrite div_Num by lra. cbn [Binary64.fl].
    pose proof (quotient_near x' d x 12.92 eps eps 1 ltac:(lra) ltac:(lra)
                  ltac:(lra) ltac:(lra) ltac:(lra)) as Hq0.
    destruct (rnd_near (eps + 1 * eps) (x / 12.92) (x' / d) Hq0 ltac:(lra))
      as [z [-> Hz]].
    exists z. split; [reflexivity | lra].
  - assert (Hx11 : 11 / 255 <= x).
    { assert (H : (11 <= c)%Z) by lia. apply IZR_le in H. unfold x. lra. }
    destruct (Rle_dec x' t); [lra |].
    destruct (Rle_dec x 0.04045); [lra |].
    set (b := (x + 0.055) / 1.055).
    assert (Hb : 0.093 <= b <= 1) by (unfold b; lra).
    assert (Hexact : 0 <= Rpower b 2.4 <= 1).
    { split; [apply Rpower_nonneg |].
      apply Rle_trans with (Rpower 1 2.4); [apply Rle_Rpower_l; lra |].
      unfold Rpower. rewrite ln_1, Rmult_0_r, exp_0. lra. }
    split; [| exact Hexact].
    destruct (lit_near 0.055 ltac:(lra)) as [k1 [-> Hk1]].
    destruct (lit_near 1.055 ltac:(lra)) as [k2 [-> Hk2]].
    unfold Binary64.add. cbn [add Binary64.fl].
    destruct (rnd_near (2 * eps) (x + 0.055) (x' + k1) ltac:(lra) ltac:(lra))
      as [s [-> Hs]].
    unfold Binary64.div. rewrite div_Num by lra. cbn [Binary64.fl].
    pose proof (quotient_near s k2 (x + 0.055) 1.055 (2 * eps + eps) eps 1
                  ltac:(lra) ltac:(lra) ltac:(lra) ltac:(lra)
                  ltac:(fold b; lra)) as Hq0.
    fold b in Hq0.
    destruct (rnd_near (2 * eps + eps + 1 * eps) b (s / k2) Hq0 ltac:(lra))
      as [b' [-> Hb']].
    destruct (proj1 Hpow b' ltac:(lra)) as [z [-> Hz]].
    pose proof (Rpower_lipschitz 2.4 3 0.09 1.1 b' b ltac:(lra) ltac:(lra)
                  ltac:(lra) slope_24) as Hlip.
    assert (Habs : Rabs (b' - b) <= 5 * eps) by (apply Rabs_le; lra).
    exists z. split; [reflexivity | lra].
Qed.

Lemma product_near (m y l A d : R) :
  - A <= m <= A -> l - d <= y <= l + d -> 0 <= d ->
  m * l - A * d <= m * y <= m * l + A * d.
Proof. intros Hm Hy Hd. nra. Qed.

(** Step 3 on values that are near those of the exact computation. *)
Lemma row_near (M : mat3 R) (i : nat) (v0 v1 v2 : num) (l0 l1 l2 : R) :
  (forall j, (j < 3)%nat -> -4 <= ix M i j <= 4) ->
  near (20 * eps) v0 l0 -> near (20 * eps) v1 l1 -> near (20 * eps) v2 l2 ->
  0 <= l0 <= 1 -> 0 <= l1 <= 1 -> 0 <= l2 <= 1 ->
  near (250 * eps) (Binary64.row_times rnd M i (v0, v1, v2))
    (row_dot M i (l0, l1, l2)) /\
  -12 <= row_dot M i (l0, l1, l2) <= 12.
Proof.
  intros HM [y0 [-> H0]] [y1 [-> H1]] [y2 [-> H2]] Hl0 Hl1 Hl2.
  pose proof eps_bounds as He.
  pose proof (HM 0%nat ltac:(lia)) as Hm0.
  pose proof (HM 1%nat ltac:(lia)) as Hm1.
  pose proof (HM 2%nat ltac:(lia)) as Hm2.
  unfold Binary64.row_times, row_dot. cbn [nth3].
  set (m0 := ix M i 0) in *. set (m1 := ix M i 1) in *.
  set (m2 := ix M i 2) in *.
  unfold Binary64.add, Binary64.mul. cbn [mul Binary64.fl].
  pose proof (product_near m0 y0 l0 4 (20 * eps) Hm0 H0 ltac:(lra)) as P0.
  pose proof (product_near m1 y1 l1 4 (20 * eps) Hm1 H1 ltac:(lra)) as P1.
  pose proof (product_near m2 y2 l2 4 (20 * eps) Hm2 H2 ltac:(lra)) as P2.
  assert (B0 : -4 <= m0 * l0 <= 4) by nra.
  assert (B1 : -4 <= m1 * l1 <= 4) by nra.
  assert (B2 : -4 <= m2 * l2 <= 4) by nra.
  destruct (rnd_near _ _ _ P0 ltac:(lra)) as [p0 [-> Hp0]].
  destruct (rnd_near _ _ _ P1 ltac:(lra)) as [p1 [-> Hp1]].
  destruct (rnd_near _ _ _ P2 ltac:(lra)) as [p2 [-> Hp2]].
  cbn [add Binary64.fl].
  destruct (rnd_near (2 * (4 * (20 * eps) + eps)) (m0 * l0 + m1 * l1)
              (p0 + p1) ltac:(lra) ltac:(lra)) as [s [-> Hs]].
  cbn [add Binary64.fl].
  destruct (rnd_near (3 * (4 * (20 * eps) + eps) + eps)
              (m0 * l0 + m1 * l1 + m2 * l2)
              (s + p2) ltac:(lra) ltac:(lra)) as [s' [-> Hs']].
  split; [| lra].
  exists s'. split; [reflexivity | lra].
Qed.

(** The power at the threshold of the forward transfer function. *)
Lemma threshold_power :
  0.0904738 < Rpower 0.0031308 (1 / 2.4) < 0.0904739.
Proof.
  pose proof (Rpower_inv24_pow 0.0031308 ltac:(lra)) as Hp.
  split.
  - apply (pow_lt_inv _ _ 12); [lra | apply Rpower_nonneg |].
    rewrite Hp.
    apply (pow_frac_lt _ _ 904738 10000000 31308 10000000);
      [lra | lra | reflexivity | reflexivity | reflexivity].
  - apply (pow_lt_inv _ _ 12); [apply Rpower_nonneg | lra |].
    rewrite Hp.
    apply (pow_frac_lt _ _ 31308 10000000 904739 10000000);
      [lra | lra | reflexivity | reflexivity | reflexivity].
Qed.

Lemma Rpower_inv24_le (x : R) : 0 < x <= 13 -> Rpower x (1 / 2.4) <= 13.
Proof.
  intros Hx.
  apply Rle_trans with (Rpower 13 (1 / 2.4)); [apply Rle_Rpower_l; lra |].
  rewrite <- (Rpower_1 13) at 2 by lra.
  apply Rle_Rpower; lra.
Qed.

(** Step 4 on a value within [d] of that of the exact computation; the bound
    covers the jump of the function at its threshold. *)
Lemma forward_near (d r' r : R) :
  0 <= d <= 1e-3 -> r - d <= r' <= r + d -> -12 <= r <= 12 ->
  near (170 * d + 2e-7) (Binary64.forward_transfer rnd pow (Num r'))
    (srgb_forward r).
Proof.
  intros Hd Hr' Hr.
  pose proof eps_bounds as He.
  pose proof threshold_power as HP.
  set (P := Rpower 0.0031308 (1 / 2.4)) in *.
  assert (Hlip : forall a, 0.003 <= a <= 64 ->
            - (140 * Rabs (a - 0.0031308)) <= Rpower a (1 / 2.4) - P
            <= 140 * Rabs (a - 0.0031308)).
  { intros a Ha.
    apply (Rpower_lipschitz (1 / 2.4) 140 0.003 64);
      [lra | lra | lra | exact slope_inv24]. }
  unfold Binary64.forward_transfer.
  destruct (lit_near 0.0031308 ltac:(lra)) as [t [-> Ht]].
  unfold le, srgb_forward.
  destruct (Rle_dec r' t) as [Hlow | Hhigh].
  - (* the linear branch is computed *)
    destruct (lit_near 12.92 ltac:(lra)) as [k [-> Hk]].
    unfold Binary64.mul. cbn [mul Binary64.fl].
    assert (Hkr : 12.92 * r' - 13 * eps <= k * r' <= 12.92 * r' + 13 * eps)
      by nra.
    destruct (rnd_near (13 * eps) (12.92 * r') (k * r') Hkr ltac:(lra))
      as [z [-> Hz]].
    exists z. split; [reflexivity |].
    destruct (Rle_dec r 0.0031308) as [Hr_low | Hr_high]; [lra |].
    assert (Hra : Rabs (r - 0.0031308) <= d + eps) by (apply Rabs_le; lra).
    specialize (Hlip r ltac:(lra)). lra.
  - (* the power branch is computed *)
    assert (Hr'pos : 0.003 <= r' <= 13) by lra.
    destruct (proj2 Hpow r' ltac:(lra)) as [z [-> Hz]].
    pose proof (Rpower_inv24_le r' ltac:(lra)) as Hz13.
    pose proof (Rpower_nonneg r' (1 / 2.4)) as Hz0.
    destruct (lit_near 1.055 ltac:(lra)) as [k [-> Hk]].
    destruct (lit_near 0.055 ltac:(lra)) as [k0 [-> Hk0]].
    unfold Binary64.sub, Binary64.mul. cbn [mul Binary64.fl].
    assert (Hkz : 1.055 * Rpower r' (1 / 2.4) - 16 * eps <= k * z
                  <= 1.055 * Rpower r' (1 / 2.4) + 16 * eps) by nra.
    destruct (rnd_near (16 * eps) _ (k * z) Hkz ltac:(lra)) as [w [-> Hw]].
    cbn [sub Binary64.fl].
    destruct (rnd_near (18 * eps) (1.055 * Rpower r' (1 / 2.4) - 0.055)
                (w - k0) ltac:(lra) ltac:(lra)) as [f [-> Hf]].
    exists f. split; [reflexivity |].
    destruct (Rle_dec r 0.0031308) as [Hr_low | Hr_high].
    + assert (Hra : Rabs (r' - 0.0031308) <= d + eps)
        by (apply Rabs_le; lra).
      specialize (Hlip r' ltac:(lra)). lra.
    + pose proof (Rpower_lipschitz (1 / 2.4) 140 0.003 64 r' r ltac:(lra)
                    ltac:(lra) ltac:(lra) slope_inv24) as Hl.
      assert (Hra : Rabs (r' - r) <= d) by (apply Rabs_le; lra).
      lra.
Qed.

(** Steps 1 to 4 for one output channel. *)
Lemma channel_near (M : mat3 R) (i : nat) (r g b : Z) :
  (forall j, (j < 3)%nat -> -4 <= ix M i j <= 4) ->
  byte r -> byte g -> byte b ->
  near 3e-7 (Binary64.encoded_channel rnd pow M i r g b)
    (srgb_forward (row_dot M i (linear_of r g b))).
Proof.
  intros HM Hr Hg Hb. unfold Binary64.encoded_channel, linear_of.
  destruct (inverse_byte r Hr) as [Nr Rr].
  destruct (inverse_byte g Hg) as [Ng Rg].
  destruct (inverse_byte b Hb) as [Nb Rb].
  destruct (row_near M i _ _ _ _ _ _ HM Nr Ng Nb Rr Rg Rb)
    as [[r' [-> Hr']] Hrange].
  pose proof eps_bounds as He.
  destruct (forward_near (250 * eps) r' _ ltac:(lra) Hr' Hrange)
    as [f [Hf Hnear]].
  exists f. split; [exact Hf | lra].
Qed.

(** Step 5 on a value near that of the exact computation. *)
Lemma quantize_near (f' f : R) :
  f - 3e-7 <= f' <= f + 3e-7 ->
  exists n : Z,
    Math_round (Binary64.mul rnd (clamp01 (Num f')) (Num 255)) = of_Z n /\
    ToUint8Clamp (of_Z n) = n /\
    Rabs (IZR n - clamp_unit f * 255) <= / 2 + 1e-4.
Proof.
  intros Hf. pose proof eps_bounds as He.
  rewrite clamp01_real.
  pose proof (clamp_unit_range f') as Hc'.
  assert (Hc : clamp_unit f - 3e-7 <= clamp_unit f' <= clamp_unit f + 3e-7).
  { unfold clamp_unit, Rmax, Rmin.
    destruct (Rle_dec f' 1); destruct (Rle_dec f 1);
      repeat match goal with
             | |- context [Rle_dec ?u ?v] => destruct (Rle_dec u v)
             end; lra. }
  unfold Binary64.mul. cbn [mul Binary64.fl].
  destruct (rnd_near (255 * 3e-7) (clamp_unit f * 255) (clamp_unit f' * 255)
              ltac:(lra) ltac:(lra)) as [s [-> Hs]].
  cbn [Math_round].
  set (n := Zfloor (s + / 2)).
  pose proof (Zfloor_bound (s + / 2)) as Hn. fold n in Hn.
  assert (Hbyte : byte n).
  { split.
    - apply Zfloor_lub. cbn [IZR]. lra.
    - assert (H : IZR n < IZR 256) by (cbn [IZR]; lra).
      apply lt_IZR in H. lia. }
  exists n. split; [reflexivity |].
  split; [apply ToUint8Clamp_byte, Hbyte |].
  apply Rabs_le. lra.
Qed.

End Accuracy.

(** X27.  In binary64 arithmetic the transform follows the real formulas of
    the specification: for every rounding that is accurate to 1e-12 up to
    1024 (binary64's is) and every [Math.pow] accurate to 1e-12 at the two
    exponents of the program, every matrix with entries between -4 and 4
    and every 8-bit pixel, the byte the loop stores in a colour channel is
    within 1/2 + 0.0001 of the exact value of that channel: the channels
    divided by 255, decoded, multiplied by the matrix row, encoded, clamped
    and scaled by 255, all over the reals.  The bound covers the jump of
    the forward transfer function at its threshold. *)
Theorem transform_accuracy (rnd : R -> num) (pow : num -> num -> num)
    (M : mat3 R) (r g b a : Z) (rest : list Z) :
  Binary64.accurate rnd -> Binary64.accurate_pow rnd pow ->
  moderate M ->
  byte r -> byte g -> byte b -> byte a ->
  exists nr ng nb : Z,
    Binary64.pixel_loop rnd pow (of_reals M) (r :: g :: b :: a :: rest)
    = nr :: ng :: nb :: a :: Binary64.pixel_loop rnd pow (of_reals M) rest /\
    Rabs (IZR nr - scaled_channel M 0 r g b) <= / 2 + 1e-4 /\
    Rabs (IZR ng - scaled_channel M 1 r g b) <= / 2 + 1e-4 /\
    Rabs (IZR nb - scaled_channel M 2 r g b) <= / 2 + 1e-4.
Proof.
  intros Hrnd Hpow HM Hr Hg Hb Ha.
  cbn [Binary64.pixel_loop]. rewrite transform_channels.
  change (ToUint8Clamp (of_Z a)) with (ToUint8Clamp (Num (IZR a))).
  rewrite (ToUint8Clamp_byte a Ha).
  assert (Hch : forall i, (i < 3)%nat ->
            exists n : Z,
              Math_round
                (Binary64.mul rnd
                   (clamp01 (Binary64.encoded_channel rnd pow M i r g b))
                   (Num 255)) = of_Z n /\
              ToUint8Clamp (of_Z n) = n /\
              Rabs (IZR n - scaled_channel M i r g b) <= / 2 + 1e-4).
  { intros i Hi.
    destruct (channel_near rnd pow Hrnd Hpow M i r g b
                (fun j Hj => HM i j Hi Hj) Hr Hg Hb) as [f' [-> Hf']].
    apply (quantize_near rnd Hrnd f' _ Hf'). }
  destruct (Hch 0%nat ltac:(lia)) as [nr [-> [Hsr Hnr]]].
  destruct (Hch 1%nat ltac:(lia)) as [ng [-> [Hsg Hng]]].
  destruct (Hch 2%nat ltac:(lia)) as [nb [-> [Hsb Hnb]]].
  exists nr, ng, nb. rewrite Hsr, Hsg, Hsb.
  split; [reflexivity |]. now repeat split.
Qed.

Lemma exact_accurate : Binary64.accurate Num.
Proof.
  intros x _. exists x. pose proof eps_bounds. split; [reflexivity | lra].
Qed.

Lemma exact_accurate_pow : Binary64.accurate_pow Num Math_pow.
Proof.
  pose proof eps_bounds as He.
  split; intros x Hx.
  - exists (Rpower x 2.4). split; [| lra].
    unfold Binary64.lit. apply Math_pow_pos; lra.
  - exists (Rpower x (1 / 2.4)). split; [| lra].
    unfold Binary64.div, Binary64.lit.
    rewrite div_Num by lra. cbn [Binary64.fl]. apply Math_pow_pos; lra.
Qed.

Lemma protan_full_moderate : moderate Example.protan_full.
Proof.
  intros i j Hi Hj.
  destruct i as [| [| [| i]]]; try lia;
    destruct j as [| [| [| j]]]; try lia;
    cbn [ix nth3 Example.protan_full]; lra.
Qed.

Lemma transform_accuracy_witness :
  exists nr ng nb : Z,
    Binary64.pixel_loop Num Math_pow (of_reals Example.protan_full)
      [255; 128; 0; 255]%Z
    = nr :: ng :: nb :: 255%Z
      :: Binary64.pixel_loop Num Math_pow (of_reals Example.protan_full) [] /\
    Rabs (IZR nr - scaled_channel Example.protan_full 0 255 128 0)
    <= / 2 + 1e-4 /\
    Rabs (IZR ng - scaled_channel Example.protan_full 1 255 128 0)
    <= / 2 + 1e-4 /\
    Rabs (IZR nb - scaled_channel Example.protan_full 2 255 128 0)
    <= / 2 + 1e-4.
Proof.
  apply (transform_accuracy Num Math_pow Example.protan_full 255 128 0 255 []
           exact_accurate exact_accurate_pow protan_full_moderate);
    unfold byte; lia.
Defined.

(** *** Greys *)

(** The exact value of a grey's channel, for rows that sum to 1 up to the
    sixth decimal. *)
Lemma scaled_channel_grey (M : mat3 R) (i : nat) (v : Z) :
  (i < 3)%nat -> unit_rows M -> byte v ->
  IZR v - 0.09 <= scaled_channel M i v v v <= IZR v + 0.09.
Proof.
  intros Hi Hrows Hv.
  pose proof eps_bounds as He.
  destruct (inverse_byte Num Math_pow exact_accurate exact_accurate_pow v Hv)
    as [_ Hl].
  unfold scaled_channel, row_dot, linear_of. cbn [nth3].
  set (l := srgb_inverse (IZR v / 255)) in *.
  replace (ix M i 0 * l + ix M i 1 * l + ix M i 2 * l)
    with ((ix M i 0 + ix M i 1 + ix M i 2) * l) by ring.
  pose proof (Hrows i Hi) as Hsum.
  set (s := ix M i 0 + ix M i 1 + ix M i 2) in *.
  assert (Hsl : l - 2e-6 <= s * l <= l + 2e-6) by nra.
  destruct (forward_near Num Math_pow exact_accurate exact_accurate_pow
              2e-6 (s * l) l ltac:(lra) Hsl ltac:(lra)) as [f [Hf Hnear]].
  assert (Hexact : Binary64.forward_transfer Num Math_pow (Num (s * l))
                   = Num (srgb_forward (s * l))).
  { rewrite <- linearToSrgb_real, <- exact_linearToSrgb.
    unfold Binary64.forward_transfer, Binary64.linearToSrgb.
    replace (Num 1.0) with (Num 1) by (f_equal; lra). reflexivity. }
  rewrite Hexact in Hf. injection Hf as <-.
  assert (Hrt : srgb_forward l = IZR v / 255)
    by exact (srgb_round_trip v Hv).
  rewrite Hrt in Hnear.
  destruct Hv as [H0 H255]. apply IZR_le in H0, H255.
  set (f := srgb_forward (s * l)) in *.
  unfold clamp_unit, Rmax, Rmin.
  destruct (Rle_dec f 1); destruct (Rle_dec 0 _); lra.
Qed.

(** X9.  Greys are kept, in binary64 too: for every rounding and [Math.pow]
    as accurate as X27 asks, and every matrix of reals with entries between
    -4 and 4 whose rows each sum to 1 up to the sixth decimal, a pixel with
    equal red, green and blue (white included) is transformed to itself. *)
Theorem grey_is_fixed (rnd : R -> num) (pow : num -> num -> num)
    (M : mat3 R) (v a : Z) (rest : list Z) :
  Binary64.accurate rnd -> Binary64.accurate_pow rnd pow ->
  moderate M -> unit_rows M -> byte v -> byte a ->
  Binary64.pixel_loop rnd pow (of_reals M) (v :: v :: v :: a :: rest)
  = v :: v :: v :: a :: Binary64.pixel_loop rnd pow (of_reals M) rest.
Proof.
  intros Hrnd Hpow HM Hrows Hv Ha.
  cbn [Binary64.pixel_loop]. rewrite transform_channels.
  change (ToUint8Clamp (of_Z a)) with (ToUint8Clamp (Num (IZR a))).
  rewrite (ToUint8Clamp_byte a Ha).
  assert (Hch : forall i, (i < 3)%nat ->
            ToUint8Clamp
              (Math_round
                 (Binary64.mul rnd
                    (clamp01 (Binary64.encoded_channel rnd pow M i v v v))
                    (Num 255))) = v).
  { intros i Hi.
    destruct (channel_near rnd pow Hrnd Hpow M i v v v
                (fun j Hj => HM i j Hi Hj) Hv Hv Hv) as [f' [-> Hf']].
    destruct (quantize_near rnd Hrnd f' _ Hf') as [n [-> [Hn Hnear]]].
    rewrite Hn.
    change (clamp_unit (srgb_forward (row_dot M i (linear_of v v v))) * 255)
      with (scaled_channel M i v v v) in Hnear.
    pose proof (scaled_channel_grey M i v Hi Hrows Hv) as Hgrey.
    assert (H1 : IZR (n - v) < IZR 1).
    { rewrite minus_IZR. cbn [IZR]. unfold Rabs in Hnear.
      destruct (Rcase_abs _); lra. }
    assert (H2 : IZR (-1) < IZR (n - v)).
    { rewrite minus_IZR. cbn [IZR IPR]. unfold Rabs in Hnear.
      destruct (Rcase_abs _); lra. }
    apply lt_IZR in H1, H2. lia. }
  now rewrite !Hch by lia.
Qed.

Lemma protan_full_rows : unit_rows Example.protan_full.
Proof.
  intros i Hi. destruct i as [| [| [| i]]]; try lia;
    unfold Example.protan_full; cbn [ix nth3]; lra.
Qed.

Lemma grey_is_fixed_witness :
  Binary64.pixel_loop Num Math_pow (of_reals Example.protan_full)
    [255; 255; 255; 255]%Z
  = [255; 255; 255; 255]%Z.
Proof.
  apply (grey_is_fixed Num Math_pow Example.protan_full 255 255 []
           exact_accurate exact_accurate_pow protan_full_moderate
           protan_full_rows);
    unfold byte; lia.
Defined.

(** ** Interpolation at its end points *)

(** X14.  Interpolation is exact at its end points: for matrices of reals
    [A] and [B], [lerpMatrix A B 0] is [A] and [lerpMatrix A B 1] is [B]. *)
Theorem lerpMatrix_end_points (A B : mat3 R) :
  lerpMatrix (of_reals A) (of_reals B) (Num 0) = of_reals A /\
  lerpMatrix (of_reals A) (of_reals B) (Num 1) = of_reals B.
Proof.
  split; [| apply lerpMatrix_one].
  rewrite lerpMatrix_real.
  destruct A as [[[[a00 a01] a02] [[a10 a11] a12]] [[a20 a21] a22]].
  destruct B as [[[[b00 b01] b02] [[b10 b11] b12]] [[b20 b21] b22]].
  cbn [build3 ix nth3 of_reals map3].
  repeat (f_equal; try lra).
Qed.

(** ** The order of the keys in the JSON object *)

Lemma gt_sub_le (x y : num) :
  isNaN x = false -> isNaN y = false ->
  ((x - y >? Num 0)%js = false <-> (x <=? y)%js = true).
Proof.
  destruct x as [| [] | x]; destruct y as [| [] | y]; try discriminate;
    intros _ _; cbn; try tauto; try (split; congruence).
  unfold gt, lt, le.
  destruct (Rlt_dec 0 (x - y)); destruct (Rle_dec x y);
    split; intros; try reflexivity; try discriminate; lra.
Qed.

Lemma le_num_trans (x y z : num) :
  (x <=? y)%js = true -> (y <=? z)%js = true -> (x <=? z)%js = true.
Proof.
  destruct x as [| [] | x]; destruct y as [| [] | y];
    destruct z as [| [] | z]; cbn; try congruence.
  unfold le.
  destruct (Rle_dec x y); destruct (Rle_dec y z); destruct (Rle_dec x z);
    try congruence; lra.
Qed.

Lemma le_num_antisym (x y : num) :
  (x <=? y)%js = true -> (y <=? x)%js = true -> x = y.
Proof.
  destruct x as [| [] | x]; destruct y as [| [] | y]; cbn; try congruence.
  unfold le. destruct (Rle_dec x y); destruct (Rle_dec y x); try congruence.
  intros _ _. f_equal. lra.
Qed.

Lemma insert_by_perm (cmp : num -> num -> num) (x : num) (l : list num) :
  Permutation (insert_by cmp x l) (x :: l).
Proof.
  induction l as [| y l IH]; cbn [insert_by]; [reflexivity |].
  destruct (cmp x y >? Num 0)%js; [| reflexivity].
  rewrite IH. apply perm_swap.
Qed.

Lemma sort_by_perm (cmp : num -> num -> num) (l : list num) :
  Permutation (sort_by cmp l) l.
Proof.
  induction l as [| x l IH]; cbn [sort_by]; [reflexivity |].
  rewrite insert_by_perm. now constructor.
Qed.

Lemma insert_by_ascending (x : num) (l : list num) :
  isNaN x = false -> Forall (fun y => isNaN y = false) l ->
  ascending l ->
  ascending (insert_by (fun a b => (a - b)%js) x l).
Proof.
  intros Hx Hnn Hs. induction Hs as [| y l Hs IH Hall]; cbn [insert_by].
  - repeat constructor.
  - apply Forall_cons_iff in Hnn as [Hy Hnn].
    destruct (x - y >? Num 0)%js eqn:Hgt.
    + assert (Hyx : (y <=? x)%js = true).
      { destruct (y <=? x)%js eqn:E; [reflexivity |].
        destruct x as [| [] | x]; destruct y as [| [] | y];
          try discriminate; cbn in Hgt, E; try discriminate.
        unfold gt, lt in Hgt. unfold le in E.
        destruct (Rlt_dec 0 (x - y)); destruct (Rle_dec y x);
          try discriminate; lra. }
      constructor; [exact (IH Hnn) |].
      apply Forall_forall. intros z Hz.
      apply (Permutation_in _ (insert_by_perm _ x l)) in Hz.
      destruct Hz as [<- | Hz]; [exact Hyx |].
      rewrite Forall_forall in Hall. auto.
    + apply (gt_sub_le x y Hx Hy) in Hgt.
      constructor; [constructor; assumption |].
      constructor; [exact Hgt |].
      rewrite Forall_forall in Hall |- *. intros z Hz.
      exact (le_num_trans x y z Hgt (Hall z Hz)).
Qed.

Lemma sort_by_ascending (l : list num) :
  Forall (fun y => isNaN y = false) l ->
  ascending (sort_by (fun a b => (a - b)%js) l).
Proof.
  induction l as [| x l IH]; intros Hnn; cbn [sort_by]; [constructor |].
  apply Forall_cons_iff in Hnn as [Hx Hnn].
  apply insert_by_ascending; [exact Hx | | exact (IH Hnn)].
  rewrite Forall_forall in Hnn |- *. intros z Hz.
  apply Hnn. exact (Permutation_in _ (sort_by_perm _ l) Hz).
Qed.

Lemma ascending_unique (l1 l2 : list num) :
  ascending l1 -> ascending l2 -> Permutation l1 l2 -> l1 = l2.
Proof.
  intros H1. revert l2.
  induction H1 as [| a l1 Hs1 IH Hall1]; intros l2 H2 Hp.
  - apply Permutation_nil in Hp. now subst.
  - destruct H2 as [| b l2 Hs2 Hall2].
    + apply Permutation_sym, Permutation_nil in Hp. discriminate.
    + rewrite Forall_forall in Hall1, Hall2.
      assert (Hab : a = b).
      { assert (Ha : In a (b :: l2))
          by (apply (Permutation_in _ Hp); now left).
        assert (Hb : In b (a :: l1))
          by (apply (Permutation_in _ (Permutation_sym Hp)); now left).
        destruct Ha as [-> | Ha]; [reflexivity |].
        destruct Hb as [-> | Hb]; [reflexivity |].
        apply le_num_antisym; auto. }
      subst b. f_equal. apply IH; [exact Hs2 |].
      exact (Permutation_cons_inv Hp).
Qed.

Lemma filter_perm {A : Type} (f : A -> bool) (l1 l2 : list A) :
  Permutation l1 l2 -> Permutation (filter f l1) (filter f l2).
Proof.
  induction 1 as [| x l1 l2 Hp IH | x y l | l1 l2 l3 H12 IH12 H23 IH23];
    cbn [filter].
  - constructor.
  - destruct (f x); [now constructor | exact IH].
  - destruct (f x); destruct (f y); try reflexivity. apply perm_swap.
  - exact (Permutation_trans IH12 IH23).
Qed.

Lemma sampleKeys_perm (t1 t2 : samples) :
  Permutation t1 t2 -> sampleKeys_of t1 = sampleKeys_of t2.
Proof.
  intros Hp. unfold sampleKeys_of.
  set (f := fun v => negb (isNaN v)).
  assert (Hnn : forall t : samples,
            Forall (fun y => isNaN y = false)
              (filter f (map parseFloat (keys t)))).
  { intros t. apply Forall_forall. intros z Hz.
    apply filter_In in Hz as [_ Hz]. now apply negb_true_iff in Hz. }
  apply ascending_unique; try (apply sort_by_ascending, Hnn).
  apply Permutation_trans with (filter f (map parseFloat (keys t1)));
    [apply sort_by_perm |].
  apply Permutation_trans with (filter f (map parseFloat (keys t2)));
    [| apply Permutation_sym, sort_by_perm].
  apply filter_perm, Permutation_map. unfold keys. now apply Permutation_map.
Qed.

Lemma get_In {V : Type} (o : object V) (k : string) (v : V) :
  NoDup (keys o) -> (get o k = Some v <-> In (k, v) o).
Proof.
  induction o as [| [k' v'] o IH]; cbn [get keys map fst].
  - split; [discriminate | contradiction].
  - intros Hnd. apply NoDup_cons_iff in Hnd as [Hk' Hnd].
    destruct (String.eqb_spec k' k) as [-> | Hne].
    + split.
      * intros [= ->]. now left.
      * intros [[= ->] | Hin]; [reflexivity |].
        exfalso. apply Hk'. apply (in_map fst) in Hin. exact Hin.
    + rewrite (IH Hnd). split; [intros Hin; now right |].
      intros [[= -> _] | Hin]; [contradiction | exact Hin].
Qed.

Lemma get_perm {V : Type} (o1 o2 : object V) (k : string) :
  NoDup (keys o1) -> Permutation o1 o2 -> get o1 k = get o2 k.
Proof.
  intros Hnd Hp.
  assert (Hnd2 : NoDup (keys o2)).
  { apply (Permutation_NoDup (l := keys o1)); [| exact Hnd].
    unfold keys. now apply Permutation_map. }
  destruct (get o1 k) as [v1 |] eqn:E1.
  - apply (get_In o1 k v1 Hnd) in E1.
    symmetry. apply (get_In o2 k v1 Hnd2).
    exact (Permutation_in _ Hp E1).
  - destruct (get o2 k) as [v2 |] eqn:E2; [| reflexivity].
    apply (get_In o2 k v2 Hnd2) in E2.
    apply (Permutation_in _ (Permutation_sym Hp)) in E2.
    apply (get_In o1 k v2 Hnd) in E2. congruence.
Qed.

(** X16.  The order of the severity keys in the JSON object does not
    matter: two states whose tables hold, for a mode, the same bindings in
    different orders resolve every severity to the same result. *)
Theorem resolve_key_order (st1 st2 : state) (T1 T2 : tables) (mode : string)
    (t1 t2 : samples) (severity : num) :
  MACHADO_TABLE st1 = Some T1 -> get T1 mode = Some t1 ->
  MACHADO_TABLE st2 = Some T2 -> get T2 mode = Some t2 ->
  distinct_keys t1 -> Permutation t1 t2 ->
  getMachadoMatrixSync st1 mode severity
  = getMachadoMatrixSync st2 mode severity.
Proof.
  intros HT1 Hm1 HT2 Hm2 Hnd Hp.
  unfold getMachadoMatrixSync.
  rewrite HT1, Hm1, HT2, Hm2, (sampleKeys_perm t1 t2 Hp).
  destruct (sampleKeys_of t2) as [| first rest]; [reflexivity |].
  rewrite !(get_perm t1 t2 _ Hnd Hp).
  destruct (find_interval _ _ _) as [k0 [k1 |]]; [| reflexivity].
  now rewrite !(get_perm t1 t2 _ Hnd Hp).
Qed.

Lemma resolve_key_order_witness :
  getMachadoMatrixSync Example.loaded "protan" (Num 0.25)
  = getMachadoMatrixSync
      (State (Some [("protan"%string, rev Example.protan_samples)]) [])
      "protan" (Num 0.25).
Proof.
  apply (resolve_key_order Example.loaded
           (State (Some [("protan"%string, rev Example.protan_samples)]) [])
           Example.source
           [("protan"%string, rev Example.protan_samples)] "protan"
           Example.protan_samples (rev Example.protan_samples) (Num 0.25)
           eq_refl eq_refl eq_refl eq_refl).
  - unfold distinct_keys, Example.protan_samples. cbn [keys map fst].
    repeat constructor; simpl; intuition discriminate.
  - apply Permutation_rev.
Defined.

(** ** Loading, then simulating *)

Lemma load_outcome (fetch : string -> outcome response) (url : option string)
    (st : state) :
  (forall T, fst (loadMachadoMatrices fetch url st) = Return T ->
     MACHADO_TABLE (snd (loadMachadoMatrices fetch url st)) = Some T) /\
  (forall e, fst (loadMachadoMatrices fetch url st) = Throw e ->
     MACHADO_TABLE (snd (loadMachadoMatrices fetch url st)) = None).
Proof.
  unfold loadMachadoMatrices.
  destruct (MACHADO_TABLE st) as [T0 |] eqn:HT.
  - cbn [fst snd]. split; [intros T [= <-]; exact HT | discriminate].
  - destruct (fetch _) as [res | e0]; cbn [fst snd MACHADO_TABLE];
      [| split; [discriminate | reflexivity]].
    destruct (ok res); cbn [negb fst snd MACHADO_TABLE];
      [| split; [discriminate | reflexivity]].
    destruct (json res) as [T1 | e1]; cbn [fst snd MACHADO_TABLE].
    + split; [intros T [= <-]; reflexivity | discriminate].
    + split; [discriminate | reflexivity].
Qed.

(** X17.  Loading and simulating compose: in the state a load leaves, if the
    load returned a table then [applyCvdSimulation] without a severity
    transforms a non-empty canvas with the matrix of the largest sample of
    that table's mode (the mode's samples being well formed); if the load
    threw, [applyCvdSimulation] draws nothing and does not throw. *)
Theorem load_then_simulate (fetch : string -> outcome response)
    (url : option string) (st : state) (mode : string) (srcCanvas : canvas) :
  (forall T table key k m,
     fst (loadMachadoMatrices fetch url st) = Return T ->
     get T mode = Some table -> well_formed table ->
     sample table key k m -> largest table k ->
     width srcCanvas <> 0%Z -> height srcCanvas <> 0%Z ->
     applyCvdSimulation (snd (loadMachadoMatrices fetch url st))
       srcCanvas mode None
     = Return (Some (pixel_loop m (data srcCanvas)))) /\
  (forall e severity,
     fst (loadMachadoMatrices fetch url st) = Throw e ->
     applyCvdSimulation (snd (loadMachadoMatrices fetch url st))
       srcCanvas mode severity
     = Return None).
Proof.
  destruct (load_outcome fetch url st) as [Hret Hthrow]. split.
  - intros T table key k m Hload Hmode Hwf Hs Hmax Hw Hh.
    unfold applyCvdSimulation.
    rewrite (resolve_high _ T mode table 1.0 key k m (Hret T Hload)
               Hmode Hwf Hs Hmax).
    + apply Z.eqb_neq in Hw, Hh. now rewrite Hw, Hh.
    + destruct (well_formed_sample _ _ _ _ Hwf Hs) as [_ [[H0 H1] _]].
      rewrite clamp_unit_id by lra. lra.
  - intros e severity Hload.
    unfold applyCvdSimulation, getMachadoMatrixSync.
    now rewrite (Hthrow e Hload).
Qed.

Lemma load_then_simulate_witness :
  applyCvdSimulation
    (snd (loadMachadoMatrices (Example.serve Example.source) None initial))
    Cases.two_pixels "protan" None
  = Return (Some (pixel_loop (of_reals Example.protan_full)
                    (data Cases.two_pixels))) /\
  applyCvdSimulation
    (snd (loadMachadoMatrices Example.not_found None initial))
    Cases.two_pixels "protan" None
  = Return None.
Proof.
  split.
  - apply (proj1 (load_then_simulate (Example.serve Example.source) None
                    initial "protan" Cases.two_pixels)
             Example.source Example.protan_samples "1.0"%string 1 _
             eq_refl eq_refl protan_samples_well_formed sample_1_0
             protan_largest); discriminate.
  - exact (proj2 (load_then_simulate Example.not_found None initial "protan"
                    Cases.two_pixels) _ None eq_refl).
Defined.

(** * Properties of [main.js] *)

(** ** The size of the canvases *)

Lemma ToUint32_of_Z (n : Z) : (0 <= n < 2 ^ 32)%Z -> ToUint32 (of_Z n) = n.
Proof.
  intros Hn. unfold ToUint32, of_Z.
  assert (H0 : 0 <= IZR n) by (apply IZR_le; lia).
  destruct (Rlt_dec (IZR n) 0); [lra |].
  rewrite (Zfloor_eq n) by lra. apply Z.mod_small. exact Hn.
Qed.

(** X18.  The canvases fit the width limit and keep the image's shape: with
    the limit 480 for a window up to 600 wide and 800 otherwise, an image no
    wider than the limit keeps its size, and a wider one gets exactly the
    limit as width and a height nearest to its own scaled by limit/width;
    the height never exceeds the image's and can round down to 0. *)
Theorem canvas_size_fits (innerWidth imgWidth imgHeight : Z) :
  (0 <= imgWidth)%Z -> (0 <= imgHeight)%Z ->
  let limit := if (innerWidth <=? 600)%Z then 480%Z else 800%Z in
  exists w h : Z,
    canvas_size innerWidth imgWidth imgHeight = (of_Z w, of_Z h) /\
    (0 <= w <= limit)%Z /\ (0 <= h <= imgHeight)%Z /\
    ((imgWidth <= limit)%Z -> w = imgWidth /\ h = imgHeight) /\
    ((limit < imgWidth)%Z ->
       w = limit /\
       nearest_integer (IZR imgHeight * (IZR limit / IZR imgWidth)) h).
Proof.
  intros HW HH limit.
  assert (Hlimit : (0 < limit)%Z) by (unfold limit; destruct (_ <=? _)%Z; lia).
  assert (Hmax : (if (of_Z innerWidth <=? Num 600)%js then Num 480 else Num 800)
                 = of_Z limit).
  { unfold limit, of_Z, le.
    destruct (Rle_dec (IZR innerWidth) 600) as [H | H];
      destruct (Z.leb_spec innerWidth 600) as [H' | H']; try reflexivity.
    - apply (IZR_lt 600) in H'. lra.
    - apply (IZR_le _ 600) in H'. lra. }
  unfold canvas_size. rewrite Hmax. unfold of_Z, gt, lt.
  pose proof (IZR_le _ _ HW) as HW'. pose proof (IZR_le _ _ HH) as HH'.
  pose proof (IZR_lt _ _ Hlimit) as Hlimit'.
  destruct (Rlt_dec (IZR limit) (IZR imgWidth)) as [Hwide | Hfit].
  - rewrite div_Num by lra. cbn [mul Math_round].
    exists limit, (Zfloor (IZR imgHeight * (IZR limit / IZR imgWidth) + / 2)).
    assert (Hw : IZR imgWidth * (IZR limit / IZR imgWidth) = IZR limit)
      by (field; lra).
    rewrite Hw, Zfloor_IZR_half.
    assert (Hscale : 0 < IZR limit / IZR imgWidth < 1).
    { split; [apply Rdiv_lt_0_compat; lra |].
      apply Rmult_lt_reg_r with (IZR imgWidth); [lra |].
      unfold Rdiv. rewrite Rmult_assoc, Rinv_l by lra. lra. }
    split; [reflexivity |]. split; [lia |]. split.
    + apply Zfloor_half_range. split; [apply Rmult_le_pos; lra | nra].
    + split; [intros Hle; apply IZR_le in Hle; lra |].
      intros _. split; [reflexivity | apply Zfloor_half_nearest].
  - cbn [mul Math_round]. exists imgWidth, imgHeight.
    rewrite !Rmult_1_r, !Zfloor_IZR_half.
    assert (Hle : (imgWidth <= limit)%Z) by (apply le_IZR; lra).
    split; [reflexivity |]. split; [split; [apply le_IZR; lra | exact Hle] |].
    split; [split; [apply le_IZR; lra | lia] |].
    split; [tauto | lia].
Qed.

Lemma canvas_size_fits_witness :
  exists w h : Z,
    canvas_size 1024 10000 5 = (of_Z w, of_Z h) /\
    (0 <= w <= 800)%Z /\ (0 <= h <= 5)%Z /\
    ((10000 <= 800)%Z -> w = 10000%Z /\ h = 5%Z) /\
    ((800 < 10000)%Z ->
       w = 800%Z /\ nearest_integer (IZR 5 * (IZR 800 / IZR 10000)) h).
Proof. apply (canvas_size_fits 1024 10000 5); lia. Defined.

(** ** What [reSimulate] and the handlers change *)

Lemma resolve_number_returns (st : state) (mode : string) (severity : num) :
  isNaN severity = false ->
  exists res, getMachadoMatrixSync st mode severity = Return res.
Proof.
  intros Hnan. unfold getMachadoMatrixSync.
  destruct (MACHADO_TABLE st) as [T |]; [| now exists None].
  destruct (get T mode) as [table |]; [| now exists None].
  pose proof (sampleKeys_not_NaN table) as Hnn.
  destruct (sampleKeys_of table) as [| first rest]; [now exists None |].
  destruct (clamp01_not_NaN severity Hnan) as [y [-> _]].
  destruct (Num y <=? first)%js eqn:Hle; [eexists; reflexivity |].
  destruct (Num y >=? last (first :: rest) first)%js eqn:Hge;
    [eexists; reflexivity |].
  destruct rest as [| b rest].
  - cbn [last] in Hge.
    destruct (compare_total y first (Hnn first (or_introl eq_refl)));
      congruence.
  - cbn [nth_error].
    destruct (find_interval_defined (Num y) (first :: b :: rest) first b)
      as [k0 [k1 ->]].
    destruct (get table (keyFromNum k0));
      destruct (get table (keyFromNum k1)); eexists; reflexivity.
Qed.

Lemma simulate_number_returns (st : state) (src : canvas) (mode : string)
    (severity : num) :
  isNaN severity = false ->
  exists r, applyCvdSimulation st src mode (Some severity) = Return r.
Proof.
  intros Hnan. unfold applyCvdSimulation.
  destruct (resolve_number_returns st mode severity Hnan) as [[mat |] ->];
    [| now exists None].
  destruct (_ || _)%bool; eexists; reflexivity.
Qed.

Lemma reSimulate_guard (p : page) :
  hasImage p = false \/ machadoReady p = false -> reSimulate p = (None, p).
Proof.
  unfold reSimulate. intros [-> | ->]; [reflexivity |].
  now rewrite orb_true_r.
Qed.

(** [reSimulate] changes the three simulated canvases only, by what the
    calls of [applyCvdSimulation] draw; when it does not throw, each canvas
    got its mode's result. *)
Lemma reSimulate_cases (p : page) :
  exists r1 r2 r3,
    snd (reSimulate p) =
    set_targets p (draw (canvasOriginal p) (canvasProtan p) r1)
      (draw (canvasOriginal p) (canvasDeutan p) r2)
      (draw (canvasOriginal p) (canvasTritan p) r3) /\
    (hasImage p = true -> machadoReady p = true ->
     fst (reSimulate p) = None ->
     let run_mode mode :=
       applyCvdSimulation (cvdSim p) (canvasOriginal p) mode
         (Some (currentSeverity p)) in
     run_mode "protan"%string = Return r1 /\
     run_mode "deutan"%string = Return r2 /\
     run_mode "tritan"%string = Return r3).
Proof.
  destruct p as [st sev img ready pend text o tp td tt fs es].
  unfold reSimulate. cbn [hasImage machadoReady cvdSim canvasOriginal
    currentSeverity canvasProtan canvasDeutan canvasTritan].
  destruct img, ready; cbn [negb orb];
    try (exists None, None, None; split; [reflexivity | discriminate]).
  destruct (applyCvdSimulation st o "protan" (Some sev)) as [r1 | e1];
    [| exists None, None, None; split; [reflexivity | discriminate]].
  destruct (applyCvdSimulation st o "deutan" (Some sev)) as [r2 | e2];
    [| exists r1, None, None; split; [reflexivity | discriminate]].
  destruct (applyCvdSimulation st o "tritan" (Some sev)) as [r3 | e3];
    [| exists r1, r2, None; split; [reflexivity | discriminate]].
  exists r1, r2, r3. split; [reflexivity |]. now intros _ _ _.
Qed.

Lemma reSimulate_number (p : page) :
  isNaN (currentSeverity p) = false -> fst (reSimulate p) = None.
Proof.
  intros Hnan. unfold reSimulate.
  destruct (_ || _)%bool; [reflexivity |].
  destruct (simulate_number_returns (cvdSim p) (canvasOriginal p) "protan"
              _ Hnan) as [r1 ->].
  destruct (simulate_number_returns (cvdSim p) (canvasOriginal p) "deutan"
              _ Hnan) as [r2 ->].
  destruct (simulate_number_returns (cvdSim p) (canvasOriginal p) "tritan"
              _ Hnan) as [r3 ->].
  reflexivity.
Qed.

Lemma run_app (p : page) (evs evs' : list page_event) :
  run p (evs ++ evs') = run (run p evs) evs'.
Proof. apply fold_left_app. Qed.

Lemma run_invariant (I : page -> Prop) (Q : page_event -> Prop) :
  (forall p ev, Q ev -> I p -> I (step p ev)) ->
  forall evs p, Forall Q evs -> I p -> I (run p evs).
Proof.
  intros Hstep evs. induction evs as [| ev evs IH]; intros p HQ Hp;
    [exact Hp |].
  inversion HQ; subst. cbn [run fold_left]. apply IH; [assumption |].
  now apply Hstep.
Qed.

Lemma Forall_True {A : Type} (l : list A) : Forall (fun _ => True) l.
Proof. induction l; constructor; auto. Qed.

(** A pasted image changes the page as a loaded one does, effects apart. *)
Lemma pasted_as_loaded (p : page) (iw w h : Z) (drawn : Z -> Z -> list Z) :
  exists es,
    step p (ImagePasted iw w h drawn) =
    with_effects (step p (ImageLoaded iw w h drawn)) es.
Proof.
  cbn [step].
  destruct (drawAllCanvases iw w h drawn p) as [[e |] [st sev img ready pend
    text o tp td tt fs es]]; eexists; reflexivity.
Qed.

Lemma reSimulate_keeps (p : page) :
  let q := snd (reSimulate p) in
  cvdSim q = cvdSim p /\ currentSeverity q = currentSeverity p /\
  hasImage q = hasImage p /\ machadoReady q = machadoReady p /\
  pendingFrame q = pendingFrame p /\ frames q = frames p /\
  effects q = effects p /\ canvasOriginal q = canvasOriginal p.
Proof.
  destruct (reSimulate_cases p) as [r1 [r2 [r3 [H _]]]].
  cbv zeta. rewrite H. repeat split.
Qed.

Lemma draw_sized (src : canvas) (t : target) (r : option (list Z)) :
  same_size src t -> covered t ->
  same_size src (draw src t r) /\ covered (draw src t r).
Proof.
  intros [Hw Hh] Hc. destruct r as [img |]; cbn [draw]; [| now split].
  split; [now split |]. unfold covered. cbn [t_puts t_width t_height].
  apply Forall_cons; [cbn [width height]; now split | exact Hc].
Qed.

Lemma reSimulate_sized (p : page) : sized p -> sized (snd (reSimulate p)).
Proof.
  intros Hs. destruct (hasImage p) eqn:Himg.
  - destruct (reSimulate_cases p) as [r1 [r2 [r3 [-> _]]]].
    destruct Hs as [Hsame [Hc1 [Hc2 Hc3]]].
    destruct (Hsame Himg) as [H1 [H2 H3]].
    destruct (draw_sized _ _ r1 H1 Hc1), (draw_sized _ _ r2 H2 Hc2),
      (draw_sized _ _ r3 H3 Hc3).
    unfold sized; cbn [set_targets hasImage canvasOriginal canvasProtan
      canvasDeutan canvasTritan]. tauto.
  - rewrite reSimulate_guard by now left. exact Hs.
Qed.

Lemma sized_uncaught (r : option error * page) :
  sized (snd r) -> sized (uncaught r).
Proof. destruct r as [[e |] q]; intros H; exact H. Qed.

Lemma step_sized (p : page) (ev : page_event) : sized p -> sized (step p ev).
Proof.
  intros Hs.
  assert (Hloaded : forall iw w h drawn,
            sized (step p (ImageLoaded iw w h drawn))).
  { intros iw w h drawn. cbn [step].
    unfold drawAllCanvases. destruct (canvas_size iw w h) as [cw ch].
    match goal with
    | |- context [reSimulate ?q] => assert (H1 : sized q)
    end.
    { unfold sized, same_size, covered. cbn. repeat split; constructor. }
    destruct (machadoReady _); [| exact H1].
    apply sized_uncaught, reSimulate_sized, H1. }
  destruct ev as [fetch | iw w h drawn | iw w h drawn | value id | id].
  - cbn [step]. unfold startup.
    destruct (loadMachadoMatrices fetch None (cvdSim p)) as [[T | e] s];
      [| exact Hs].
    match goal with
    | |- context [reSimulate ?q] =>
        pose proof (reSimulate_sized q Hs) as H; destruct (reSimulate q) as [[e |] p2]
    end; destruct (hasImage _); first [exact H | exact Hs].
  - apply Hloaded.
  - destruct (pasted_as_loaded p iw w h drawn) as [es ->].
    exact (Hloaded iw w h drawn).
  - cbn [step]. unfold severityInput. destruct (_ || _)%bool; [exact Hs |].
    cbn [pendingFrame set_severity]. destruct (pendingFrame p); exact Hs.
  - cbn [step]. unfold animationFrame. destruct (existsb _ _); [| exact Hs].
    apply sized_uncaught, reSimulate_sized, Hs.
Qed.

(** X19.  Whatever happens to the page, every image put on a simulated
    canvas has exactly that canvas's size, and once an image has been loaded
    the three simulated canvases have the size of the original canvas. *)
Theorem images_cover_canvases (wo ho wp hp wd hd wt ht : Z) (drawn : list Z)
    (evs : list page_event) :
  sized (run (start wo ho wp hp wd hd wt ht drawn) evs).
Proof.
  apply (run_invariant sized (fun _ => True)).
  - intros p ev _. apply step_sized.
  - apply Forall_True.
  - unfold sized, covered. cbn. repeat split; try discriminate; constructor.
Qed.

(** ** The table and the ready flag *)

Lemma load_cached (fetch : string -> outcome response) (url : option string)
    (st : state) (T : tables) :
  MACHADO_TABLE st = Some T -> loadMachadoMatrices fetch url st = (Return T, st).
Proof. intros H. unfold loadMachadoMatrices. now rewrite H. Qed.

Lemma uncaught_fields (r : option error * page) :
  cvdSim (uncaught r) = cvdSim (snd r) /\
  currentSeverity (uncaught r) = currentSeverity (snd r) /\
  hasImage (uncaught r) = hasImage (snd r) /\
  machadoReady (uncaught r) = machadoReady (snd r) /\
  pendingFrame (uncaught r) = pendingFrame (snd r) /\
  frames (uncaught r) = frames (snd r) /\
  canvasOriginal (uncaught r) = canvasOriginal (snd r) /\
  canvasProtan (uncaught r) = canvasProtan (snd r) /\
  canvasDeutan (uncaught r) = canvasDeutan (snd r) /\
  canvasTritan (uncaught r) = canvasTritan (snd r).
Proof. destruct r as [[e |] q]; repeat split. Qed.

(** The fields of the page after [uncaught (reSimulate q)], from [q]'s. *)
Ltac after_reSimulate q :=
  let Hu := fresh "Hu" in
  let Hk := fresh "Hk" in
  pose proof (uncaught_fields (reSimulate q)) as Hu;
  pose proof (reSimulate_keeps q) as Hk; cbv zeta in Hk;
  destruct Hu as (Hu_st & Hu_sev & Hu_img & Hu_ready & Hu_pend & Hu_fs &
                  Hu_o & Hu_tp & Hu_td & Hu_tt);
  destruct Hk as (Hk_st & Hk_sev & Hk_img & Hk_ready & Hk_pend & Hk_fs &
                  Hk_es & Hk_o);
  rewrite ?Hu_st, ?Hu_sev, ?Hu_img, ?Hu_ready, ?Hu_pend, ?Hu_fs, ?Hu_o,
    ?Hk_st, ?Hk_sev, ?Hk_img, ?Hk_ready, ?Hk_pend, ?Hk_fs, ?Hk_o.

Lemma drawAllCanvases_fields (iw w h : Z) (drawn : Z -> Z -> list Z)
    (p : page) :
  let q := uncaught (drawAllCanvases iw w h drawn p) in
  cvdSim q = cvdSim p /\ currentSeverity q = currentSeverity p /\
  hasImage q = true /\ machadoReady q = machadoReady p /\
  pendingFrame q = pendingFrame p /\ frames q = frames p.
Proof.
  unfold drawAllCanvases. destruct (canvas_size iw w h) as [cw ch].
  cbv zeta.
  match goal with
  | |- context [if ?b then _ else _] => destruct b
  end; [| repeat split].
  match goal with
  | |- context [reSimulate ?q] => after_reSimulate q
  end.
  repeat split.
Qed.

Lemma animationFrame_fields (id : Z) (p : page) :
  let q := uncaught (animationFrame id p) in
  cvdSim q = cvdSim p /\ currentSeverity q = currentSeverity p /\
  hasImage q = hasImage p /\ machadoReady q = machadoReady p /\
  canvasOriginal q = canvasOriginal p.
Proof.
  unfold animationFrame. cbv zeta.
  destruct (existsb _ _); [| repeat split].
  match goal with
  | |- context [reSimulate ?q] => after_reSimulate q
  end.
  repeat split.
Qed.

Lemma severityInput_fields (value : string) (id : Z) (p : page) :
  let q := severityInput value id p in
  cvdSim q = cvdSim p /\ currentSeverity q = parseFloat value /\
  hasImage q = hasImage p /\ machadoReady q = machadoReady p /\
  canvasOriginal q = canvasOriginal p /\ canvasProtan q = canvasProtan p /\
  canvasDeutan q = canvasDeutan p /\ canvasTritan q = canvasTritan p /\
  effects q = effects p.
Proof.
  unfold severityInput. cbv zeta. destruct (_ || _)%bool; [repeat split |].
  cbn [pendingFrame set_severity]. destruct (pendingFrame p); repeat split.
Qed.

Lemma startup_fields (fetch : string -> outcome response) (p : page) :
  let q := startup fetch p in
  cvdSim q = snd (loadMachadoMatrices fetch None (cvdSim p)) /\
  currentSeverity q = currentSeverity p /\ hasImage q = hasImage p /\
  pendingFrame q = pendingFrame p /\ frames q = frames p /\
  canvasOriginal q = canvasOriginal p /\
  (forall T, fst (loadMachadoMatrices fetch None (cvdSim p)) = Return T ->
     machadoReady q = true) /\
  (forall e, fst (loadMachadoMatrices fetch None (cvdSim p)) = Throw e ->
     machadoReady q = machadoReady p /\
     canvasProtan q = canvasProtan p /\ canvasDeutan q = canvasDeutan p /\
     canvasTritan q = canvasTritan p).
Proof.
  unfold startup.
  destruct (loadMachadoMatrices fetch None (cvdSim p)) as [[T | e] s];
    cbn [fst snd]; cbv zeta.
  - match goal with
    | |- context [reSimulate ?q] =>
        pose proof (reSimulate_keeps q) as Hk;
        destruct (reSimulate q) as [[e |] p2]
    end; cbv zeta in Hk; cbn [snd] in Hk;
      destruct Hk as (Hst & Hsev & Himg & Hready & Hpend & Hfs & _ & Ho);
      match goal with
      | |- context [if ?b then _ else _] => destruct b eqn:Hb
      end; cbn in Hb; cbn;
      rewrite ?Hst, ?Hsev, ?Himg, ?Hready, ?Hpend, ?Hfs, ?Ho;
      repeat split; solve [discriminate | congruence].
  - repeat split; discriminate.
Qed.

Lemma load_unloaded (fetch : string -> outcome response) (url : option string)
    (st : state) :
  MACHADO_TABLE st = None ->
  fst (loadMachadoMatrices fetch url st)
  = fst (loadMachadoMatrices fetch url ColorSim.initial).
Proof.
  intros H. unfold loadMachadoMatrices. rewrite H.
  cbn [MACHADO_TABLE ColorSim.initial].
  destruct (fetch _) as [res | e0]; [| reflexivity].
  destruct (negb (ok res)); [reflexivity |].
  destruct (json res); reflexivity.
Qed.

(** What the ready flag and the table become in one step. *)
Lemma step_ready (p : page) (ev : page_event) :
  match ev with
  | Startup fetch =>
      cvdSim (step p ev) = snd (loadMachadoMatrices fetch None (cvdSim p)) /\
      machadoReady (step p ev)
      = match fst (loadMachadoMatrices fetch None (cvdSim p)) with
        | Return _ => true
        | Throw _ => machadoReady p
        end
  | _ =>
      cvdSim (step p ev) = cvdSim p /\
      machadoReady (step p ev) = machadoReady p
  end.
Proof.
  assert (Hloaded : forall iw w h drawn,
            cvdSim (step p (ImageLoaded iw w h drawn)) = cvdSim p /\
            machadoReady (step p (ImageLoaded iw w h drawn)) = machadoReady p).
  { intros iw w h drawn. cbn [step].
    destruct (drawAllCanvases_fields iw w h drawn p)
      as (-> & _ & _ & -> & _). now split. }
  destruct ev as [fetch | iw w h drawn | iw w h drawn | value id | id].
  - cbn [step].
    destruct (startup_fields fetch p) as (-> & _ & _ & _ & _ & _ & Hr & Ht).
    split; [reflexivity |].
    destruct (fst (loadMachadoMatrices fetch None (cvdSim p))) as [T | e].
    + exact (Hr T eq_refl).
    + exact (proj1 (Ht e eq_refl)).
  - apply Hloaded.
  - destruct (pasted_as_loaded p iw w h drawn) as [es ->].
    exact (Hloaded iw w h drawn).
  - cbn [step].
    destruct (severityInput_fields value id p) as (-> & _ & _ & -> & _).
    now split.
  - cbn [step].
    destruct (animationFrame_fields id p) as (-> & _ & _ & -> & _).
    now split.
Qed.

(** X20.  Whatever happens to the page, [machadoReady] is true exactly when
    the load of some start-up block has returned, that is, when for one of
    them the fetch and the parse that a load from the unloaded state makes
    both succeed; a load that throws leaves the flag as it was. *)
Theorem ready_iff_load_returned (wo ho wp hp wd hd wt ht : Z)
    (drawn : list Z) (evs : list page_event) :
  machadoReady (run (start wo ho wp hp wd hd wt ht drawn) evs) = true <->
  exists fetch T,
    In (Startup fetch) evs /\
    fst (loadMachadoMatrices fetch None ColorSim.initial) = Return T.
Proof.
  set (E := fun evs : list page_event =>
              exists fetch T,
                In (Startup fetch) evs /\
                fst (loadMachadoMatrices fetch None ColorSim.initial)
                = Return T).
  enough (H : (machadoReady (run (start wo ho wp hp wd hd wt ht drawn) evs)
               = true <-> E evs) /\
              (MACHADO_TABLE
                 (cvdSim (run (start wo ho wp hp wd hd wt ht drawn) evs))
               <> None -> E evs)) by exact (proj1 H).
  induction evs as [| ev evs IH] using rev_ind.
  - cbn. split; [| now intros H].
    split; [discriminate | intros (fetch & T & [] & _)].
  - destruct IH as [Hready Htable].
    rewrite run_app. cbn [run fold_left].
    set (p := run (start wo ho wp hp wd hd wt ht drawn) evs) in *.
    assert (Hmono : E evs -> E (evs ++ [ev])).
    { intros (fetch & T & Hin & Hl). exists fetch, T.
      split; [apply in_or_app; now left | exact Hl]. }
    assert (Hback : forall fetch T,
              In (Startup fetch) (evs ++ [ev]) ->
              fst (loadMachadoMatrices fetch None ColorSim.initial) = Return T ->
              E evs \/ ev = Startup fetch).
    { intros fetch T Hin Hl. apply in_app_or in Hin as [Hin | [Heq | []]].
      - left. now exists fetch, T.
      - right. now symmetry. }
    pose proof (step_ready p ev) as Hstep.
    destruct ev as [fetch | iw w h drawn' | iw w h drawn' | value id | id];
      try (destruct Hstep as [Hst Hr]; rewrite Hst, Hr; split;
           [split; [intros H; apply Hmono, Hready, H |]
           | intros H; apply Hmono, Htable, H];
           intros (fetch & T & Hin & Hl);
           destruct (Hback fetch T Hin Hl) as [H | H];
           [apply Hready, H | discriminate]).
    destruct Hstep as [Hst Hr]. rewrite Hst, Hr.
    pose proof (load_outcome fetch None (cvdSim p)) as [Hret Hthrow].
    destruct (MACHADO_TABLE (cvdSim p)) as [T0 |] eqn:HT.
    + assert (HE : E (evs ++ [Startup fetch])).
      { apply Hmono, Htable. discriminate. }
      rewrite (load_cached fetch None (cvdSim p) T0 HT). cbn [fst snd].
      split; [split; [intros _; exact HE | reflexivity] | intros _; exact HE].
    + pose proof (load_unloaded fetch None (cvdSim p) HT) as Hsame.
      destruct (fst (loadMachadoMatrices fetch None (cvdSim p))) as [T | e]
        eqn:Hl.
      * assert (HE : E (evs ++ [Startup fetch])).
        { exists fetch, T. split; [apply in_or_app; right; now left |].
          now rewrite <- Hsame. }
        split; [split; [intros _; exact HE | reflexivity] | intros _; exact HE].
      * rewrite (Hthrow e eq_refl). split; [| now intros H].
        split; [intros H; apply Hmono, Hready, H |].
        intros (fetch' & T & Hin & Hl').
        destruct (Hback fetch' T Hin Hl') as [H | H]; [apply Hready, H |].
        injection H as <-. rewrite <- Hsame in Hl'. discriminate.
Qed.

Lemma ready_iff_load_returned_witness :
  machadoReady (run (start 300 150 300 150 300 150 300 150 [])
                  [Startup Example.not_found;
                   Startup (Example.serve Example.source)]) = true.
Proof.
  apply (ready_iff_load_returned 300 150 300 150 300 150 300 150 []
           [Startup Example.not_found;
            Startup (Example.serve Example.source)]).
  exists (Example.serve Example.source), Example.source.
  split; [right; left; reflexivity | reflexivity].
Defined.

(** ** Nothing is drawn before the image and the table are there *)

Lemma step_blank (p : page) (ev : page_event) :
  (hasImage p = false \/ machadoReady p = false -> blank p) ->
  hasImage (step p ev) = false \/ machadoReady (step p ev) = false ->
  blank (step p ev).
Proof.
  intros Hp.
  assert (Hloaded : forall iw w h drawn,
            hasImage (step p (ImageLoaded iw w h drawn)) = false \/
            machadoReady (step p (ImageLoaded iw w h drawn)) = false ->
            blank (step p (ImageLoaded iw w h drawn))).
  { intros iw w h drawn. cbn [step].
    unfold drawAllCanvases. destruct (canvas_size iw w h) as [cw ch].
    cbv zeta.
    match goal with
    | |- context [if ?b then _ else _] => destruct b eqn:Hr
    end; [| intros _; repeat split].
    match goal with
    | |- context [reSimulate ?q] => after_reSimulate q
    end.
    rewrite Hr. cbn. intros [H | H]; discriminate. }
  destruct ev as [fetch | iw w h drawn | iw w h drawn | value id | id].
  - cbn [step]. unfold startup.
    destruct (loadMachadoMatrices fetch None (cvdSim p)) as [[T | e] s];
      cbv zeta; [| exact Hp].
    cbn [hasImage add_effects set_machadoReady set_cvdSim].
    destruct (hasImage p) eqn:Himg.
    + match goal with
      | |- context [reSimulate ?q] =>
          pose proof (reSimulate_keeps q) as Hk;
          destruct (reSimulate q) as [[e |] p2]
      end; cbv zeta in Hk; cbn [snd] in Hk;
        destruct Hk as (_ & _ & Hi & Hr & _); cbn in Hi, Hr;
        cbn; rewrite Hi, Hr, Himg; intros [H | H]; discriminate.
    + intros _. apply Hp. now left.
  - apply Hloaded.
  - destruct (pasted_as_loaded p iw w h drawn) as [es ->].
    exact (Hloaded iw w h drawn).
  - cbn [step]. destruct (severityInput_fields value id p)
      as (_ & _ & Hi & Hr & _ & H1 & H2 & H3 & _).
    unfold blank. rewrite Hi, Hr, H1, H2, H3. exact Hp.
  - cbn [step]. unfold animationFrame. destruct (existsb _ _); [| exact Hp].
    match goal with
    | |- context [reSimulate ?q] => after_reSimulate q; set (p1 := q) in *
    end.
    intros H. rewrite (reSimulate_guard p1 H). apply Hp, H.
Qed.

(** X21.  Whatever happens to the page, nothing is put on a simulated canvas
    as long as the image or the table is missing. *)
Theorem nothing_drawn_before_ready (wo ho wp hp wd hd wt ht : Z)
    (drawn : list Z) (evs : list page_event) :
  hasImage (run (start wo ho wp hp wd hd wt ht drawn) evs) = false \/
  machadoReady (run (start wo ho wp hp wd hd wt ht drawn) evs) = false ->
  blank (run (start wo ho wp hp wd hd wt ht drawn) evs).
Proof.
  apply (run_invariant
           (fun p => hasImage p = false \/ machadoReady p = false -> blank p)
           (fun _ => True)).
  - intros p ev _. apply step_blank.
  - apply Forall_True.
  - intros _. repeat split.
Qed.

Lemma nothing_drawn_before_ready_witness :
  blank (run (start 300 150 300 150 300 150 300 150 [])
           [ImageLoaded 1024 2 1 (fun _ _ => [10; 20; 30; 255]%Z);
            Startup Example.not_found;
            SeverityInput "0.5" 1; AnimationFrame 1]).
Proof.
  apply (nothing_drawn_before_ready 300 150 300 150 300 150 300 150 []).
  right. reflexivity.
Defined.

(** ** Animation frames *)

Lemma step_one_frame (p : page) (ev : page_event) :
  one_frame p -> one_frame (step p ev).
Proof.
  unfold one_frame. intros Hp.
  assert (Hloaded : forall iw w h drawn,
            match pendingFrame (step p (ImageLoaded iw w h drawn)) with
            | None => frames (step p (ImageLoaded iw w h drawn)) = []
            | Some id =>
                frames (step p (ImageLoaded iw w h drawn)) = [id] /\
                hasImage (step p (ImageLoaded iw w h drawn)) = true /\
                machadoReady (step p (ImageLoaded iw w h drawn)) = true
            end).
  { intros iw w h drawn. cbn [step].
    destruct (drawAllCanvases_fields iw w h drawn p)
      as (_ & _ & -> & -> & -> & ->).
    destruct (pendingFrame p); [| exact Hp]. tauto. }
  destruct ev as [fetch | iw w h drawn | iw w h drawn | value id | id].
  - cbn [step]. destruct (startup_fields fetch p) as (_ & _ & -> & -> & -> & _ & Hr & Ht).
    destruct (pendingFrame p) as [id |]; [| exact Hp].
    destruct Hp as (Hfs & Himg & Hready). split; [exact Hfs |].
    split; [exact Himg |].
    destruct (fst (loadMachadoMatrices fetch None (cvdSim p))) as [T | e].
    + exact (Hr T eq_refl).
    + destruct (Ht e eq_refl) as [-> _]. exact Hready.
  - apply Hloaded.
  - destruct (pasted_as_loaded p iw w h drawn) as [es ->].
    exact (Hloaded iw w h drawn).
  - cbn [step]. unfold severityInput. cbv zeta.
    destruct (_ || _)%bool eqn:Hguard; [exact Hp |].
    cbn [pendingFrame set_severity] in *.
    destruct (pendingFrame p) as [id0 |] eqn:Hpend;
      cbn [pendingFrame set_severity set_frame frames hasImage machadoReady];
      [rewrite Hpend; exact Hp |].
    rewrite Hp.
    apply orb_false_elim in Hguard as [Hi Hr].
    apply negb_false_iff in Hi, Hr. now repeat split.
  - cbn [step]. unfold animationFrame. destruct (existsb _ _) eqn:Hex; [| exact Hp].
    match goal with
    | |- context [reSimulate ?q] => after_reSimulate q
    end.
    cbn. destruct (pendingFrame p) as [id0 |].
    + destruct Hp as [Hfs _]. rewrite Hfs in *. cbn in *.
      rewrite orb_false_r in Hex. now rewrite Hex.
    + now rewrite Hp.
Qed.

(** X22.  Whatever happens to the page, at most one animation frame is
    requested at a time: with [pendingFrame] null none is, otherwise exactly
    the one it names, and then the image and the table are there. *)
Theorem one_frame_at_a_time (wo ho wp hp wd hd wt ht : Z) (drawn : list Z)
    (evs : list page_event) :
  one_frame (run (start wo ho wp hp wd hd wt ht drawn) evs).
Proof.
  apply (run_invariant one_frame (fun _ => True)).
  - intros p ev _. apply step_one_frame.
  - apply Forall_True.
  - reflexivity.
Qed.

Lemma input_while_pending (p : page) (value : string) (id' id : Z) :
  pendingFrame p = Some id ->
  severityInput value id' p =
  set_severity p (parseFloat value) (toFixed 2 (parseFloat value)).
Proof.
  intros Hpend. unfold severityInput. cbv zeta.
  destruct (_ || _)%bool; [reflexivity |].
  cbn [pendingFrame set_severity]. now rewrite Hpend.
Qed.

(** X23.  Slider inputs are coalesced: while a frame is pending, any burst of
    inputs followed by the frame amounts to simulating once, at the last
    input's value, [text] being what the listener last wrote in
    [severity-value]; the earlier values are never simulated and no further
    frame is requested. *)
Theorem burst_renders_once (p : page) (id : Z) (burst : list (string * Z))
    (value : string) (id' : Z) :
  pendingFrame p = Some id -> frames p = [id] ->
  exists text,
    run p (inputs burst ++ [SeverityInput value id'; AnimationFrame id]) =
    uncaught
      (reSimulate (set_frame (set_severity p (parseFloat value) text) None [])).
Proof.
  revert p. induction burst as [| [v i] burst IH]; intros p Hpend Hfs.
  - exists (toFixed 2 (parseFloat value)).
    cbn [inputs map app run fold_left step].
    rewrite (input_while_pending p value id' id Hpend).
    unfold animationFrame. cbn [frames set_severity]. rewrite Hfs.
    cbn [existsb filter]. now rewrite Z.eqb_refl.
  - cbn [inputs map app run fold_left step fst snd].
    rewrite (input_while_pending p v i id Hpend).
    apply (IH (set_severity p (parseFloat v) (toFixed 2 (parseFloat v))));
      assumption.
Qed.

Lemma burst_renders_once_witness :
  exists text,
    run PageCases.pending
      (inputs [("0.2"%string, 8%Z); ("0.4"%string, 9%Z)] ++
       [SeverityInput "0.5" 10; AnimationFrame 7]) =
    uncaught
      (reSimulate
         (set_frame
            (set_severity PageCases.pending (parseFloat "0.5") text)
            None [])).
Proof.
  apply (burst_renders_once PageCases.pending 7
           [("0.2"%string, 8%Z); ("0.4"%string, 9%Z)] "0.5" 10);
    reflexivity.
Defined.

(** ** Slider values that read as numbers *)

Lemma uncaught_number (p : page) :
  isNaN (currentSeverity p) = false ->
  uncaught (reSimulate p) = snd (reSimulate p).
Proof.
  intros Hnan. pose proof (reSimulate_number p Hnan) as H.
  destruct (reSimulate p) as [[e |] q]; [discriminate | reflexivity].
Qed.

Lemma caught_number (p : page) :
  isNaN (currentSeverity p) = false ->
  caught (reSimulate p) = snd (reSimulate p).
Proof.
  intros Hnan. pose proof (reSimulate_number p Hnan) as H.
  destruct (reSimulate p) as [[e |] q]; [discriminate | reflexivity].
Qed.

Lemma load_throws_anywhere (fetch : string -> outcome response)
    (url : option string) (st : state) (e : error) :
  fst (loadMachadoMatrices fetch url st) = Throw e ->
  fst (loadMachadoMatrices fetch url ColorSim.initial) = Throw e.
Proof.
  unfold loadMachadoMatrices. cbn [MACHADO_TABLE ColorSim.initial].
  destruct (MACHADO_TABLE st); [discriminate |].
  destruct (fetch _) as [res | e0]; [| exact (fun H => H)].
  destruct (negb (ok res)); [exact (fun H => H) |].
  destruct (json res); exact (fun H => H).
Qed.

Lemma numeric_inputs_app (evs evs' : list page_event) :
  numeric_inputs (evs ++ evs') <-> numeric_inputs evs /\ numeric_inputs evs'.
Proof. apply Forall_app. Qed.

Lemma session_numeric : numeric_inputs PageCases.session.
Proof.
  unfold numeric_inputs, PageCases.session.
  repeat apply Forall_cons; try exact I; try apply Forall_nil.
  - now rewrite parseFloat_0_5.
  - now rewrite parseFloat_1_0.
Qed.

(** X24.  With tables of the schema's shape (a response's body parses to an
    object of modes, each an object of severity keys, each holding a 3x3
    array of numbers) and as long as the slider's values read as numbers,
    the severity is never NaN and none of the start-up block,
    [drawAllCanvases], the slider's listener and the animation frame
    callback throws: no error escapes, the paste handler's catch is not
    entered, and the only errors these log are those [loadMachadoMatrices]
    threw at start-up. *)
Theorem numeric_inputs_never_throw (wo ho wp hp wd hd wt ht : Z)
    (drawn : list Z) (evs : list page_event) :
  numeric_inputs evs ->
  isNaN (currentSeverity (run (start wo ho wp hp wd hd wt ht drawn) evs))
  = false /\
  (forall e,
     ~ In (Uncaught e) (effects (run (start wo ho wp hp wd hd wt ht drawn) evs)))
  /\
  (forall e,
     In (ConsoleError e)
       (effects (run (start wo ho wp hp wd hd wt ht drawn) evs)) ->
     exists fetch,
       In (Startup fetch) evs /\
       fst (loadMachadoMatrices fetch None ColorSim.initial) = Throw e).
Proof.
  induction evs as [| ev evs IH] using rev_ind; intros Hnum.
  - cbn. split; [reflexivity |]. split; [now intros e H | now intros e H].
  - apply numeric_inputs_app in Hnum as [Hevs Hev].
    destruct (IH Hevs) as (Hnan & Hun & Herr). clear IH.
    rewrite run_app. cbn [run fold_left].
    set (p := run (start wo ho wp hp wd hd wt ht drawn) evs) in *.
    assert (Hold : forall e, In (ConsoleError e) (effects p) ->
              exists fetch, In (Startup fetch) (evs ++ [ev]) /\
                fst (loadMachadoMatrices fetch None ColorSim.initial) = Throw e).
    { intros e He. destruct (Herr e He) as [fetch [Hin Hl]].
      exists fetch. split; [apply in_or_app; now left | exact Hl]. }
    destruct ev as [fetch | iw w h drawn' | iw w h drawn' | value id | id];
      cbn [step].
    + unfold startup.
      destruct (loadMachadoMatrices fetch None (cvdSim p)) as [[T | e] s] eqn:Hl;
        cbv zeta.
      * match goal with
        | |- context [reSimulate ?q] =>
            pose proof (uncaught_number q Hnan) as Hu;
            pose proof (reSimulate_keeps q) as Hk;
            destruct (reSimulate q) as [[e |] p2]
        end; cbv zeta in Hk; cbn [snd uncaught] in Hu, Hk;
          destruct Hk as (_ & Hsev & _ & _ & _ & _ & Hes & _);
          cbn in Hsev, Hes;
          match goal with
          | |- context [if ?b then _ else _] => destruct b
          end; cbn [add_effects set_machadoReady set_cvdSim effects
                      currentSeverity app];
          rewrite ?Hsev, ?Hes;
          try (apply (f_equal effects) in Hu; cbn in Hu; rewrite Hes in Hu;
               exfalso; revert Hu; clear;
               generalize (effects p); intros l H;
               apply (f_equal (@List.length effect)) in H; cbn in H; lia);
          (split; [exact Hnan |]; split;
           [intros e' [H | H]; [discriminate | exact (Hun e' H)]
           | intros e' [H | H]; [discriminate | exact (Hold e' H)]]).
      * cbn [add_effects set_cvdSim effects currentSeverity app].
        split; [exact Hnan |]. split.
        -- intros e' [H | [H | H]]; [discriminate | discriminate |].
           exact (Hun e' H).
        -- intros e' [H | [H | H]]; [discriminate | | exact (Hold e' H)].
           injection H as <-. exists fetch.
           split; [apply in_or_app; right; now left |].
           apply (load_throws_anywhere fetch None (cvdSim p)).
           now rewrite Hl.
    + unfold drawAllCanvases. destruct (canvas_size iw w h) as [cw ch].
      cbv zeta.
      match goal with
      | |- context [if ?b then _ else _] => destruct b
      end; [| now repeat split].
      match goal with
      | |- context [reSimulate ?q] =>
          rewrite (uncaught_number q Hnan);
          destruct (reSimulate_keeps q) as (_ & -> & _ & _ & _ & _ & -> & _)
      end.
      now repeat split.
    + unfold drawAllCanvases. destruct (canvas_size iw w h) as [cw ch].
      cbv zeta.
      match goal with
      | |- context [if ?b then _ else _] => destruct b
      end; [| now repeat split].
      match goal with
      | |- context [reSimulate ?q] =>
          rewrite (caught_number q Hnan);
          destruct (reSimulate_keeps q) as (_ & -> & _ & _ & _ & _ & -> & _)
      end.
      now repeat split.
    + destruct (severityInput_fields value id p)
        as (_ & -> & _ & _ & _ & _ & _ & _ & ->).
      inversion Hev; subst. now repeat split.
    + unfold animationFrame. destruct (existsb _ _); [| now repeat split].
      match goal with
      | |- context [reSimulate ?q] =>
          rewrite (uncaught_number q Hnan);
          destruct (reSimulate_keeps q) as (_ & -> & _ & _ & _ & _ & -> & _)
      end.
      now repeat split.
Qed.

Lemma numeric_inputs_never_throw_witness :
  isNaN (currentSeverity (run (start 300 150 300 150 300 150 300 150 [])
                            PageCases.session)) = false /\
  (forall e,
     ~ In (Uncaught e)
         (effects (run (start 300 150 300 150 300 150 300 150 [])
                     PageCases.session))) /\
  (forall e,
     In (ConsoleError e)
       (effects (run (start 300 150 300 150 300 150 300 150 [])
                   PageCases.session)) ->
     exists fetch,
       In (Startup fetch) PageCases.session /\
       fst (loadMachadoMatrices fetch None ColorSim.initial) = Throw e).
Proof.
  apply (numeric_inputs_never_throw 300 150 300 150 300 150 300 150 []
           PageCases.session).
  exact session_numeric.
Defined.

(** ** The canvases follow the slider *)

Lemma simulate_unloaded (st : state) (src : canvas) (mode : string)
    (severity : option num) :
  MACHADO_TABLE st = None ->
  applyCvdSimulation st src mode severity = Return None.
Proof.
  intros H. unfold applyCvdSimulation, getMachadoMatrixSync. now rewrite H.
Qed.

Lemma reSimulate_shows (p : page) :
  hasImage p = true -> machadoReady p = true ->
  isNaN (currentSeverity p) = false ->
  shows (snd (reSimulate p)) "protan" (canvasProtan (snd (reSimulate p))) /\
  shows (snd (reSimulate p)) "deutan" (canvasDeutan (snd (reSimulate p))) /\
  shows (snd (reSimulate p)) "tritan" (canvasTritan (snd (reSimulate p))).
Proof.
  intros Himg Hready Hnan.
  pose proof (reSimulate_number p Hnan) as Hnone.
  destruct (reSimulate_cases p) as [r1 [r2 [r3 [-> Hrun]]]].
  destruct (Hrun Himg Hready Hnone) as (H1 & H2 & H3).
  unfold shows.
  cbn [set_targets cvdSim canvasOriginal currentSeverity canvasProtan
         canvasDeutan canvasTritan].
  repeat split; intros img Hres.
  - rewrite H1 in Hres. now injection Hres as ->.
  - rewrite H2 in Hres. now injection Hres as ->.
  - rewrite H3 in Hres. now injection Hres as ->.
Qed.

Lemma reSimulate_up_to_date (p : page) :
  isNaN (currentSeverity p) = false -> up_to_date (snd (reSimulate p)).
Proof.
  intros Hnan Himg Hready _.
  destruct (reSimulate_keeps p) as (_ & _ & Hi & Hr & _).
  rewrite Hi in Himg. rewrite Hr in Hready.
  now apply reSimulate_shows.
Qed.

Lemma step_up_to_date (p : page) (ev : page_event) :
  match ev with
  | SeverityInput value _ => isNaN (parseFloat value) = false
  | _ => True
  end ->
  isNaN (currentSeverity p) = false /\ up_to_date p ->
  isNaN (currentSeverity (step p ev)) = false /\ up_to_date (step p ev).
Proof.
  intros Hev [Hnan Hp].
  assert (Hloaded : forall iw w h drawn,
            isNaN (currentSeverity (step p (ImageLoaded iw w h drawn)))
            = false /\
            up_to_date (step p (ImageLoaded iw w h drawn))).
  { intros iw w h drawn. cbn [step].
    split.
    { destruct (drawAllCanvases_fields iw w h drawn p) as (_ & -> & _).
      exact Hnan. }
    unfold drawAllCanvases. destruct (canvas_size iw w h) as [cw ch].
    cbv zeta.
    match goal with
    | |- context [if ?b then _ else _] => destruct b eqn:Hb
    end.
    + match goal with
      | |- context [reSimulate ?q] =>
          rewrite (uncaught_number q Hnan);
          apply (reSimulate_up_to_date q Hnan)
      end.
    + intros _ H. cbn in H, Hb. congruence. }
  destruct ev as [fetch | iw w h drawn | iw w h drawn | value id | id].
  - cbn [step]. split.
    { destruct (startup_fields fetch p) as (_ & -> & _). exact Hnan. }
    unfold startup.
    pose proof (load_outcome fetch None (cvdSim p)) as [_ Hthrow].
    destruct (loadMachadoMatrices fetch None (cvdSim p)) as [[T | e] s];
      cbv zeta; cbn [fst snd] in Hthrow.
    + match goal with
      | |- context [reSimulate ?q] =>
          pose proof (uncaught_number q Hnan) as Hu;
          pose proof (reSimulate_up_to_date q Hnan) as Hq;
          destruct (reSimulate q) as [[e |] p2]
      end; cbn [snd uncaught] in Hu, Hq;
        match goal with
        | |- context [if ?b then _ else _] => destruct b eqn:Hb
        end; try exact Hq;
        try (intros H; cbn in H, Hb; congruence).
    + intros _ _ _. unfold shows.
      cbn [add_effects set_cvdSim cvdSim canvasOriginal currentSeverity].
      repeat split; intros img;
        rewrite (simulate_unloaded s _ _ _ (Hthrow e eq_refl));
        discriminate.
  - apply Hloaded.
  - destruct (pasted_as_loaded p iw w h drawn) as [es ->].
    exact (Hloaded iw w h drawn).
  - cbn [step]. split.
    { destruct (severityInput_fields value id p) as (_ & -> & _). exact Hev. }
    unfold severityInput. cbv zeta.
    destruct (_ || _)%bool eqn:Hguard.
    + intros Hi Hr _. cbn in Hi, Hr, Hguard. rewrite Hi, Hr in Hguard.
      discriminate.
    + cbn [pendingFrame set_severity].
      destruct (pendingFrame p) eqn:Hpend; intros _ _ H; cbn in H;
        congruence.
  - cbn [step]. unfold animationFrame. destruct (existsb _ _); [| now split].
    match goal with
    | |- context [reSimulate ?q] =>
        rewrite (uncaught_number q Hnan);
        destruct (reSimulate_keeps q) as (_ & Hsev & _);
        split; [rewrite Hsev; exact Hnan
               | apply (reSimulate_up_to_date q Hnan)]
    end.
Qed.

(** X25.  The simulated canvases follow the slider: with tables of the
    schema's shape (a response's body parses to an object of modes, each an
    object of severity keys, each holding a 3x3 array of numbers) and as
    long as the slider's values read as numbers, whenever the image and the
    table are there and no frame is pending, each simulated canvas shows
    what [applyCvdSimulation] draws for its mode from the original canvas at
    the current severity. *)
Theorem canvases_up_to_date (wo ho wp hp wd hd wt ht : Z) (drawn : list Z)
    (evs : list page_event) :
  numeric_inputs evs ->
  up_to_date (run (start wo ho wp hp wd hd wt ht drawn) evs).
Proof.
  intros Hnum.
  apply (run_invariant
           (fun p => isNaN (currentSeverity p) = false /\ up_to_date p)
           (fun ev => match ev with
                      | SeverityInput value _ =>
                          isNaN (parseFloat value) = false
                      | _ => True
                      end)).
  - intros p ev. apply step_up_to_date.
  - exact Hnum.
  - split; [reflexivity | intros H; discriminate].
Qed.

Lemma canvases_up_to_date_witness :
  up_to_date (run (start 300 150 300 150 300 150 300 150 [])
                PageCases.session).
Proof.
  apply (canvases_up_to_date 300 150 300 150 300 150 300 150 []
           PageCases.session).
  exact session_numeric.
Defined.

(** ** Images too thin to draw *)

Lemma canvas_size_wide (innerWidth imgWidth imgHeight : Z) :
  let limit := if (innerWidth <=? 600)%Z then 480%Z else 800%Z in
  (limit < imgWidth)%Z ->
  canvas_size innerWidth imgWidth imgHeight =
  (of_Z limit,
   of_Z (Zfloor (IZR imgHeight * (IZR limit / IZR imgWidth) + / 2))).
Proof.
  intros limit Hwide.
  assert (Hlimit : (0 < limit)%Z) by (unfold limit; destruct (_ <=? _)%Z; lia).
  assert (Hmax : (if (of_Z innerWidth <=? Num 600)%js then Num 480 else Num 800)
                 = of_Z limit).
  { unfold limit, of_Z, le.
    destruct (Rle_dec (IZR innerWidth) 600) as [H | H];
      destruct (Z.leb_spec innerWidth 600) as [H' | H']; try reflexivity.
    - apply (IZR_lt 600) in H'. lra.
    - apply (IZR_le _ 600) in H'. lra. }
  unfold canvas_size. rewrite Hmax. unfold of_Z, gt, lt.
  apply IZR_lt in Hwide, Hlimit.
  destruct (Rlt_dec (IZR limit) (IZR imgWidth)) as [_ | Hfit]; [| lra].
  rewrite div_Num by lra. cbn [mul Math_round].
  assert (Hw : IZR imgWidth * (IZR limit / IZR imgWidth) = IZR limit)
    by (field; lra).
  now rewrite Hw, Zfloor_IZR_half.
Qed.

Lemma canvas_size_narrow (innerWidth imgWidth imgHeight : Z) :
  (imgWidth <= (if (innerWidth <=? 600)%Z then 480 else 800))%Z ->
  canvas_size innerWidth imgWidth imgHeight = (of_Z imgWidth, of_Z imgHeight).
Proof.
  intros Hfit.
  assert (Hmax : (if (of_Z innerWidth <=? Num 600)%js then Num 480 else Num 800)
                 = of_Z (if (innerWidth <=? 600)%Z then 480 else 800)%Z).
  { unfold of_Z, le.
    destruct (Rle_dec (IZR innerWidth) 600) as [H | H];
      destruct (Z.leb_spec innerWidth 600) as [H' | H']; try reflexivity.
    - apply (IZR_lt 600) in H'. lra.
    - apply (IZR_le _ 600) in H'. lra. }
  unfold canvas_size. rewrite Hmax. unfold of_Z, gt, lt.
  apply IZR_le in Hfit.
  destruct (Rlt_dec _ (IZR imgWidth)) as [Hwide | _]; [lra |].
  cbn [mul Math_round]. now rewrite !Rmult_1_r, !Zfloor_IZR_half.
Qed.

Lemma simulate_no_height (st : state) (src : canvas) (mode : string)
    (severity : option num) (img : list Z) :
  height src = 0%Z ->
  applyCvdSimulation st src mode severity <> Return (Some img).
Proof.
  intros Hzero. unfold applyCvdSimulation.
  destruct (getMachadoMatrixSync st mode _) as [[mat |] | e]; try discriminate.
  rewrite Hzero. cbn [Z.eqb]. rewrite orb_true_r. discriminate.
Qed.

Lemma reSimulate_no_height (p : page) :
  height (canvasOriginal p) = 0%Z -> snd (reSimulate p) = p.
Proof.
  intros Hzero. destruct (hasImage p) eqn:Himg;
    [| now rewrite reSimulate_guard by now left].
  destruct (machadoReady p) eqn:Hready;
    [| now rewrite reSimulate_guard by now right].
  unfold reSimulate. rewrite Himg, Hready. cbn [negb orb].
  pose proof (fun mode img =>
                simulate_no_height (cvdSim p) (canvasOriginal p) mode
                  (Some (currentSeverity p)) img Hzero) as Hno.
  destruct p as [st sev img ready pend text o tp td tt fs es].
  cbn [cvdSim canvasOriginal currentSeverity canvasProtan canvasDeutan
         canvasTritan set_targets] in *.
  destruct (applyCvdSimulation st o "protan" (Some sev)) as [[i1 |] | e1] eqn:H1;
    [now elim (Hno "protan"%string i1) | | reflexivity].
  destruct (applyCvdSimulation st o "deutan" (Some sev)) as [[i2 |] | e2] eqn:H2;
    [now elim (Hno "deutan"%string i2) | | reflexivity].
  destruct (applyCvdSimulation st o "tritan" (Some sev)) as [[i3 |] | e3] eqn:H3;
    [now elim (Hno "tritan"%string i3) | reflexivity | reflexivity].
Qed.

(** X26.  An image so wide that its scaled height rounds to 0 is never
    simulated: when twice the image's height times the width limit is less
    than its width, [drawAllCanvases] gives the canvases height 0 and
    nothing is put on the simulated canvases, table loaded or not. *)
Theorem thin_image_not_simulated (innerWidth imgWidth imgHeight : Z)
    (drawn : Z -> Z -> list Z) (p : page) :
  (0 <= imgHeight)%Z ->
  (2 * imgHeight * (if (innerWidth <=? 600)%Z then 480 else 800) < imgWidth)%Z ->
  height (canvasOriginal
            (uncaught (drawAllCanvases innerWidth imgWidth imgHeight drawn p)))
  = 0%Z /\
  blank (uncaught (drawAllCanvases innerWidth imgWidth imgHeight drawn p)).
Proof.
  intros HH Hthin.
  set (limit := if (innerWidth <=? 600)%Z then 480%Z else 800%Z) in *.
  assert (Hlimit : (0 < limit)%Z) by (unfold limit; destruct (_ <=? _)%Z; lia).
  unfold drawAllCanvases.
  assert (Hsize : exists w,
            canvas_size innerWidth imgWidth imgHeight = (w, of_Z 0)).
  { destruct (Z_lt_le_dec limit imgWidth) as [Hwide | Hfit].
    - rewrite (canvas_size_wide innerWidth imgWidth imgHeight Hwide).
      fold limit. eexists. f_equal. f_equal. apply Zfloor_eq.
      pose proof (IZR_le _ _ HH) as HH'. pose proof (IZR_lt _ _ Hlimit) as Hl'.
      pose proof (IZR_lt _ _ Hwide) as Hw'. pose proof (IZR_lt _ _ Hthin) as Ht'.
      rewrite !mult_IZR in Ht'.
      assert (Hx : 0 <= IZR imgHeight * (IZR limit / IZR imgWidth)).
      { apply Rmult_le_pos; [lra |]. apply Rlt_le, Rdiv_lt_0_compat; lra. }
      assert (Hx' : IZR imgHeight * (IZR limit / IZR imgWidth) < / 2).
      { apply Rmult_lt_reg_r with (2 * IZR imgWidth); [lra |].
        replace (IZR imgHeight * (IZR limit / IZR imgWidth) * (2 * IZR imgWidth))
          with (2 * IZR imgHeight * IZR limit) by (field; lra).
        lra. }
      split; cbn [IZR]; lra.
    - rewrite (canvas_size_narrow innerWidth imgWidth imgHeight Hfit).
      assert (imgHeight = 0%Z) as -> by nia. now eexists. }
  destruct Hsize as [cw ->]. cbv zeta.
  rewrite (ToUint32_of_Z 0) by lia.
  match goal with
  | |- context [if ?b then _ else _] => destruct b
  end; [| now repeat split].
  match goal with
  | |- context [reSimulate ?q] =>
      destruct (uncaught_fields (reSimulate q))
        as (_ & _ & _ & _ & _ & _ & Ho & Htp & Htd & Htt);
      unfold blank; rewrite Ho, Htp, Htd, Htt;
      rewrite (reSimulate_no_height q eq_refl)
  end.
  now repeat split.
Qed.

Lemma thin_image_not_simulated_witness :
  height (canvasOriginal
            (uncaught (drawAllCanvases 1024 10000 5 (fun _ _ => [])
                         PageCases.pending)))
  = 0%Z /\
  blank (uncaught (drawAllCanvases 1024 10000 5 (fun _ _ => [])
                     PageCases.pending)).
Proof.
  apply (thin_image_not_simulated 1024 10000 5 (fun _ _ => [])
           PageCases.pending); [lia | reflexivity].
Defined.
